(** * KernelCodeGen: the CUDA back end ([src/Backend/CUDA.cc])

    A shallow embedding of the CUDA source generator and the properties
    its specification states about it.

    Conventions of the embedding.
    - An [mlir::Value] is an opaque handle compared by identity; the handle
      is a [positive].  The type stored behind the handle is read with
      [getType], a parameter of the development (the IR graph is owned by
      the producer of the module).
    - The file-scope objects of the translation unit ([source],
      [valueNameMap], [kernelCounter], [varCounter]) together with the
      diagnostic stream [llvm::errs()] form the record [Globals]; every
      function that touches them is a computation in the monad [M].
      [kernelNameMap] is never read or written and is left out.
    - [assert] is compiled out when [NDEBUG] is defined; the flag is a
      parameter, so both builds are covered.
    - Behaviour the C++ standard leaves undefined (reading a vector out of
      range, dereferencing a null handle) ends a computation with
      [Fault undefined_behaviour].
    - [setValueName] has no [return] on the path that stores a name:
      control flows off the end of a function that returns [bool], which
      the standard leaves undefined.  What a build does at that point is
      the parameter [missingReturn]: with [None], the reading of the
      standard, the computation ends there with
      [Fault undefined_behaviour]; with [Some b] control comes back to the
      caller with [b] as the result, which no caller reads.  A property of
      a run is stated for every build, under the condition that the run
      returns, or it names the build it is about.
    - Signed overflow of the naming counters and of the 64-bit product of a
      stride and an extent is outside the embedding: the counters and the
      product are unbounded integers.  Narrowing conversions, which are
      defined, are written out with [to_int].
    - [std::map] with [CompareValue] orders its keys by address.  Lookups
      do not depend on the order and use [gmap]; the one loop that iterates
      a map takes the enumeration as the parameter [iterate].
    - The bounds and the step of an [affine.for] are constants
      ([getConstantLowerBound] and the like); its [affine.loop] attribute,
      when present, is a string.  A floating-point constant carries the
      text [operator<<] prints for it. *)

From Stdlib Require Import ZArith String List DecimalString Lia.
From Stdlib Require DecimalZ DecimalPos.
From stdpp Require Import gmap list sorting strings.

#[local] Set Warnings "-register-all,-clear-no-such-hyp".
Local Open Scope string_scope.
Local Open Scope Z_scope.
Local Open Scope list_scope.

(** ** Integers and their decimal text *)

(** [std::to_string] and [operator<<] on a signed integer. *)
Definition to_string (z : Z) : string := NilZero.string_of_int (Z.to_int z).

(** Conversion of an [int64_t] to [int]: reduction modulo [2^32] into the
    signed range. *)
Definition to_int (z : Z) : Z := (z + 2 ^ 31) mod 2 ^ 32 - 2 ^ 31.

Definition INT_MAX : Z := 2 ^ 31 - 1.

(** ** IR data model *)

Definition Value := positive.
Bind Scope positive_scope with Value.

(** Modelled from the spec: [enum.h], which declares [MemorySpace], is not
    among the sources; the three spaces are those of the data model, and a
    memref whose space is none of [global] and [shared] is handled as
    [local] by every comparison in the generator. *)
Inductive MemorySpace := global | shared | local.

Inductive Type_ :=
| Float16Type
| Float32Type
| Float64Type
| IntegerType
| IndexType
| MemRefType (elementType : Type_) (shape : list Z) (memorySpace : MemorySpace)
| VectorType (elementType : Type_) (shape : list Z)
| OtherType.

Inductive AffineExprKind := Add | Mul | Mod | FloorDiv | CeilDiv.

Inductive AffineExpr :=
| AffineDimExpr (position : nat)
| AffineSymbolExpr (position : nat)
| AffineConstantExpr (value : Z)
| AffineBinaryOpExpr (kind : AffineExprKind) (lhs rhs : AffineExpr).

Inductive CmpFPredicate := OEQ | OGT | OtherPredicate.

Inductive ShuffleMode := XOR | UP | DOWN | IDX.

(** One constructor per operation class the generator casts to, plus
    [OtherOp] for every other operation of the input.  Containers carry
    the operations of their single block; [affine.if] has a then-region
    and an else-region. *)
Inductive Op :=
| ConstantIndexOp (result : Value) (value : Z)
| ConstantFloatOp (result : Value) (value : string)
| ConstantIntOp (result : Value) (value : Z)
| MulFOp (result lhs rhs : Value)
| AddFOp (result lhs rhs : Value)
| MaxFOp (result lhs rhs : Value)
| SubFOp (result lhs rhs : Value)
| DivFOp (result lhs rhs : Value)
| PowFOp (result lhs rhs : Value)
| CmpFOp (result lhs rhs : Value) (predicate : CmpFPredicate)
| TanhOp (result operand : Value)
| SqrtOp (result operand : Value)
| LogOp (result operand : Value)
| BitcastOp (result operand : Value)
| ExpOp (result operand : Value)
| AllocOp (result : Value)
| AffineApplyOp (result : Value) (map : list AffineExpr) (operands : list Value)
| AffineIfOp (constraints : list (AffineExpr * bool)) (operands : list Value)
             (thenBody elseBody : list Op)
| AffineForOp (inductionVar : Value) (lb ub step : Z) (loopAttr : option string)
              (body : list Op)
| AffineLoadOp (result memref : Value) (map : list AffineExpr) (operands : list Value)
| LoadOp (result memref : Value) (indices : list Value)
| AffineStoreOp (value memref : Value) (map : list AffineExpr) (operands : list Value)
| AffineVectorLoadOp (result memref : Value) (map : list AffineExpr)
                     (operands : list Value)
| AffineVectorStoreOp (value memref : Value) (map : list AffineExpr)
                      (operands : list Value)
| BarrierOp
| ShuffleOp (result value offset width : Value) (mode : ShuffleMode)
| AffineParallelOp (IVs : list Value) (body : list Op)
| AffineYieldOp
| OtherOp (name : string) (body : list Op).

Record FuncOp := { funcBody : list Op }.

Record ModuleOp := { functions : list FuncOp }.

(** [Operation::getName]. *)
Definition getName (op : Op) : string :=
  match op with
  | ConstantIndexOp _ _ | ConstantFloatOp _ _ | ConstantIntOp _ _ => "arith.constant"
  | MulFOp _ _ _ => "arith.mulf"
  | AddFOp _ _ _ => "arith.addf"
  | MaxFOp _ _ _ => "arith.maxf"
  | SubFOp _ _ _ => "arith.subf"
  | DivFOp _ _ _ => "arith.divf"
  | PowFOp _ _ _ => "math.powf"
  | CmpFOp _ _ _ _ => "arith.cmpf"
  | TanhOp _ _ => "math.tanh"
  | SqrtOp _ _ => "math.sqrt"
  | LogOp _ _ => "math.log"
  | BitcastOp _ _ => "arith.bitcast"
  | ExpOp _ _ => "math.exp"
  | AllocOp _ => "memref.alloc"
  | AffineApplyOp _ _ _ => "affine.apply"
  | AffineIfOp _ _ _ _ => "affine.if"
  | AffineForOp _ _ _ _ _ _ => "affine.for"
  | AffineLoadOp _ _ _ _ => "affine.load"
  | LoadOp _ _ _ => "memref.load"
  | AffineStoreOp _ _ _ _ => "affine.store"
  | AffineVectorLoadOp _ _ _ _ => "affine.vector_load"
  | AffineVectorStoreOp _ _ _ _ => "affine.vector_store"
  | BarrierOp => "gpu.barrier"
  | ShuffleOp _ _ _ _ _ => "gpu.shuffle"
  | AffineParallelOp _ _ => "affine.parallel"
  | AffineYieldOp => "affine.yield"
  | OtherOp name _ => name
  end.

(** [Operation::walk<WalkOrder::PreOrder>]: the operation itself, then the
    operations nested in its regions, in order. *)
Fixpoint walk (op : Op) : list Op :=
  op :: match op with
        | AffineIfOp _ _ thenBody elseBody =>
            concat (map walk thenBody) ++ concat (map walk elseBody)
        | AffineForOp _ _ _ _ _ body => concat (map walk body)
        | AffineParallelOp _ body => concat (map walk body)
        | OtherOp _ body => concat (map walk body)
        | _ => []
        end.

(** ** Process state and the generation monad *)

(** The line feed and the double quote of the C++ string literals. *)
Definition nl : string := String (Ascii.ascii_of_nat 10) EmptyString.

Definition dquote : string := String (Ascii.ascii_of_nat 34) EmptyString.

Record Globals := mkGlobals {
  source : string;
  errs : list string;
  valueNameMap : gmap Value string;
  kernelCounter : Z;
  varCounter : Z }.

(** How a run ends without returning: a failed [assert] aborts the process;
    behaviour the language leaves undefined has no result.  Neither is an
    error value handed to the caller. *)
Inductive fault := assertion_failed | undefined_behaviour.

Inductive outcome (A : Type) :=
| Ok (a : A)
| Fault (f : fault).
Arguments Ok {A} a.
Arguments Fault {A} f.

Definition M (A : Type) : Type := Globals -> outcome (A * Globals).

Definition ret {A} (a : A) : M A := fun g => Ok (a, g).

Definition bind {A B} (c : M A) (k : A -> M B) : M B :=
  fun g => match c g with
           | Ok (a, g') => k a g'
           | Fault f => Fault f
           end.

Definition fail {A} (f : fault) : M A := fun _ => Fault f.

Notation "x <- c ;; k" := (bind c (fun x => k))
  (at level 100, c at next level, right associativity).
Notation "c ;;; k" := (bind c (fun _ => k))
  (at level 100, right associativity).

(** [source << s]. *)
Definition emit (s : string) : M unit :=
  fun g => Ok (tt, mkGlobals (source g +:+ s) (errs g) (valueNameMap g)
                             (kernelCounter g) (varCounter g)).

(** [llvm::errs() << s]. *)
Definition log (s : string) : M unit :=
  fun g => Ok (tt, mkGlobals (source g) (errs g ++ [s]) (valueNameMap g)
                             (kernelCounter g) (varCounter g)).

(** A range-based [for] over [l]. *)
Definition forM_ {A} (l : list A) (f : A -> M unit) : M unit :=
  (fix go (l : list A) : M unit :=
     match l with
     | [] => ret tt
     | x :: l' => f x ;;; go l'
     end) l.

(** A range-based [for] over [l] that updates the local [s]. *)
Definition foldM {A S} (f : S -> A -> M S) (s : S) (l : list A) : M S :=
  (fix go (l : list A) (s : S) : M S :=
     match l with
     | [] => ret s
     | x :: l' => s' <- f s x ;; go l' s'
     end) l s.

Definition toCStr (type : Type_) : option string :=
  match type with
  | Float16Type => Some "half_t"
  | Float32Type => Some "float"
  | Float64Type => Some "double"
  | IntegerType => Some "int"
  | IndexType => Some "int"
  | _ => None
  end.

(** ** Symbol table *)

Definition getKernelName : M string :=
  fun g => Ok ("kernel" +:+ to_string (kernelCounter g),
               mkGlobals (source g) (errs g) (valueNameMap g)
                         (kernelCounter g + 1) (varCounter g)).

Definition getArgName : M string :=
  fun g => Ok ("arg" +:+ to_string (varCounter g),
               mkGlobals (source g) (errs g) (valueNameMap g)
                         (kernelCounter g) (varCounter g + 1)).

(** The function has no [return] on the path that stores the name: after
    the store, control flows off the end of the function.  [missingReturn]
    is what the build does there: [None] when the behaviour is taken as
    undefined, [Some b] when the caller gets [b]. *)
Definition setValueName (missingReturn : option bool) (val : Value) (name : string)
    : M bool :=
  fun g => match valueNameMap g !! val with
           | Some _ =>
               Ok (false, mkGlobals (source g) (errs g ++ ["value already exists" +:+ nl])
                                    (valueNameMap g) (kernelCounter g) (varCounter g))
           | None =>
               match missingReturn with
               | Some b =>
                   Ok (b, mkGlobals (source g) (errs g) (<[val := name]> (valueNameMap g))
                                    (kernelCounter g) (varCounter g))
               | None => Fault undefined_behaviour
               end
           end.

Definition getValueName (val : Value) : M string :=
  fun g => match valueNameMap g !! val with
           | None =>
               Ok ("false", mkGlobals (source g) (errs g ++ ["value not exists" +:+ nl])
                                      (valueNameMap g) (kernelCounter g) (varCounter g))
           | Some name => Ok (name, g)
           end.

(** [valueNameMap.count(val) != 0]. *)
Definition hasValueName (val : Value) : M bool :=
  fun g => Ok (bool_decide (is_Some (valueNameMap g !! val)), g).

(** ** Text helpers *)

Fixpoint spaces (n : nat) : string :=
  match n with
  | O => ""
  | S n' => "  " +:+ spaces n'
  end.

(** [CUDAGenerator::indent]; [curIndent] is the member the [Indent] helper
    bumps for the extent of a block, so it is passed down as an argument. *)
Definition indent (curIndent : Z) : M unit := emit (spaces (Z.to_nat curIndent)).

(** The lambda of [varDeclear]. *)
Fixpoint getContinusStar (num : nat) : string :=
  match num with
  | O => ""
  | S n => "*" +:+ getContinusStar n
  end.

Section Generator.

(** What the build does where [setValueName] flows off its end. *)
Variable missingReturn : option bool.

(** Build flavour: [true] when [assert] is compiled out. *)
Variable NDEBUG : bool.

(** [Value::getType]. *)
Variable getType : Value -> Type_.

(** [Analyzer::getParallelNumber] lives outside this translation unit; only
    the dimension vector it returns is used. *)
Variable getParallelNumber : Op -> list Z.

(** [KCGLog::level == Log::Debug]. *)
Variable debugLog : bool.

Definition assert_ (cond : bool) : M unit :=
  if NDEBUG then ret tt
  else if cond then ret tt else fail assertion_failed.

(** [operator[]] of [llvm::SmallVector] and [llvm::ArrayRef]: asserts the
    index, then reads. *)
Definition at_ {A} (l : list A) (i : nat) : M A :=
  match l !! i with
  | Some x => ret x
  | None => assert_ false ;;; fail undefined_behaviour
  end.

(** [operator[]] of [std::vector] at an [int] index: unchecked. *)
Definition vector_at {A} (l : list A) (i : Z) : M A :=
  if i <? 0 then fail undefined_behaviour
  else match l !! Z.to_nat i with
       | Some x => ret x
       | None => fail undefined_behaviour
       end.

(** ** Affine expression evaluator *)

Fixpoint codegen_AffineExpr (expr : AffineExpr) (operands : list Value) : M string :=
  match expr with
  | AffineDimExpr position =>
      v <- at_ operands position ;;
      getValueName v
  | AffineConstantExpr val =>
      if 10240 <=? val then ret (to_string val +:+ "")
      else ret (to_string val)
  | AffineSymbolExpr _ =>
      (* neither cast before it succeeds, so [binaryExpr] is null *)
      assert_ false ;;; fail undefined_behaviour
  | AffineBinaryOpExpr kind l r =>
      lhs <- codegen_AffineExpr l operands ;;
      rhs <- codegen_AffineExpr r operands ;;
      match kind with
      | Add => ret ("(" +:+ lhs +:+ " + " +:+ rhs +:+ ")")
      | CeilDiv =>
          ret ("((" +:+ lhs +:+ " + " +:+ rhs +:+ " - 1)" +:+ " / " +:+ rhs +:+ ")")
      | FloorDiv => ret ("(" +:+ lhs +:+ " / " +:+ rhs +:+ ")")
      | Mod => ret ("(" +:+ lhs +:+ " % " +:+ rhs +:+ ")")
      | Mul => ret ("(" +:+ lhs +:+ " * " +:+ rhs +:+ ")")
      end
  end.

(** ** Declarations *)

Definition varDeclear (var : Value) : M unit :=
  match getType var with
  | MemRefType elementType dims memorySpace =>
      (match memorySpace with
       | shared => emit "__shared__ "
       | _ => ret tt
       end) ;;;
      (match toCStr elementType with
       | Some s => emit s
       | None => fail undefined_behaviour
       end) ;;;
      varName <- getValueName var ;;
      match memorySpace with
      | global => emit (getContinusStar 1 +:+ " " +:+ varName)
      | _ =>
          emit (" " +:+ varName) ;;;
          forM_ dims (fun d => emit ("[" +:+ to_string d +:+ "]"))
      end
  | _ => fail undefined_behaviour
  end.

(** ** Memory layout engine *)

(** The loop that fills [std::vector<int> strides]: entry [i] is the
    product of the last [i] extents, converted to [int] when stored. *)
Definition strides_step (shape : list Z) (strides : list Z) (i : nat) : list Z :=
  if decide (i = 0%nat) then strides ++ [1]
  else strides ++ [to_int (strides !!! (i - 1)%nat * shape !!! (length shape - i)%nat)].

Definition compute_strides (shape : list Z) : list Z :=
  foldl (strides_step shape) [] (seq 0 (length shape)).

(** The loop over [exprs] of a global access; [index] counts down. *)
Fixpoint offset_terms (exprs : list AffineExpr) (operands : list Value)
                      (strides : list Z) (index : Z) : M string :=
  match exprs with
  | [] => ret ""
  | expr :: rest =>
      stride <- vector_at strides index ;;
      let suffix := if 10240 <=? stride then "" +:+ "" else "" in
      e <- codegen_AffineExpr expr operands ;;
      more <- offset_terms rest operands strides (index - 1) ;;
      ret (e +:+ " * " +:+ to_string stride +:+ suffix +:+ " + " +:+ more)
  end.

Fixpoint bracket_terms (exprs : list AffineExpr) (operands : list Value) : M string :=
  match exprs with
  | [] => ret ""
  | expr :: rest =>
      e <- codegen_AffineExpr expr operands ;;
      more <- bracket_terms rest operands ;;
      ret ("[" +:+ e +:+ "]" +:+ more)
  end.

(** The subscript text shared by the five access emitters: a flat
    row-major offset for global memory, one bracket per dimension
    otherwise. *)
Definition subscript (memref : Value) (exprs : list AffineExpr)
                     (operands : list Value) : M string :=
  match getType memref with
  | MemRefType _ shape memorySpace =>
      match memorySpace with
      | global =>
          let strides := compute_strides shape in
          terms <- offset_terms exprs operands strides (Z.of_nat (length exprs) - 1) ;;
          ret ("[" +:+ terms +:+ "0]")
      | _ => bracket_terms exprs operands
      end
  | _ => fail undefined_behaviour
  end.

Definition codegen_AffineLoadOp (curIndent : Z) (result memref : Value)
    (exprs : list AffineExpr) (operands : list Value) : M unit :=
  indent curIndent ;;;
  res <- getValueName result ;;
  mem <- getValueName memref ;;
  emit ("auto " +:+ res +:+ " = " +:+ mem) ;;;
  sub <- subscript memref exprs operands ;;
  emit sub ;;;
  emit (";" +:+ nl).

(** [memref.load]: one dimension expression per index operand. *)
Definition codegen_LoadOp (curIndent : Z) (result memref : Value)
    (indices : list Value) : M unit :=
  indent curIndent ;;;
  res <- getValueName result ;;
  mem <- getValueName memref ;;
  emit ("auto " +:+ res +:+ " = " +:+ mem) ;;;
  let exprs := map AffineDimExpr (seq 0 (length indices)) in
  sub <- subscript memref exprs indices ;;
  emit sub ;;;
  emit (";" +:+ nl).

Definition codegen_AffineStoreOp (curIndent : Z) (value memref : Value)
    (exprs : list AffineExpr) (operands : list Value) : M unit :=
  indent curIndent ;;;
  mem <- getValueName memref ;;
  emit mem ;;;
  sub <- subscript memref exprs operands ;;
  emit sub ;;;
  val <- getValueName value ;;
  emit (" = " +:+ val) ;;;
  emit (";" +:+ nl).

Definition getVectorFetchType (vt : Type_) : M string :=
  match vt with
  | VectorType eleT shape =>
      let width := match eleT with
                   | Float16Type => 16
                   | Float32Type => 32
                   | Float64Type => 64
                   | _ => -1
                   end in
      (if width =? -1 then log ("Vector type error" +:+ nl) else ret tt) ;;;
      vecLen <- at_ shape 0 ;;
      let totalBits := vecLen * width in
      let totalFloat := Z.quot totalBits 32 in
      ret ("float" +:+ to_string totalFloat)
  | _ => fail undefined_behaviour
  end.

(** The [codegenMemref] lambda of the two vector emitters. *)
Definition codegenMemref (memref : Value) (exprs : list AffineExpr)
    (operands : list Value) : M string :=
  result <- getValueName memref ;;
  sub <- subscript memref exprs operands ;;
  ret (result +:+ sub).

Definition codegen_AffineVectorLoadOp (curIndent : Z) (result memref : Value)
    (exprs : list AffineExpr) (operands : list Value) : M unit :=
  indent curIndent ;;;
  res <- getValueName result ;;
  emit ("auto " +:+ res +:+ " = ") ;;;
  vstr <- getVectorFetchType (getType result) ;;
  addr <- codegenMemref memref exprs operands ;;
  emit ("(reinterpret_cast<" +:+ vstr +:+ "*>(&(" +:+ addr +:+ "))[0]);" +:+ nl).

Definition codegen_AffineVectorStoreOp (curIndent : Z) (value memref : Value)
    (exprs : list AffineExpr) (operands : list Value) : M unit :=
  indent curIndent ;;;
  vstr <- getVectorFetchType (getType value) ;;
  addr <- codegenMemref memref exprs operands ;;
  emit ("(reinterpret_cast<" +:+ vstr +:+ "*>(&(" +:+ addr +:+ "))[0])") ;;;
  val <- getValueName value ;;
  emit (" = " +:+ val +:+ ";" +:+ nl).

(** ** Statement emitter: operations without a body *)

Definition codegen_AllocOp (curIndent : Z) (result : Value) : M unit :=
  indent curIndent ;;;
  varDeclear result ;;;
  emit (";" +:+ nl).

Definition codegen_BarrierOp (curIndent : Z) : M unit :=
  indent curIndent ;;;
  emit ("__syncthreads();" +:+ nl).

Definition codegen_ShuffleOp (curIndent : Z) (result value offset width : Value)
    (mode : ShuffleMode) : M unit :=
  indent curIndent ;;;
  res <- getValueName result ;;
  emit ("auto " +:+ res +:+ " = ") ;;;
  (match mode with
   | DOWN => emit " __shfl_down_sync(0xffffffff, "
   | IDX => emit " __shfl_sync(0xffffffff, "
   | _ => log ("Unsupport shfl mode" +:+ nl)
   end) ;;;
  v <- getValueName value ;;
  o <- getValueName offset ;;
  w <- getValueName width ;;
  emit (v +:+ ", " +:+ o +:+ ", " +:+ w +:+ ");" +:+ nl).

Definition codegen_AffineApplyOp (curIndent : Z) (result : Value)
    (exprs : list AffineExpr) (operands : list Value) : M unit :=
  assert_ (bool_decide (length exprs = 1%nat)) ;;;
  indent curIndent ;;;
  res <- getValueName result ;;
  expr <- at_ exprs 0 ;;
  e <- codegen_AffineExpr expr operands ;;
  emit ("int " +:+ res +:+ " = " +:+ e +:+ ";" +:+ nl).

Definition codegen_ConstantIndexOp (curIndent : Z) (result : Value) (value : Z) : M unit :=
  indent curIndent ;;;
  res <- getValueName result ;;
  emit ("constexpr int " +:+ res +:+ " = " +:+ to_string value +:+ ";" +:+ nl).

(** [value] is the text [operator<<] prints for the constant converted to
    [float]. *)
Definition codegen_ConstantFloatOp (curIndent : Z) (result : Value) (value : string)
    : M unit :=
  indent curIndent ;;;
  match toCStr (getType result) with
  | Some eleT =>
      res <- getValueName result ;;
      emit ("constexpr " +:+ eleT +:+ " " +:+ res +:+ " = " +:+ value +:+ ";" +:+ nl)
  | None => fail undefined_behaviour
  end.

Definition codegen_ConstantIntOp (curIndent : Z) (result : Value) (value : Z) : M unit :=
  indent curIndent ;;;
  match toCStr (getType result) with
  | Some eleT =>
      res <- getValueName result ;;
      emit ("constexpr " +:+ eleT +:+ " " +:+ res +:+ " = "
            +:+ to_string (to_int value) +:+ ";" +:+ nl)
  | None => fail undefined_behaviour
  end.

(** The shape shared by [MulFOp], [AddFOp], [SubFOp], [DivFOp] (infix) and
    [MaxFOp], [PowFOp] (call): [before], left name, [between], right name,
    [after]. *)
Definition codegen_binary (curIndent : Z) (before between after : string)
    (result lhs rhs : Value) : M unit :=
  indent curIndent ;;;
  res <- getValueName result ;;
  l <- getValueName lhs ;;
  r <- getValueName rhs ;;
  emit ("auto " +:+ res +:+ before +:+ l +:+ between +:+ r +:+ after +:+ nl).

Definition codegen_MulFOp ci := codegen_binary ci " = " " * " ";".
Definition codegen_AddFOp ci := codegen_binary ci " = " " + " ";".
Definition codegen_MaxFOp ci := codegen_binary ci " = max(" " , " ");".
Definition codegen_SubFOp ci := codegen_binary ci " = " " - " ";".
Definition codegen_DivFOp ci := codegen_binary ci " = " " / " ";".
Definition codegen_PowFOp ci := codegen_binary ci " = powf(" ", " ");".

Definition codegen_unary (curIndent : Z) (callee : string) (result operand : Value)
    : M unit :=
  indent curIndent ;;;
  res <- getValueName result ;;
  x <- getValueName operand ;;
  emit ("auto " +:+ res +:+ " = " +:+ callee +:+ "(" +:+ x +:+ ");" +:+ nl).

Definition codegen_TanhOp ci := codegen_unary ci "tanhf".
Definition codegen_SqrtOp ci := codegen_unary ci "sqrtf".
Definition codegen_LogOp ci := codegen_unary ci "logf".
Definition codegen_ExpOp ci := codegen_unary ci "exp".

(** The debugging print of the result type on [llvm::outs()] is not part of
    the generated text and is left out. *)
Definition codegen_BitcastOp (curIndent : Z) (result operand : Value) : M unit :=
  indent curIndent ;;;
  res <- getValueName result ;;
  match toCStr (getType result) with
  | Some t =>
      x <- getValueName operand ;;
      emit ("auto " +:+ res +:+ " = static_cast<" +:+ t +:+ ">(" +:+ x +:+ ");" +:+ nl)
  | None => fail undefined_behaviour
  end.

Definition codegen_CmpFOp (curIndent : Z) (result lhs rhs : Value)
    (cmp_type : CmpFPredicate) : M unit :=
  indent curIndent ;;;
  match cmp_type with
  | OEQ =>
      res <- getValueName result ;;
      l <- getValueName lhs ;;
      r <- getValueName rhs ;;
      emit ("auto " +:+ res +:+ " = " +:+ l +:+ " == " +:+ r +:+ ";" +:+ nl)
  | OGT =>
      res <- getValueName result ;;
      l <- getValueName lhs ;;
      r <- getValueName rhs ;;
      emit ("auto " +:+ res +:+ " = " +:+ l +:+ " > " +:+ r +:+ ";" +:+ nl)
  | OtherPredicate => ret tt
  end.

(** ** Statement emitter: dispatch chains

    Each container walks its block with its own chain of casts.  The four
    predicates list the classes each chain tests for. *)

Definition ifBodyCase (op : Op) : bool :=
  match op with
  | AffineForOp _ _ _ _ _ _ | AffineIfOp _ _ _ _
  | ConstantIndexOp _ _ | ConstantFloatOp _ _ | ConstantIntOp _ _
  | AffineVectorLoadOp _ _ _ _ | AffineVectorStoreOp _ _ _ _
  | BarrierOp | AffineStoreOp _ _ _ _ | AffineLoadOp _ _ _ _ | LoadOp _ _ _
  | MaxFOp _ _ _ | MulFOp _ _ _ | AddFOp _ _ _ | SubFOp _ _ _ | DivFOp _ _ _
  | SqrtOp _ _ | ExpOp _ _ | ShuffleOp _ _ _ _ _ => true
  | _ => false
  end.

Definition forBodyCase (op : Op) : bool :=
  match op with
  | AffineForOp _ _ _ _ _ _ | AffineIfOp _ _ _ _
  | AffineLoadOp _ _ _ _ | AffineApplyOp _ _ _ | LoadOp _ _ _
  | AffineStoreOp _ _ _ _ | AffineVectorLoadOp _ _ _ _ | AffineVectorStoreOp _ _ _ _
  | ConstantIndexOp _ _ | ConstantFloatOp _ _ | ConstantIntOp _ _
  | MulFOp _ _ _ | AddFOp _ _ _ | PowFOp _ _ _ | CmpFOp _ _ _ _
  | TanhOp _ _ | SqrtOp _ _ | LogOp _ _ | DivFOp _ _ _
  | BarrierOp | ShuffleOp _ _ _ _ _ | AllocOp _
  | MaxFOp _ _ _ | SubFOp _ _ _ | ExpOp _ _ => true
  | _ => false
  end.

(** The chain of the kernel's own block, the nested [affine.parallel]
    apart (it is inlined by [codegen_AffineParallelOp]). *)
Definition parallelBodyCase (op : Op) : bool :=
  match op with
  | AllocOp _ | ConstantIndexOp _ _ | ConstantIntOp _ _ | AffineStoreOp _ _ _ _
  | ConstantFloatOp _ _ | AffineApplyOp _ _ _ => true
  | _ => false
  end.

Definition innerParallelBodyCase (op : Op) : bool :=
  match op with
  | ConstantIndexOp _ _ | ConstantIntOp _ _ | AllocOp _ | AffineApplyOp _ _ _
  | AffineForOp _ _ _ _ _ _ | AffineIfOp _ _ _ _
  | AffineLoadOp _ _ _ _ | LoadOp _ _ _ | AffineStoreOp _ _ _ _
  | AffineVectorLoadOp _ _ _ _ | AffineVectorStoreOp _ _ _ _
  | ConstantFloatOp _ _ | MulFOp _ _ _ | AddFOp _ _ _ | DivFOp _ _ _ | SubFOp _ _ _
  | PowFOp _ _ _ | CmpFOp _ _ _ _ | TanhOp _ _ | SqrtOp _ _ | LogOp _ _
  | BitcastOp _ _ | BarrierOp => true
  | _ => false
  end.

Definition isYield (op : Op) : bool :=
  match op with
  | AffineYieldOp => true
  | _ => false
  end.

(** The last branch of the chains of [affine.if] and of the kernel's own
    block. *)
Definition elseAssertYield (op : Op) : M unit :=
  assert_ (isYield op).

(** The last branch of the chains of [affine.for] and of the nested
    [affine.parallel]. *)
Definition elseLogAssertYield (op : Op) : M unit :=
  if isYield op then ret tt
  else log (getName op +:+ nl) ;;; assert_ false.

(** ** Statement emitter: the overloads reached through the chains *)

Fixpoint codegen (curIndent : Z) (op : Op) {struct op} : M unit :=
  match op with
  | ConstantIndexOp result value => codegen_ConstantIndexOp curIndent result value
  | ConstantFloatOp result value => codegen_ConstantFloatOp curIndent result value
  | ConstantIntOp result value => codegen_ConstantIntOp curIndent result value
  | MulFOp result lhs rhs => codegen_MulFOp curIndent result lhs rhs
  | AddFOp result lhs rhs => codegen_AddFOp curIndent result lhs rhs
  | MaxFOp result lhs rhs => codegen_MaxFOp curIndent result lhs rhs
  | SubFOp result lhs rhs => codegen_SubFOp curIndent result lhs rhs
  | DivFOp result lhs rhs => codegen_DivFOp curIndent result lhs rhs
  | PowFOp result lhs rhs => codegen_PowFOp curIndent result lhs rhs
  | CmpFOp result lhs rhs p => codegen_CmpFOp curIndent result lhs rhs p
  | TanhOp result operand => codegen_TanhOp curIndent result operand
  | SqrtOp result operand => codegen_SqrtOp curIndent result operand
  | LogOp result operand => codegen_LogOp curIndent result operand
  | BitcastOp result operand => codegen_BitcastOp curIndent result operand
  | ExpOp result operand => codegen_ExpOp curIndent result operand
  | AllocOp result => codegen_AllocOp curIndent result
  | AffineApplyOp result exprs operands =>
      codegen_AffineApplyOp curIndent result exprs operands
  | AffineLoadOp result memref exprs operands =>
      codegen_AffineLoadOp curIndent result memref exprs operands
  | LoadOp result memref indices => codegen_LoadOp curIndent result memref indices
  | AffineStoreOp value memref exprs operands =>
      codegen_AffineStoreOp curIndent value memref exprs operands
  | AffineVectorLoadOp result memref exprs operands =>
      codegen_AffineVectorLoadOp curIndent result memref exprs operands
  | AffineVectorStoreOp value memref exprs operands =>
      codegen_AffineVectorStoreOp curIndent value memref exprs operands
  | BarrierOp => codegen_BarrierOp curIndent
  | ShuffleOp result value offset width mode =>
      codegen_ShuffleOp curIndent result value offset width mode
  | AffineIfOp constraints operands thenBody _ =>
      indent curIndent ;;;
      emit "if (" ;;;
      forM_ constraints (fun '(expr, isEq) =>
        let relation := if isEq : bool then "==" else ">=" in
        e <- codegen_AffineExpr expr operands ;;
        emit (e +:+ " " +:+ relation +:+ " 0 && ")) ;;;
      emit (" true) {" +:+ nl) ;;;
      forM_ thenBody (fun op' =>
        if ifBodyCase op' then codegen (curIndent + 1) op'
        else elseAssertYield op') ;;;
      indent curIndent ;;;
      emit ("}" +:+ nl)
  | AffineForOp inductionVar lb ub step loopAttr body =>
      iter <- getValueName inductionVar ;;
      (match loopAttr with
       | Some strAttr =>
           if String.eqb strAttr "unroll"
           then indent curIndent ;;; emit ("#pragma unroll" +:+ nl)
           else ret tt
       | None => ret tt
       end) ;;;
      indent curIndent ;;;
      emit ("for (int " +:+ iter +:+ " = " +:+ to_string lb +:+ "; "
            +:+ iter +:+ " < " +:+ to_string ub +:+ "; "
            +:+ iter +:+ " += " +:+ to_string step +:+ ") {" +:+ nl) ;;;
      forM_ body (fun op' =>
        if forBodyCase op' then codegen (curIndent + 1) op'
        else elseLogAssertYield op') ;;;
      indent curIndent ;;;
      emit ("}" +:+ nl)
  (* no chain passes these three classes to an overload of this group *)
  | AffineParallelOp _ _ | AffineYieldOp | OtherOp _ _ => ret tt
  end.

(** ** Naming pass *)

(** The two locals of [collectVars] that live across its walks. *)
Record Captures := mkCaptures {
  id : Z;
  outsidesVars : gmap Value Z }.

(** The body shared by the five walks over memory accesses. *)
Definition capture (mem : Value) (c : Captures) : M Captures :=
  named <- hasValueName mem ;;
  if named : bool then ret c
  else match outsidesVars c !! mem with
       | Some _ => ret c
       | None =>
           let c' := mkCaptures (id c + 1) (<[mem := id c]> (outsidesVars c)) in
           name <- getArgName ;;
           setValueName missingReturn mem name ;;;
           ret c'
       end.

(** [setValueName(result, prefix + std::to_string(counter++) + suffix)]. *)
Definition nameResult (prefix suffix : string) (counter : Z) (result : Value) : M Z :=
  setValueName missingReturn result (prefix +:+ to_string counter +:+ suffix) ;;;
  ret (counter + 1).

(** A pre-order walk whose callback names one result of the operations of
    one class. *)
Definition walkNames (select : Op -> option Value) (prefix suffix : string)
    (node : Op) (counter : Z) : M Z :=
  foldM (fun c op => match select op with
                     | Some result => nameResult prefix suffix c result
                     | None => ret c
                     end) counter (walk node).

(** A pre-order walk over the loads of one class: capture the memref, then
    name the result. *)
Definition walkLoads (select : Op -> option (Value * Value)) (prefix : string)
    (node : Op) (st : Captures * Z) : M (Captures * Z) :=
  foldM (fun st op => match select op with
                      | Some (mem, result) =>
                          c <- capture mem (fst st) ;;
                          n <- nameResult prefix "" (snd st) result ;;
                          ret (c, n)
                      | None => ret st
                      end) st (walk node).

(** A pre-order walk over the stores of one class: capture the memref. *)
Definition walkStores (select : Op -> option Value) (node : Op) (c : Captures)
    : M Captures :=
  foldM (fun c op => match select op with
                     | Some mem => capture mem c
                     | None => ret c
                     end) c (walk node).

Definition int3str : list string := ["x"; "y"; "z"].

(** The loop over the induction variables of one [affine.parallel]. *)
Fixpoint nameIVs (prefix : string) (size : nat) (operands : list Value) (i : nat)
    : M unit :=
  match operands with
  | [] => ret tt
  | v :: rest =>
      s <- vector_at int3str (Z.of_nat (size - i - 1)) ;;
      setValueName missingReturn v (prefix +:+ s) ;;;
      nameIVs prefix size rest (S i)
  end.

Definition nameParallel (prefix : string) (op : Op) : M unit :=
  match op with
  | AffineParallelOp IVs _ => nameIVs prefix (length IVs) IVs 0
  | _ => ret tt
  end.

Definition forInductionVar (op : Op) : option Value :=
  match op with AffineForOp iv _ _ _ _ _ => Some iv | _ => None end.
Definition applyResult (op : Op) : option Value :=
  match op with AffineApplyOp r _ _ => Some r | _ => None end.
Definition allocResult (op : Op) : option Value :=
  match op with AllocOp r => Some r | _ => None end.
Definition vectorLoadAccess (op : Op) : option (Value * Value) :=
  match op with AffineVectorLoadOp r mem _ _ => Some (mem, r) | _ => None end.
Definition affineLoadAccess (op : Op) : option (Value * Value) :=
  match op with AffineLoadOp r mem _ _ => Some (mem, r) | _ => None end.
Definition loadAccess (op : Op) : option (Value * Value) :=
  match op with LoadOp r mem _ => Some (mem, r) | _ => None end.
Definition affineStoreMemref (op : Op) : option Value :=
  match op with AffineStoreOp _ mem _ _ => Some mem | _ => None end.
Definition vectorStoreMemref (op : Op) : option Value :=
  match op with AffineVectorStoreOp _ mem _ _ => Some mem | _ => None end.
Definition constantIndexResult (op : Op) : option Value :=
  match op with ConstantIndexOp r _ => Some r | _ => None end.
Definition constantFloatResult (op : Op) : option Value :=
  match op with ConstantFloatOp r _ => Some r | _ => None end.
Definition constantIntResult (op : Op) : option Value :=
  match op with ConstantIntOp r _ => Some r | _ => None end.
Definition mulResult (op : Op) : option Value :=
  match op with MulFOp r _ _ => Some r | _ => None end.
Definition addResult (op : Op) : option Value :=
  match op with AddFOp r _ _ => Some r | _ => None end.
Definition maxResult (op : Op) : option Value :=
  match op with MaxFOp r _ _ => Some r | _ => None end.
Definition subResult (op : Op) : option Value :=
  match op with SubFOp r _ _ => Some r | _ => None end.
Definition divResult (op : Op) : option Value :=
  match op with DivFOp r _ _ => Some r | _ => None end.
Definition expResult (op : Op) : option Value :=
  match op with ExpOp r _ => Some r | _ => None end.
Definition powResult (op : Op) : option Value :=
  match op with PowFOp r _ _ => Some r | _ => None end.
Definition cmpResult (op : Op) : option Value :=
  match op with CmpFOp r _ _ _ => Some r | _ => None end.
Definition tanhResult (op : Op) : option Value :=
  match op with TanhOp r _ => Some r | _ => None end.
Definition sqrtResult (op : Op) : option Value :=
  match op with SqrtOp r _ => Some r | _ => None end.
Definition logResult (op : Op) : option Value :=
  match op with LogOp r _ => Some r | _ => None end.
Definition bitcastResult (op : Op) : option Value :=
  match op with BitcastOp r _ => Some r | _ => None end.
Definition shuffleResult (op : Op) : option Value :=
  match op with ShuffleOp r _ _ _ _ => Some r | _ => None end.

(** [std::map] hands out its entries in the order of its comparator, here
    the order of the handles' addresses; the enumeration is a parameter. *)
Variable iterate : gmap Value Z -> list (Value * Z).

(** [std::sort]: a permutation in which no element compares less than one
    before it. *)
Definition std_sort (cmp : Value -> Value -> bool) (l : list Value) : list Value :=
  @merge_sort Value (fun a b => cmp b a = false)
              (fun a b => decide (cmp b a = false)) l.

(** The comparator of the final sort; [operator[]] yields [0] for a key
    that is absent. *)
Definition cmp_outsidesVars (outsidesVars : gmap Value Z) (a b : Value) : bool :=
  default 0 (outsidesVars !! a) <? default 0 (outsidesVars !! b).

(** The five walks over memory accesses, in the order of the source. *)
Definition collectCaptures (node : Op) : M Captures :=
  st <- walkLoads vectorLoadAccess "vec" node (mkCaptures 0 ∅, 0) ;;
  st <- walkLoads affineLoadAccess "R" node (fst st, 0) ;;
  st <- walkLoads loadAccess "R" node st ;;
  c <- walkStores affineStoreMemref node (fst st) ;;
  walkStores vectorStoreMemref node c.

(** [parallelOp == node] holds for the first operation of the walk and for
    no other. *)
Definition collectVars (node : Op) : M (list Value) :=
  nameParallel "blockIdx." node ;;;
  forM_ (tail (walk node)) (nameParallel "threadIdx.") ;;;
  _ <- walkNames forInductionVar "iter" "" node 0 ;;
  _ <- walkNames applyResult "expr" "" node 0 ;;
  _ <- walkNames allocResult "array" "" node 0 ;;
  c <- collectCaptures node ;;
  constCounter <- walkNames constantIndexResult "const" "th" node 0 ;;
  constCounter <- walkNames constantFloatResult "const" "th" node constCounter ;;
  _ <- walkNames constantIntResult "const" "th" node constCounter ;;
  tempCounter <- walkNames mulResult "temp" "" node 0 ;;
  tempCounter <- walkNames addResult "temp" "" node tempCounter ;;
  tempCounter <- walkNames maxResult "temp" "" node tempCounter ;;
  tempCounter <- walkNames subResult "temp" "" node tempCounter ;;
  tempCounter <- walkNames divResult "temp" "" node tempCounter ;;
  tempCounter <- walkNames expResult "temp" "" node tempCounter ;;
  tempCounter <- walkNames powResult "temp" "" node tempCounter ;;
  tempCounter <- walkNames cmpResult "temp" "" node tempCounter ;;
  tempCounter <- walkNames tanhResult "temp" "" node tempCounter ;;
  tempCounter <- walkNames sqrtResult "temp" "" node tempCounter ;;
  tempCounter <- walkNames logResult "temp" "" node tempCounter ;;
  tempCounter <- walkNames bitcastResult "temp" "" node tempCounter ;;
  _ <- walkNames shuffleResult "temp" "" node tempCounter ;;
  let result := map fst (iterate (outsidesVars c)) in
  ret (std_sort (cmp_outsidesVars (outsidesVars c)) result).

(** ** Kernel extractor *)

Definition isParallel (op : Op) : bool :=
  match op with
  | AffineParallelOp _ _ => true
  | _ => false
  end.

(** The kernel prototype: one declaration per captured value. *)
Definition prototype (curIndent : Z) (outsideVars : list Value) : M unit :=
  indent curIndent ;;;
  name <- getKernelName ;;
  emit ("__global__ void " +:+ name +:+ "(") ;;;
  first <- vector_at outsideVars 0 ;;
  varDeclear first ;;;
  forM_ (tail outsideVars) (fun v => emit ", " ;;; varDeclear v) ;;;
  emit (") {" +:+ nl).

(** The loop over the block of the nested [affine.parallel]. *)
Definition innerBlock (curIndent : Z) (innerOps : list Op) : M unit :=
  forM_ innerOps (fun innerOp =>
    if innerParallelBodyCase innerOp then codegen curIndent innerOp
    else elseLogAssertYield innerOp).

(** The loop over the kernel's own block. *)
Definition kernelBlock (curIndent : Z) (ops : list Op) : M unit :=
  forM_ ops (fun op =>
    if parallelBodyCase op then codegen curIndent op
    else match op with
         | AffineParallelOp _ innerOps => innerBlock curIndent innerOps
         | _ => elseAssertYield op
         end).

Definition codegen_AffineParallelOp (curIndent : Z) (node : Op) : M unit :=
  outsideVars <- collectVars node ;;
  assert_ (bool_decide (length outsideVars ≠ 0%nat)) ;;;
  let gridDims := getParallelNumber node in
  let blockDims :=
    foldl (fun dims op => if isParallel op then getParallelNumber op else dims)
          [] (walk node) in
  indent curIndent ;;;
  emit "// grid dims:(" ;;;
  forM_ gridDims (fun dim => emit (to_string dim +:+ ", ")) ;;;
  emit (")" +:+ ", block dims:(") ;;;
  forM_ blockDims (fun dim => emit (to_string dim +:+ ", ")) ;;;
  emit (")" +:+ nl) ;;;
  prototype curIndent outsideVars ;;;
  match node with
  | AffineParallelOp _ ops => kernelBlock (curIndent + 1) ops
  | _ => ret tt
  end ;;;
  indent curIndent ;;;
  emit ("}" +:+ nl).

(** ** Module driver *)

Definition codegen_FuncOp (curIndent : Z) (funcOp : FuncOp) : M unit :=
  forM_ (funcBody funcOp) (fun kernel =>
    if isParallel kernel then codegen_AffineParallelOp curIndent kernel
    else ret tt).

(** A fresh generator has [curIndent = -1]; the walk over the module runs
    one level in. *)
Definition codegen_ModuleOp (module : ModuleOp) : M unit :=
  forM_ (functions module) (codegen_FuncOp (-1 + 1)).

(** [source.clear(); source.str("")]. *)
Definition clearSource : M unit :=
  fun g => Ok (tt, mkGlobals "" (errs g) (valueNameMap g)
                             (kernelCounter g) (varCounter g)).

(** The constructor of [CUDAGenerator]. *)
Definition CUDAGenerator : M unit :=
  fun g => Ok (tt, mkGlobals (source g) (errs g) ∅ 0 0).

Definition sourceStr : M string := fun g => Ok (source g, g).

Definition CUDAGen (module : ModuleOp) : M string :=
  clearSource ;;;
  emit ("#include " +:+ dquote +:+ "cuda_runtime.h" +:+ dquote +:+ nl) ;;;
  CUDAGenerator ;;;
  codegen_ModuleOp module ;;;
  text <- sourceStr ;;
  (if debugLog then log text else ret tt) ;;;
  ret text.

End Generator.

(** * Reference definitions

    The vocabulary in which the properties below are stated. *)

(** What [getValueName] returns under a given symbol table. *)
Definition nameOf (names : gmap Value string) (val : Value) : string :=
  default "false" (names !! val).

(** A state with the given symbol table and nothing else. *)
Definition blank (names : gmap Value string) : Globals :=
  mkGlobals "" [] names 0 0.

(** The text [codegen_AffineExpr] returns under a symbol table, if it
    returns. *)
Definition render (NDEBUG : bool) (names : gmap Value string)
    (operands : list Value) (expr : AffineExpr) : option string :=
  match codegen_AffineExpr NDEBUG expr operands (blank names) with
  | Ok (text, _) => Some text
  | Fault _ => None
  end.

(** The text [varDeclear] writes under a symbol table, if it returns. *)
Definition declaration (getType : Value -> Type_) (names : gmap Value string)
    (var : Value) : option string :=
  match varDeclear getType var (blank names) with
  | Ok (_, g) => Some (source g)
  | Fault _ => None
  end.

(** Row-major strides: the stride of a dimension is the product of the
    extents of the dimensions inside it. *)
Definition product (l : list Z) : Z := fold_right Z.mul 1 l.

Fixpoint row_major_strides (shape : list Z) : list Z :=
  match shape with
  | [] => []
  | _ :: inner => product inner :: row_major_strides inner
  end.

Definition fits_int (z : Z) : Prop := - 2 ^ 31 <= z <= INT_MAX.

(** The flat offset: one term [e * stride + ] per dimension, then [0]. *)
Fixpoint flat_terms (texts : list string) (strides : list Z) : string :=
  match texts, strides with
  | text :: texts', stride :: strides' =>
      text +:+ " * " +:+ to_string stride +:+ " + " +:+ flat_terms texts' strides'
  | _, _ => ""
  end.

Definition flat_offset (texts : list string) (strides : list Z) : string :=
  flat_terms texts strides +:+ "0".

Definition relation_text (isEq : bool) : string := if isEq then "==" else ">=".

(** The condition of an emitted [if]: every constraint followed by [ && ],
    then [ true]. *)
Fixpoint if_conjuncts (constraints : list (string * bool)) : string :=
  match constraints with
  | [] => ""
  | (text, isEq) :: rest =>
      text +:+ " " +:+ relation_text isEq +:+ " 0 && " +:+ if_conjuncts rest
  end.

Definition if_condition (constraints : list (string * bool)) : string :=
  if_conjuncts constraints +:+ " true".

(** The constraints joined with [ && ] and nothing else. *)
Definition conjunction (constraints : list (string * bool)) : string :=
  String.concat " && "
    (map (fun c => fst c +:+ " " +:+ relation_text (snd c) +:+ " 0") constraints).

(** ** The C expressions the evaluator writes *)

Inductive CBinOp := CAdd | CSub | CMul | CDiv | CMod.

Inductive CExpr :=
| CVar (name : string)
| CLit (value : Z)
| CBin (op : CBinOp) (l r : CExpr)
| CParen (e : CExpr).

Definition CBinOp_text (op : CBinOp) : string :=
  match op with
  | CAdd => " + "
  | CSub => " - "
  | CMul => " * "
  | CDiv => " / "
  | CMod => " % "
  end.

Fixpoint CExpr_text (c : CExpr) : string :=
  match c with
  | CVar name => name
  | CLit value => to_string value
  | CBin op l r => CExpr_text l +:+ CBinOp_text op +:+ CExpr_text r
  | CParen e => "(" +:+ CExpr_text e +:+ ")"
  end.

(** [z] as a value of type [int], when it is one. *)
Definition as_int (z : Z) : option Z :=
  if (- 2 ^ 31 <=? z) && (z <=? INT_MAX) then Some z else None.

(** Arithmetic of C on [int], the type of every index the generator
    declares: [/] truncates towards zero, [%] is its remainder, a zero
    divisor has no value, and neither has an operation whose result is no
    [int] (signed overflow is undefined).  Variables and literals are
    [int]s. *)
Fixpoint ceval (env : string -> Z) (c : CExpr) : option Z :=
  match c with
  | CVar name => as_int (env name)
  | CLit value => as_int value
  | CParen e => ceval env e
  | CBin op l r =>
      match ceval env l, ceval env r with
      | Some a, Some b =>
          match op with
          | CAdd => as_int (a + b)
          | CSub => as_int (a - b)
          | CMul => as_int (a * b)
          | CDiv => if b =? 0 then None else as_int (Z.quot a b)
          | CMod => if b =? 0 then None
                    else match as_int (Z.quot a b) with
                         | Some _ => Some (Z.rem a b)
                         | None => None
                         end
          end
      | _, _ => None
      end
  end.

(** The C expression whose text the evaluator returns for [expr]. *)
Fixpoint toC (names : gmap Value string) (operands : list Value) (expr : AffineExpr)
    : option CExpr :=
  match expr with
  | AffineDimExpr position => (fun v => CVar (nameOf names v)) <$> operands !! position
  | AffineSymbolExpr _ => None
  | AffineConstantExpr value => Some (CLit value)
  | AffineBinaryOpExpr kind lhs rhs =>
      match toC names operands lhs, toC names operands rhs with
      | Some l, Some r =>
          Some (match kind with
                | Add => CParen (CBin CAdd l r)
                | Mul => CParen (CBin CMul l r)
                | Mod => CParen (CBin CMod l r)
                | FloorDiv => CParen (CBin CDiv l r)
                | CeilDiv =>
                    CParen (CBin CDiv (CParen (CBin CSub (CBin CAdd l r) (CLit 1))) r)
                end)
      | _, _ => None
      end
  end.

(** [q] is the ceiling of [a / b], for a positive [b]. *)
Definition is_ceiling (a b q : Z) : Prop := b * (q - 1) < a <= b * q.

(** ** The naming pass, read as functions of the symbol table *)

(** [setValueName] on the symbol table: the first name stays. *)
Definition define (names : gmap Value string) (val : Value) (name : string)
    : gmap Value string :=
  match names !! val with
  | Some _ => names
  | None => <[val := name]> names
  end.

(** [x], [y], [z] counted from the last induction variable. *)
Definition dimension_letter (fromLast : nat) : string :=
  match fromLast with
  | 0%nat => "x"
  | 1%nat => "y"
  | _ => "z"
  end.

(** The names [nameIVs] asks for, in order. *)
Fixpoint IV_names (prefix : string) (size : nat) (operands : list Value) (i : nat)
    : list (Value * string) :=
  match operands with
  | [] => []
  | v :: rest =>
      (v, prefix +:+ dimension_letter (size - i - 1)) :: IV_names prefix size rest (S i)
  end.

Definition parallel_names (prefix : string) (op : Op) : list (Value * string) :=
  match op with
  | AffineParallelOp IVs _ => IV_names prefix (length IVs) IVs 0
  | _ => []
  end.

(** Every name the first walk asks for: block indices for the kernel,
    thread indices for the regions nested in it. *)
Definition index_names (node : Op) : list (Value * string) :=
  parallel_names "blockIdx." node
  ++ concat (map (parallel_names "threadIdx.") (tail (walk node))).

(** No [affine.parallel] of the kernel has more induction variables than
    [int3str] has entries. *)
Definition at_most_3d (node : Op) : Prop :=
  forall IVs body, AffineParallelOp IVs body ∈ walk node -> (length IVs <= 3)%nat.

(** The values named before the walks over memory accesses. *)
Definition named_before_accesses (node : Op) : list Value :=
  map fst (index_names node)
  ++ omap forInductionVar (walk node)
  ++ omap applyResult (walk node)
  ++ omap allocResult (walk node).

(** A memory access as the walks see it: the memref, and the result the
    walk names after it (loads only). *)
Definition loads_in (select : Op -> option (Value * Value)) (ops : list Op)
    : list (Value * option Value) :=
  omap (fun op => (fun p => (fst p, Some (snd p))) <$> select op) ops.

Definition stores_in (select : Op -> option Value) (ops : list Op)
    : list (Value * option Value) :=
  omap (fun op => (fun mem => (mem, None)) <$> select op) ops.

Definition loadsOf (select : Op -> option (Value * Value)) (node : Op)
    : list (Value * option Value) :=
  loads_in select (walk node).

Definition storesOf (select : Op -> option Value) (node : Op)
    : list (Value * option Value) :=
  stores_in select (walk node).

(** The accesses in the order [collectVars] visits them: five walks. *)
Definition accesses (node : Op) : list (Value * option Value) :=
  loadsOf vectorLoadAccess node
  ++ loadsOf affineLoadAccess node
  ++ loadsOf loadAccess node
  ++ storesOf affineStoreMemref node
  ++ storesOf vectorStoreMemref node.

Definition touched (accs : list (Value * option Value)) : gset Value :=
  list_to_set (map fst accs) ∪ list_to_set (omap snd accs).

(** First-encounter capture: a memref is captured when it is met without a
    name; it is named at once, and so is the result of a load. *)
Fixpoint scan (named : gset Value) (accs : list (Value * option Value)) : list Value :=
  match accs with
  | [] => []
  | (mem, res) :: rest =>
      let named' := touched [(mem, res)] ∪ named in
      if decide (mem ∈ named) then scan named' rest else mem :: scan named' rest
  end.

(** The order the specification describes: three categories, each walked
    once in pre-order. *)
Definition scalarLoadAccess (op : Op) : option (Value * Value) :=
  match op with
  | AffineLoadOp r mem _ _ | LoadOp r mem _ => Some (mem, r)
  | _ => None
  end.

Definition storeMemref (op : Op) : option Value :=
  match op with
  | AffineStoreOp _ mem _ _ | AffineVectorStoreOp _ mem _ _ => Some mem
  | _ => None
  end.

Definition accesses_by_category (node : Op) : list (Value * option Value) :=
  loadsOf vectorLoadAccess node
  ++ loadsOf scalarLoadAccess node
  ++ storesOf storeMemref node.

(** [iterate] enumerates the entries of the map, in whatever order. *)
Definition enumerates (iterate : gmap Value Z -> list (Value * Z)) : Prop :=
  forall m, iterate m ≡ₚ map_to_list m.

(** What a caller of a generation function observes: the value returned, or
    the failure. *)
Definition returned {A} (o : outcome (A * Globals)) : outcome A :=
  match o with
  | Ok (a, _) => Ok a
  | Fault f => Fault f
  end.

(** The loops over the block of an [affine.if] and of an [affine.for], as
    [codegen] runs them (see [codegen_AffineIfOp_eq], [codegen_AffineForOp_eq]). *)
Definition ifBlock (NDEBUG : bool) (getType : Value -> Type_) (curIndent : Z)
    (thenBody : list Op) : M unit :=
  forM_ thenBody (fun op' =>
    if ifBodyCase op' then codegen NDEBUG getType (curIndent + 1) op'
    else elseAssertYield NDEBUG op').

Definition forBlock (NDEBUG : bool) (getType : Value -> Type_) (curIndent : Z)
    (body : list Op) : M unit :=
  forM_ body (fun op' =>
    if forBodyCase op' then codegen NDEBUG getType (curIndent + 1) op'
    else elseLogAssertYield NDEBUG op').

(** [llvm::errs() << s] seen from the state. *)
Definition logged (s : string) (g : Globals) : Globals :=
  mkGlobals (source g) (errs g ++ [s]) (valueNameMap g) (kernelCounter g) (varCounter g).

(** ** Relations between states, for the proofs *)

(** [preserves R c]: whenever [c] returns, the final state is related to
    the initial one by [R]. *)
Definition preserves (R : Globals -> Globals -> Prop) {A} (c : M A) : Prop :=
  forall g a g', c g = Ok (a, g') -> R g g'.

(** [returns_alike c1 c2]: whenever [c1] returns, [c2] returns the same
    value in the same state. *)
Definition returns_alike {A} (c1 c2 : M A) : Prop :=
  forall g r, c1 g = Ok r -> c2 g = Ok r.

(** Everything but the diagnostic stream is unchanged. *)
Definition quiet (g g' : Globals) : Prop :=
  source g' = source g /\ valueNameMap g' = valueNameMap g /\
  kernelCounter g' = kernelCounter g /\ varCounter g' = varCounter g.

Definition children (op : Op) : list Op :=
  match op with
  | AffineIfOp _ _ thenBody elseBody => thenBody ++ elseBody
  | AffineForOp _ _ _ _ _ body => body
  | AffineParallelOp _ body => body
  | OtherOp _ body => body
  | _ => []
  end.

(** Two runs that agree on the symbol table.

    [sim strict c1 c2]: started in states with the same symbol table (and,
    when [strict], the same counters), whatever the text written so far
    and the diagnostics, [c1] and [c2] fail alike or return the same
    value, append the same text and agree again. *)

Definition agree (strict : bool) (g1 g2 : Globals) : Prop :=
  valueNameMap g1 = valueNameMap g2 /\
  (strict = true ->
   kernelCounter g1 = kernelCounter g2 /\ varCounter g1 = varCounter g2).

Definition sim_outcome {A} (strict : bool) (g1 g2 : Globals)
    (o1 o2 : outcome (A * Globals)) : Prop :=
  match o1, o2 with
  | Ok (a1, g1'), Ok (a2, g2') =>
      a1 = a2 /\ agree strict g1' g2' /\
      exists text, source g1' = source g1 +:+ text /\ source g2' = source g2 +:+ text
  | Fault f1, Fault f2 => f1 = f2
  | _, _ => False
  end.

Definition sim {A} (strict : bool) (c1 c2 : M A) : Prop :=
  forall g1 g2, agree strict g1 g2 -> sim_outcome strict g1 g2 (c1 g1) (c2 g2).

(** The state after a run that only appended [text]. *)
Definition wrote (text : string) (g g' : Globals) : Prop :=
  source g' = source g +:+ text /\ valueNameMap g' = valueNameMap g /\
  kernelCounter g' = kernelCounter g /\ varCounter g' = varCounter g.

Definition define_all (names : gmap Value string) (l : list (Value * string))
    : gmap Value string :=
  foldl (fun m p => define m (fst p) (snd p)) names l.

(** [order] lists the captured values by their [id]. *)
Definition captured_in (order : list Value) (c : Captures) (named : gset Value) : Prop :=
  (forall v i, outsidesVars c !! v = Some i <->
               0 <= i /\ order !! Z.to_nat i = Some v) /\
  id c = Z.of_nat (length order) /\
  NoDup order /\
  (forall v, v ∈ order -> v ∈ named).

Definition id_of (outsidesVars : gmap Value Z) (v : Value) : Z :=
  default 0 (outsidesVars !! v).

(** The symbol table and the counters are unchanged. *)
Definition same_tables (g g' : Globals) : Prop :=
  valueNameMap g' = valueNameMap g /\ kernelCounter g' = kernelCounter g /\
  varCounter g' = varCounter g.

(** * Example inputs *)

Definition vA : Value := 1.
Definition vB : Value := 2.
Definition vBig : Value := 3.
Definition vShared : Value := 4.
Definition vC : Value := 5.
Definition vI : Value := 10.
Definition vJ : Value := 11.
Definition vK : Value := 12.
Definition vBx : Value := 20.
Definition vBy : Value := 21.
Definition vBz : Value := 22.
Definition vBw : Value := 25.
Definition vTx : Value := 23.
Definition vTy : Value := 24.
Definition vR : Value := 30.
Definition vR2 : Value := 31.
Definition vT : Value := 32.
Definition vVec : Value := 33.
Definition vE : Value := 34.

Definition ex_getType (v : Value) : Type_ :=
  if decide (v = vA) then MemRefType Float32Type [4; 3; 2] global
  else if decide (v = vB) then MemRefType Float32Type [8] global
  else if decide (v = vC) then MemRefType Float32Type [8] global
  else if decide (v = vBig) then MemRefType Float32Type [2; 65536; 65536] global
  else if decide (v = vShared) then MemRefType Float32Type [8] shared
  else if decide (v = vVec) then VectorType Float32Type [4]
  else if decide (v = vE) then IndexType
  else Float32Type.

Definition ex_getParallelNumber (op : Op) : list Z :=
  match op with
  | AffineParallelOp IVs _ => map (fun _ => 8) IVs
  | _ => []
  end.

(** A symbol table with names for [i], [j], [k], two arguments, a loaded
    value and the result of an [affine.apply]. *)
Definition ex_names : gmap Value string :=
  <[vI := "i"]> (<[vJ := "j"]> (<[vK := "k"]>
    (<[vA := "arg0"]> (<[vBig := "arg1"]> (<[vR := "R0"]> (<[vE := "expr0"]> ∅)))))).

Definition ex_state : Globals := mkGlobals "" [] ex_names 0 2.

Definition ex_ijk : list AffineExpr :=
  [AffineDimExpr 0; AffineDimExpr 1; AffineDimExpr 2].

(** [i - 2 == 0] and [j >= 0]: the set [(d0, d1) : (d0 - 2 == 0, d1 >= 0)]. *)
Definition ex_constraints : list (AffineExpr * bool) :=
  [(AffineBinaryOpExpr Add (AffineDimExpr 0) (AffineConstantExpr (-2)), true);
   (AffineDimExpr 1, false)].

Definition ex_if : Op := AffineIfOp ex_constraints [vI; vJ] [] [].

(** One block dimension, one thread dimension; a scalar load, an add and a
    store on global memrefs of shape [8]. *)
Definition ex_kernel : Op :=
  AffineParallelOp [vBx]
    [AffineParallelOp [vTx]
       [AffineLoadOp vR vB [AffineDimExpr 0] [vTx];
        AddFOp vT vR vR;
        AffineStoreOp vT vC [AffineDimExpr 0] [vTx];
        AffineYieldOp];
     AffineYieldOp].

Definition ex_module : ModuleOp := {| functions := [ {| funcBody := [ex_kernel] |} ] |}.

(** Three block dimensions and two thread dimensions. *)
Definition ex_kernel_3d : Op :=
  AffineParallelOp [vBz; vBy; vBx]
    [AffineParallelOp [vTy; vTx]
       [AffineStoreOp vT vB [AffineDimExpr 0] [vTx]; AffineYieldOp];
     AffineYieldOp].

(** Four block dimensions. *)
Definition ex_kernel_4d : Op :=
  AffineParallelOp [vBw; vBz; vBy; vBx] [AffineYieldOp].

(** A vector load from [vB], then a scalar load from [vA]. *)
Definition ex_kernel_vector_then_scalar : Op :=
  AffineParallelOp [vBx]
    [AffineParallelOp [vTx]
       [AffineLoadOp vR vA ex_ijk [vTx; vTx; vTx];
        AffineVectorLoadOp vVec vB [AffineDimExpr 0] [vTx];
        AffineYieldOp];
     AffineYieldOp].

(** A [memref.load] from [vB], then an [affine.load] from [vA]. *)
Definition ex_kernel_plain_then_affine : Op :=
  AffineParallelOp [vBx]
    [AffineParallelOp [vTx]
       [LoadOp vR vB [vTx];
        AffineLoadOp vR2 vA ex_ijk [vTx; vTx; vTx];
        AffineYieldOp];
     AffineYieldOp].

(** An allocation in the kernel, stored to and loaded from. *)
Definition ex_kernel_alloc : Op :=
  AffineParallelOp [vBx]
    [AllocOp vShared;
     AffineParallelOp [vTx]
       [AffineLoadOp vR vB [AffineDimExpr 0] [vTx];
        AffineStoreOp vR vShared [AffineDimExpr 0] [vTx];
        AffineYieldOp];
     AffineYieldOp].

Definition ex_apply : Op := AffineApplyOp vE [AffineDimExpr 0] [vI].

Definition ex_other : Op := OtherOp "arith.addi" [].

Definition ex_for (body : list Op) : Op := AffineForOp vI 0 8 1 None body.

(** A second enumeration of a map: the first one backwards. *)
Definition ex_iterate_backwards (m : gmap Value Z) : list (Value * Z) :=
  reverse (map_to_list m).

(** The text the generator is expected to return for [ex_module]. *)
Definition ex_module_text : string :=
  "#include " +:+ dquote +:+ "cuda_runtime.h" +:+ dquote +:+ nl
  +:+ "// grid dims:(8, ), block dims:(8, )" +:+ nl
  +:+ "__global__ void kernel0(float* arg0, float* arg1) {" +:+ nl
  +:+ "  auto R0 = arg0[threadIdx.x * 1 + 0];" +:+ nl
  +:+ "  auto temp0 = R0 + R0;" +:+ nl
  +:+ "  arg1[threadIdx.x * 1 + 0] = temp0;" +:+ nl
  +:+ "}" +:+ nl.


(** * The rest of the translation unit, and the vocabulary for its properties *)

(** ** The comparator of the two maps keyed by values *)

(** [Value::getAsOpaquePointer]: the handle read as an address. *)
Definition getAsOpaquePointer (x : Value) : Z := Z.pos x.

(** [CompareValue::operator()]. *)
Definition CompareValue (x y : Value) : Z :=
  if decide (x = y) then 0
  else if getAsOpaquePointer y <=? getAsOpaquePointer x then 0
  else 1.

(** ** States after one step *)

(** [source << s] seen from the state. *)
Definition emitted (s : string) (g : Globals) : Globals :=
  mkGlobals (source g +:+ s) (errs g) (valueNameMap g) (kernelCounter g) (varCounter g).

(** [getValueName] seen from the state: a value without a name is
    reported. *)
Definition looked_up (val : Value) (g : Globals) : Globals :=
  match valueNameMap g !! val with
  | Some _ => g
  | None => logged ("value not exists" +:+ nl) g
  end.

(** A run that only appended to the text and to the diagnostics. *)
Definition appended (g g' : Globals) : Prop :=
  same_tables g g' /\
  (exists text, source g' = source g +:+ text) /\
  (exists msgs, errs g' = errs g ++ msgs).

(** A run that only added names: no text, no counter, no name changed. *)
Definition named_more (g g' : Globals) : Prop :=
  source g' = source g /\ kernelCounter g' = kernelCounter g /\
  varCounter g' = varCounter g /\ valueNameMap g ⊆ valueNameMap g'.

(** ** Texts *)

(** One bracket per text. *)
Definition brackets (texts : list string) : string :=
  fold_right (fun text rest => "[" +:+ text +:+ "]" +:+ rest) "" texts.

(** The declaration of a memref named [name]. *)
Definition declaration_text (elementText name : string) (dims : list Z)
    (memorySpace : MemorySpace) : string :=
  match memorySpace with
  | global => elementText +:+ "* " +:+ name
  | shared => "__shared__ " +:+ elementText +:+ " " +:+ name
              +:+ brackets (map to_string dims)
  | local => elementText +:+ " " +:+ name +:+ brackets (map to_string dims)
  end.

(** The expressions the evaluator returns a text for: no symbol, every
    dimension among the operands. *)
Fixpoint renderable (operands : list Value) (expr : AffineExpr) : bool :=
  match expr with
  | AffineDimExpr position => bool_decide (position < length operands)%nat
  | AffineSymbolExpr _ => false
  | AffineConstantExpr _ => true
  | AffineBinaryOpExpr _ lhs rhs => renderable operands lhs && renderable operands rhs
  end.

(** The text [subscript] returns under a symbol table, if it returns. *)
Definition subscript_text (NDEBUG : bool) (getType : Value -> Type_)
    (names : gmap Value string) (memref : Value) (exprs : list AffineExpr)
    (operands : list Value) : option string :=
  match subscript NDEBUG getType memref exprs operands (blank names) with
  | Ok (text, _) => Some text
  | Fault _ => None
  end.

(** The identity map of [memref.load]: one dimension per index. *)
Definition identity_map (n : nat) : list AffineExpr := map AffineDimExpr (seq 0 n).

(** The number of [float]s that hold a vector of [vecLen] elements of a
    floating-point type: two [half_t] to a [float], two [float]s to a
    [double]. *)
Definition floats_in (eleT : Type_) (vecLen : Z) : option Z :=
  match eleT with
  | Float16Type => Some (Z.quot vecLen 2)
  | Float32Type => Some vecLen
  | Float64Type => Some (2 * vecLen)
  | _ => None
  end.

(** ** The naming pass, class by class *)

(** The names a walk with one counter asks for: the results in the order
    of the walk, numbered from [counter]. *)
Fixpoint numbered (prefix suffix : string) (counter : Z) (results : list Value)
    : list (Value * string) :=
  match results with
  | [] => []
  | v :: rest =>
      (v, prefix +:+ to_string counter +:+ suffix)
      :: numbered prefix suffix (counter + 1) rest
  end.

(** The loops, the [affine.apply]s and the allocations of a kernel, each in
    pre-order. *)
Definition loops (node : Op) : list Value := omap forInductionVar (walk node).
Definition applications (node : Op) : list Value := omap applyResult (walk node).
Definition allocations (node : Op) : list Value := omap allocResult (walk node).

(** The constants in the order of the three walks that share
    [constCounter]: index constants, then floating-point constants, then
    integer constants. *)
Definition constants (node : Op) : list Value :=
  omap constantIndexResult (walk node)
  ++ omap constantFloatResult (walk node)
  ++ omap constantIntResult (walk node).

(** The results in the order of the thirteen walks that share
    [tempCounter]. *)
Definition temporaries (node : Op) : list Value :=
  omap mulResult (walk node) ++ omap addResult (walk node)
  ++ omap maxResult (walk node) ++ omap subResult (walk node)
  ++ omap divResult (walk node) ++ omap expResult (walk node)
  ++ omap powResult (walk node) ++ omap cmpResult (walk node)
  ++ omap tanhResult (walk node) ++ omap sqrtResult (walk node)
  ++ omap logResult (walk node) ++ omap bitcastResult (walk node)
  ++ omap shuffleResult (walk node).

(** The results of the vector loads, and of the scalar loads in the order
    of the two walks that share [regLoadCounter]: [affine.load]s, then
    [memref.load]s. *)
Definition vectors (node : Op) : list Value :=
  omap snd (loadsOf vectorLoadAccess node).
Definition registers (node : Op) : list Value :=
  omap snd (loadsOf affineLoadAccess node) ++ omap snd (loadsOf loadAccess node).

(** The names asked for before the walks over memory accesses, and after
    them. *)
Definition names_before_accesses (node : Op) : list (Value * string) :=
  index_names node
  ++ numbered "iter" "" 0 (loops node)
  ++ numbered "expr" "" 0 (applications node)
  ++ numbered "array" "" 0 (allocations node).

Definition names_after_accesses (node : Op) : list (Value * string) :=
  numbered "const" "th" 0 (constants node) ++ numbered "temp" "" 0 (temporaries node).

(** The captured values are named [arg] with the numbers from [n0] on. *)
Definition args_named (n0 : Z) (order : list Value) (g : Globals) : Prop :=
  varCounter g = n0 + Z.of_nat (length order) /\
  forall (i : nat) v,
    order !! i = Some v ->
    valueNameMap g !! v = Some ("arg" +:+ to_string (n0 + Z.of_nat i)).

(** A run of the naming pass: no text, no kernel number, no name changed
    or removed. *)
Definition naming (g g' : Globals) : Prop :=
  source g' = source g /\ kernelCounter g' = kernelCounter g /\
  valueNameMap g ⊆ valueNameMap g' /\ varCounter g <= varCounter g'.

(** ** Kernels *)

(** The dimensions of the annotation: each followed by a comma. *)
Definition dims_text (dims : list Z) : string :=
  fold_right (fun dim rest => to_string dim +:+ ", " +:+ rest) "" dims.


(** The kernels of a function and of a module. *)
Definition kernels_of (funcOp : FuncOp) : list Op :=
  filter (fun op => isParallel op = true) (funcBody funcOp).

Definition kernels (module : ModuleOp) : list Op :=
  concat (map kernels_of (functions module)).

(** The first line of every generated text. *)
Definition include_line : string :=
  "#include " +:+ dquote +:+ "cuda_runtime.h" +:+ dquote +:+ nl.

(** A run of the generator on a kernel, a function or a module: the text is
    extended, names are added, the counters do not go down. *)
Definition generated (g g' : Globals) : Prop :=
  (exists text, source g' = source g +:+ text) /\
  valueNameMap g ⊆ valueNameMap g' /\
  kernelCounter g <= kernelCounter g' /\
  varCounter g <= varCounter g'.

(** ** The input the generator returns for *)

(** A computation that returns from every state. *)
Definition returns {A} (c : M A) : Prop := forall g, exists a g', c g = Ok (a, g').








(** * Further example inputs *)

Definition vT2 : Value := 35.
Definition vC0 : Value := 36.
Definition vF : Value := 37.

(** The state a run leaves, or [g] when it does not return. *)
Definition final {A} (o : outcome (A * Globals)) (g : Globals) : Globals :=
  match o with
  | Ok (_, g') => g'
  | Fault _ => g
  end.

(** [ex_names] with names for an allocation, a vector and a product. *)
Definition ex_names_more : gmap Value string :=
  <[vShared := "array0"]> (<[vVec := "vec0"]> (<[vT := "temp0"]> ex_names)).

Definition ex_state_more : Globals := mkGlobals "" [] ex_names_more 0 2.

(** A kernel with an allocation, constants, a loop, an [affine.apply], a
    [memref.load] before an [affine.load], a sum before a product, and a
    store. *)
Definition ex_kernel_loop : Op :=
  AffineParallelOp [vBx]
    [AllocOp vShared;
     ConstantIndexOp vC0 4;
     AffineParallelOp [vTx]
       [ConstantFloatOp vF "1.5";
        AffineForOp vI 0 8 1 (Some "unroll")
          [AffineApplyOp vE [AffineDimExpr 0] [vI];
           LoadOp vR2 vShared [vI];
           AffineLoadOp vR vB [AffineDimExpr 0] [vE];
           AddFOp vT2 vR vR2;
           MulFOp vT vT2 vF;
           AffineStoreOp vT vC [AffineDimExpr 0] [vE];
           AffineYieldOp];
        AffineYieldOp];
     AffineYieldOp].

(** A kernel whose only store is in the else-region of an [affine.if]. *)
Definition ex_else_store : Op := AffineStoreOp vT vC [AffineDimExpr 0] [vTx].

Definition ex_if_else : Op :=
  AffineIfOp [(AffineDimExpr 0, false)] [vTx] [AffineYieldOp] [ex_else_store; AffineYieldOp].

Definition ex_kernel_else : Op :=
  AffineParallelOp [vBx]
    [AffineParallelOp [vTx] [ex_if_else; AffineYieldOp];
     AffineYieldOp].

(** A kernel that only touches its own allocation. *)
Definition ex_kernel_own : Op :=
  AffineParallelOp [vBx]
    [AllocOp vShared;
     AffineParallelOp [vTx]
       [AffineStoreOp vT vShared [AffineDimExpr 0] [vTx]; AffineYieldOp];
     AffineYieldOp].

(** A module whose function holds no kernel. *)
Definition ex_module_without_kernel : ModuleOp :=
  {| functions := [ {| funcBody := [ex_other] |} ] |}.


(** * Properties *)

(** ** Reasoning about computations *)

Lemma bind_Ok {A B} (c : M A) (k : A -> M B) g a g' :
  c g = Ok (a, g') -> bind c k g = k a g'.
Proof. intros H. unfold bind. now rewrite H. Qed.

Lemma bind_inv {A B} (c : M A) (k : A -> M B) g b g' :
  bind c k g = Ok (b, g') ->
  exists a g1, c g = Ok (a, g1) /\ k a g1 = Ok (b, g').
Proof.
  unfold bind. destruct (c g) as [[a g1]|f]; [|discriminate].
  intros H. exists a, g1. split; [reflexivity|exact H].
Qed.

Lemma forM_cons {A} (x : A) l (f : A -> M unit) :
  forM_ (x :: l) f = (f x ;;; forM_ l f).
Proof. reflexivity. Qed.

Lemma foldM_cons {A S} (f : S -> A -> M S) s x l :
  foldM f s (x :: l) = (s' <- f s x ;; foldM f s' l).
Proof. reflexivity. Qed.

(** *** Invariants of a run *)

Section Preserves.

Variable R : Globals -> Globals -> Prop.
Hypothesis R_refl : forall g, R g g.
Hypothesis R_trans : forall g1 g2 g3, R g1 g2 -> R g2 g3 -> R g1 g3.

Lemma preserves_ret {A} (a : A) : preserves R (ret a).
Proof using R_refl. intros g a' g' [= _ <-]. apply R_refl. Qed.

Lemma preserves_fail {A} f : preserves R (@fail A f).
Proof. intros g a g' [=]. Qed.

Lemma preserves_bind {A B} (c : M A) (k : A -> M B) :
  preserves R c -> (forall a, preserves R (k a)) -> preserves R (bind c k).
Proof using R_trans.
  intros Hc Hk g b g' H. apply bind_inv in H as (a & g1 & H1 & H2).
  eapply R_trans; [eapply Hc, H1 | eapply Hk, H2].
Qed.

Lemma preserves_forM {A} (l : list A) (f : A -> M unit) :
  (forall x, x ∈ l -> preserves R (f x)) -> preserves R (forM_ l f).
Proof using R_refl R_trans.
  induction l as [|x l IH]; intros Hf.
  - apply preserves_ret.
  - rewrite forM_cons. apply preserves_bind.
    + apply Hf. left.
    + intros _. apply IH. intros y Hy. apply Hf. now right.
Qed.

End Preserves.

Lemma quiet_refl g : quiet g g.
Proof. now repeat split. Qed.

Lemma quiet_trans g1 g2 g3 : quiet g1 g2 -> quiet g2 g3 -> quiet g1 g3.
Proof.
  intros (a1 & b1 & c1 & d1) (a2 & b2 & c2 & d2).
  repeat split; congruence.
Qed.

Create HintDb quiet_db.

Ltac quiet_step :=
  first
    [ apply preserves_ret; exact quiet_refl
    | apply preserves_fail
    | apply preserves_bind; [exact quiet_trans | | intros ? ]
    | solve [eauto with quiet_db] ].

Lemma quiet_log s : preserves quiet (log s).
Proof. intros g a g' [= _ <-]. now repeat split. Qed.

Lemma quiet_getValueName v : preserves quiet (getValueName v).
Proof.
  intros g a g'. unfold getValueName.
  destruct (valueNameMap g !! v); intros [= _ <-]; now repeat split.
Qed.

Lemma quiet_hasValueName v : preserves quiet (hasValueName v).
Proof. intros g a g' [= _ <-]. apply quiet_refl. Qed.

Lemma quiet_assert NDEBUG c : preserves quiet (assert_ NDEBUG c).
Proof.
  unfold assert_. destruct NDEBUG; [|destruct c]; repeat quiet_step.
Qed.

#[export] Hint Resolve quiet_log quiet_getValueName quiet_hasValueName quiet_assert
  : quiet_db.

Lemma quiet_at {A} NDEBUG (l : list A) i : preserves quiet (at_ NDEBUG l i).
Proof. unfold at_. destruct (l !! i); repeat quiet_step. Qed.

Lemma quiet_vector_at {A} (l : list A) i : preserves quiet (vector_at l i).
Proof.
  unfold vector_at. destruct (i <? 0); [|destruct (l !! Z.to_nat i)];
    repeat quiet_step.
Qed.

#[export] Hint Resolve quiet_at quiet_vector_at : quiet_db.

Lemma quiet_codegen_AffineExpr NDEBUG expr operands :
  preserves quiet (codegen_AffineExpr NDEBUG expr operands).
Proof.
  induction expr as [p|p|v|kind l IHl r IHr]; simpl.
  - repeat quiet_step.
  - repeat quiet_step.
  - destruct (10240 <=? v); repeat quiet_step.
  - apply preserves_bind; [exact quiet_trans|exact IHl|intros lhs].
    apply preserves_bind; [exact quiet_trans|exact IHr|intros rhs].
    destruct kind; repeat quiet_step.
Qed.

#[export] Hint Resolve quiet_codegen_AffineExpr : quiet_db.

(** What the two operations of the symbol table return. *)

Lemma getValueName_run v g :
  exists g', getValueName v g = Ok (nameOf (valueNameMap g) v, g') /\ quiet g g'.
Proof.
  unfold getValueName, nameOf. destruct (valueNameMap g !! v); simpl.
  - exists g. split; [reflexivity|apply quiet_refl].
  - eexists. split; [reflexivity|]. now repeat split.
Qed.

Lemma append_nil_r (s : string) : s +:+ "" = s.
Proof.
  induction s as [|a s IH]; [reflexivity|].
  change (String a (s +:+ "") = String a s). now rewrite IH.
Qed.

Lemma append_assoc (s1 s2 s3 : string) : (s1 +:+ s2) +:+ s3 = s1 +:+ (s2 +:+ s3).
Proof.
  induction s1 as [|a s1 IH]; [reflexivity|].
  change (String a ((s1 +:+ s2) +:+ s3) = String a (s1 +:+ (s2 +:+ s3))).
  now rewrite IH.
Qed.

Lemma at_inv {A} NDEBUG (l : list A) i g x g' :
  at_ NDEBUG l i g = Ok (x, g') -> l !! i = Some x /\ g' = g.
Proof.
  unfold at_. destruct (l !! i) as [y|].
  - intros [= <- <-]. now split.
  - unfold bind, assert_, ret, fail. destruct NDEBUG; discriminate.
Qed.

(** ** The evaluator writes the C expression [toC] *)

Lemma codegen_AffineExpr_toC NDEBUG expr operands :
  forall g text g',
    codegen_AffineExpr NDEBUG expr operands g = Ok (text, g') ->
    exists c, toC (valueNameMap g) operands expr = Some c /\ CExpr_text c = text.
Proof.
  induction expr as [p|p|v|kind l IHl r IHr]; intros g text g' H; simpl in *.
  - apply bind_inv in H as (v & g1 & H1 & H2).
    apply at_inv in H1 as [Hv ->].
    destruct (getValueName_run v g) as (g2 & Hrun & _).
    rewrite Hrun in H2. injection H2 as <- _.
    rewrite Hv. simpl. eexists. split; reflexivity.
  - apply bind_inv in H as (v & g1 & _ & H2). discriminate.
  - exists (CLit v). split; [reflexivity|].
    destruct (10240 <=? v); injection H as <- _; simpl;
      rewrite ?append_nil_r; reflexivity.
  - apply bind_inv in H as (lhs & g1 & H1 & H).
    apply bind_inv in H as (rhs & g2 & H2 & H).
    pose proof (quiet_codegen_AffineExpr _ _ _ _ _ _ H1) as (_ & Hn & _).
    destruct (IHl _ _ _ H1) as (cl & Hl & <-).
    destruct (IHr _ _ _ H2) as (cr & Hr & <-).
    rewrite Hn in Hr. rewrite Hl, Hr.
    eexists. split; [reflexivity|].
    destruct kind; injection H as <- _; cbn [CExpr_text CBinOp_text];
      rewrite ?append_assoc; reflexivity.
Qed.

Lemma quot_is_ceiling a b : 0 <= a -> 0 < b -> is_ceiling a b (Z.quot (a + b - 1) b).
Proof.
  intros Ha Hb. unfold is_ceiling.
  rewrite Z.quot_div_nonneg by lia.
  pose proof (Z.div_mod (a + b - 1) b ltac:(lia)) as Hdm.
  pose proof (Z.mod_pos_bound (a + b - 1) b Hb) as Hm.
  nia.
Qed.

(** [int] values. *)
Lemma as_int_Some z : fits_int z -> as_int z = Some z.
Proof.
  unfold fits_int, as_int. intros [H1 H2].
  destruct (Z.leb_spec (- 2 ^ 31) z), (Z.leb_spec z INT_MAX); try lia. reflexivity.
Qed.

Lemma as_int_None z : ~ fits_int z -> as_int z = None.
Proof.
  unfold fits_int, as_int. intros H.
  destruct (Z.leb_spec (- 2 ^ 31) z), (Z.leb_spec z INT_MAX); try reflexivity. lia.
Qed.

Lemma as_int_inv z v : as_int z = Some v -> v = z /\ fits_int z.
Proof.
  unfold fits_int, as_int.
  destruct (Z.leb_spec (- 2 ^ 31) z), (Z.leb_spec z INT_MAX); try discriminate.
  intros [= <-]. auto.
Qed.

Lemma ceval_fits env c : forall v, ceval env c = Some v -> fits_int v.
Proof.
  induction c as [name|value|op l IHl r IHr|e IH]; intros v H; simpl in H.
  - apply as_int_inv in H as [-> H]. exact H.
  - apply as_int_inv in H as [-> H]. exact H.
  - destruct (ceval env l) as [a|]; [|discriminate].
    destruct (ceval env r) as [b|]; [|discriminate].
    specialize (IHl a eq_refl). specialize (IHr b eq_refl).
    destruct op.
    + apply as_int_inv in H as [-> H]. exact H.
    + apply as_int_inv in H as [-> H]. exact H.
    + apply as_int_inv in H as [-> H]. exact H.
    + destruct (b =? 0); [discriminate|]. apply as_int_inv in H as [-> H]. exact H.
    + destruct (Z.eqb_spec b 0) as [|Hb]; [discriminate|].
      destruct (as_int (a `quot` b)) eqn:Hq; [|discriminate].
      injection H as <-. unfold fits_int, INT_MAX in *.
      pose proof (Z.rem_bound_abs a b Hb). lia.
  - now apply IH.
Qed.

(** C3 (amended).  For a [CeilDiv] whose operands render as [L] and [R],
    the evaluator returns [((L + R - 1) / R)]; read as a C expression on
    [int], with [/] truncating, its value on a non-negative left operand
    and a positive right operand is the ceiling of their quotient as long
    as the sum of the operands is an [int]; when the sum is not, the
    addition overflows and the expression has no value. *)
Theorem CeilDiv_renders_ceiling NDEBUG operands lhs rhs L R g g1 g2 :
  codegen_AffineExpr NDEBUG lhs operands g = Ok (L, g1) ->
  codegen_AffineExpr NDEBUG rhs operands g1 = Ok (R, g2) ->
  codegen_AffineExpr NDEBUG (AffineBinaryOpExpr CeilDiv lhs rhs) operands g
    = Ok ("((" +:+ L +:+ " + " +:+ R +:+ " - 1) / " +:+ R +:+ ")", g2)
  /\ exists cl cr c,
       toC (valueNameMap g) operands lhs = Some cl /\ CExpr_text cl = L /\
       toC (valueNameMap g) operands rhs = Some cr /\ CExpr_text cr = R /\
       toC (valueNameMap g) operands (AffineBinaryOpExpr CeilDiv lhs rhs) = Some c /\
       CExpr_text c = "((" +:+ L +:+ " + " +:+ R +:+ " - 1) / " +:+ R +:+ ")" /\
       forall env a b,
         ceval env cl = Some a -> ceval env cr = Some b -> 0 <= a -> 0 < b ->
         (a + b <= INT_MAX -> exists q, ceval env c = Some q /\ is_ceiling a b q) /\
         (INT_MAX < a + b -> ceval env c = None).
Proof.
  intros Hl Hr. split.
  - simpl. rewrite (bind_Ok _ _ _ _ _ Hl), (bind_Ok _ _ _ _ _ Hr).
    reflexivity.
  - pose proof (quiet_codegen_AffineExpr _ _ _ _ _ _ Hl) as (_ & Hn & _).
    destruct (codegen_AffineExpr_toC _ _ _ _ _ _ Hl) as (cl & Hcl & Htl).
    destruct (codegen_AffineExpr_toC _ _ _ _ _ _ Hr) as (cr & Hcr & Htr).
    rewrite Hn in Hcr.
    exists cl, cr. eexists. repeat split; try eassumption.
    + simpl. rewrite Hcl, Hcr. reflexivity.
    + cbn [CExpr_text CBinOp_text]. rewrite Htl, Htr, !append_assoc.
      reflexivity.
    + intros Hsum. cbn [ceval]. rewrite H, H0.
      pose proof (ceval_fits _ _ _ H) as Fa. pose proof (ceval_fits _ _ _ H0) as Fb.
      unfold fits_int, INT_MAX in *.
      rewrite (as_int_Some (a + b)) by (unfold fits_int, INT_MAX; lia).
      rewrite (as_int_Some 1) by (unfold fits_int, INT_MAX; lia).
      rewrite (as_int_Some (a + b - 1)) by (unfold fits_int, INT_MAX; lia).
      destruct (Z.eqb_spec b 0) as [->|_]; [lia|].
      pose proof (quot_is_ceiling a b H1 H2) as Hc.
      rewrite as_int_Some.
      * eexists. split; [reflexivity|exact Hc].
      * unfold fits_int, INT_MAX, is_ceiling in *. nia.
    + intros Hsum. cbn [ceval]. rewrite H, H0.
      rewrite (as_int_None (a + b)) by (unfold fits_int; lia). reflexivity.
Qed.

(** ** Structural induction over operations *)

Lemma Op_children_ind (P : Op -> Prop) :
  (forall op, Forall P (children op) -> P op) -> forall op, P op.
Proof.
  intros H. fix IH 1. intros op. apply H.
  destruct op; simpl; try solve [constructor].
  - apply Forall_app_2.
    + induction thenBody; constructor; [apply IH|assumption].
    + induction elseBody; constructor; [apply IH|assumption].
  - induction body; constructor; [apply IH|assumption].
  - induction body; constructor; [apply IH|assumption].
  - induction body; constructor; [apply IH|assumption].
Qed.

(** ** Two runs that agree on the symbol table *)

Lemma agree_refl strict g : agree strict g g.
Proof. split; [reflexivity|now intros _]. Qed.

Ltac agree_tac :=
  match goal with
  | H : agree _ _ _ |- agree _ _ _ =>
      let Hn := fresh "Hn" in
      let Hc := fresh "Hc" in
      destruct H as [Hn Hc]; split;
      [ simpl; congruence
      | let E := fresh "E" in intros E; simpl; apply (Hc E) ]
  end.

Ltac no_text := exists ""; now rewrite !append_nil_r.

Lemma sim_ret {A} strict (a : A) : sim strict (ret a) (ret a).
Proof.
  intros g1 g2 H. simpl. split; [reflexivity|]. split; [exact H|no_text].
Qed.

Lemma sim_fail {A} strict f : sim strict (@fail A f) (fail f).
Proof. intros g1 g2 H. reflexivity. Qed.

Lemma sim_bind_post {A B} strict (P : A -> Prop) (c1 c2 : M A) (k1 k2 : A -> M B) :
  sim strict c1 c2 ->
  (forall g a g', c1 g = Ok (a, g') -> P a) ->
  (forall a, P a -> sim strict (k1 a) (k2 a)) ->
  sim strict (bind c1 k1) (bind c2 k2).
Proof.
  intros Hc HP Hk g1 g2 Hg. specialize (Hc g1 g2 Hg). unfold bind.
  destruct (c1 g1) as [[a1 g1']|f1] eqn:E1, (c2 g2) as [[a2 g2']|f2];
    simpl in Hc; try contradiction; [|exact Hc].
  destruct Hc as (<- & Hg' & t & Ht1 & Ht2).
  specialize (Hk a1 (HP _ _ _ E1) g1' g2' Hg').
  destruct (k1 a1 g1') as [[b1 g1'']|], (k2 a1 g2') as [[b2 g2'']|];
    simpl in *; try contradiction; [|exact Hk].
  destruct Hk as (<- & Hg'' & t' & Ht1' & Ht2').
  split; [reflexivity|]. split; [exact Hg''|].
  exists (t +:+ t'). rewrite Ht1', Ht2', Ht1, Ht2, !append_assoc. now split.
Qed.

Lemma sim_bind {A B} strict (c1 c2 : M A) (k1 k2 : A -> M B) :
  sim strict c1 c2 -> (forall a, sim strict (k1 a) (k2 a)) ->
  sim strict (bind c1 k1) (bind c2 k2).
Proof.
  intros Hc Hk. apply (sim_bind_post strict (fun _ => True)); auto.
Qed.

Lemma sim_forM {A} strict (l : list A) (f1 f2 : A -> M unit) :
  Forall (fun x => sim strict (f1 x) (f2 x)) l -> sim strict (forM_ l f1) (forM_ l f2).
Proof.
  induction 1 as [|x l Hx _ IH].
  - apply sim_ret.
  - rewrite !forM_cons. apply sim_bind; [exact Hx|intros _; exact IH].
Qed.

Lemma sim_forM_all {A} strict (l : list A) (f1 f2 : A -> M unit) :
  (forall x, sim strict (f1 x) (f2 x)) -> sim strict (forM_ l f1) (forM_ l f2).
Proof. intros H. apply sim_forM. apply Forall_forall. intros x _. apply H. Qed.

Lemma sim_foldM {A S} strict (f1 f2 : S -> A -> M S) (l : list A) s :
  (forall s x, sim strict (f1 s x) (f2 s x)) ->
  sim strict (foldM f1 s l) (foldM f2 s l).
Proof.
  intros Hf. revert s. induction l as [|x l IH]; intros s.
  - apply sim_ret.
  - rewrite !foldM_cons. apply sim_bind; [apply Hf|intros s'; apply IH].
Qed.

Lemma sim_emit strict s : sim strict (emit s) (emit s).
Proof.
  intros g1 g2 H. simpl. split; [reflexivity|]. split; [agree_tac|now exists s].
Qed.

Lemma sim_log strict s : sim strict (log s) (log s).
Proof.
  intros g1 g2 H. simpl. split; [reflexivity|]. split; [agree_tac|no_text].
Qed.

Lemma sim_getValueName strict v : sim strict (getValueName v) (getValueName v).
Proof.
  intros g1 g2 H. unfold getValueName. rewrite <- (proj1 H).
  destruct (valueNameMap g1 !! v); simpl;
    (split; [reflexivity|]; split; [agree_tac|no_text]).
Qed.

Lemma sim_hasValueName strict v : sim strict (hasValueName v) (hasValueName v).
Proof.
  intros g1 g2 H. unfold hasValueName. simpl. rewrite <- (proj1 H).
  split; [reflexivity|]. split; [agree_tac|no_text].
Qed.

Lemma sim_setValueName missingReturn strict v name :
  sim strict (setValueName missingReturn v name) (setValueName missingReturn v name).
Proof.
  intros g1 g2 H. unfold setValueName. rewrite <- (proj1 H).
  destruct (valueNameMap g1 !! v); [|destruct missingReturn; [|reflexivity]]; simpl;
    (split; [reflexivity|]; split; [agree_tac|no_text]).
Qed.

Lemma sim_getArgName : sim true getArgName getArgName.
Proof.
  intros g1 g2 (Hn & Hc). destruct (Hc eq_refl) as [Hk Hv].
  unfold getArgName. simpl. rewrite Hv.
  split; [reflexivity|]. split; [|no_text].
  split; [exact Hn|]. intros _. simpl. now rewrite Hk.
Qed.

Lemma sim_getKernelName : sim true getKernelName getKernelName.
Proof.
  intros g1 g2 (Hn & Hc). destruct (Hc eq_refl) as [Hk Hv].
  unfold getKernelName. simpl. rewrite Hk.
  split; [reflexivity|]. split; [|no_text].
  split; [exact Hn|]. intros _. simpl. now rewrite Hv.
Qed.

Lemma sim_assert strict NDEBUG c : sim strict (assert_ NDEBUG c) (assert_ NDEBUG c).
Proof.
  unfold assert_. destruct NDEBUG; [apply sim_ret|].
  destruct c; [apply sim_ret|apply sim_fail].
Qed.

Create HintDb sim_db.
#[export] Hint Resolve sim_emit sim_log sim_getValueName sim_hasValueName
  sim_setValueName sim_getArgName sim_getKernelName sim_assert : sim_db.

Ltac sim_step :=
  first
    [ apply sim_ret
    | apply sim_fail
    | solve [eauto with sim_db]
    | apply sim_bind; [|intros ?]
    | apply sim_forM_all; intros ?
    | apply sim_foldM; intros ? ?
    | match goal with
      | |- sim _ (match ?x with _ => _ end) _ => destruct x
      | |- sim _ (if ?b then _ else _) _ => destruct b
      end ].

Ltac sim_go := repeat sim_step.

Lemma sim_indent strict ci : sim strict (indent ci) (indent ci).
Proof. apply sim_emit. Qed.

Lemma sim_at {A} strict NDEBUG (l : list A) i :
  sim strict (at_ NDEBUG l i) (at_ NDEBUG l i).
Proof. unfold at_. sim_go. Qed.

Lemma sim_vector_at {A} strict (l : list A) i : sim strict (vector_at l i) (vector_at l i).
Proof. unfold vector_at. sim_go. Qed.

#[export] Hint Resolve sim_indent sim_at sim_vector_at : sim_db.

Lemma sim_codegen_AffineExpr strict NDEBUG expr operands :
  sim strict (codegen_AffineExpr NDEBUG expr operands)
             (codegen_AffineExpr NDEBUG expr operands).
Proof.
  induction expr as [p|p|v|kind l IHl r IHr]; simpl; sim_go.
Qed.

#[export] Hint Resolve sim_codegen_AffineExpr : sim_db.

Lemma sim_varDeclear strict getType var :
  sim strict (varDeclear getType var) (varDeclear getType var).
Proof. unfold varDeclear. sim_go. Qed.

Lemma sim_offset_terms strict NDEBUG exprs operands strides : forall index,
  sim strict (offset_terms NDEBUG exprs operands strides index)
             (offset_terms NDEBUG exprs operands strides index).
Proof. induction exprs as [|e exprs IH]; intros index; simpl; sim_go. Qed.

Lemma sim_bracket_terms strict NDEBUG exprs operands :
  sim strict (bracket_terms NDEBUG exprs operands)
             (bracket_terms NDEBUG exprs operands).
Proof. induction exprs as [|e exprs IH]; simpl; sim_go. Qed.

#[export] Hint Resolve sim_varDeclear sim_offset_terms sim_bracket_terms : sim_db.

Lemma sim_subscript strict NDEBUG getType memref exprs operands :
  sim strict (subscript NDEBUG getType memref exprs operands)
             (subscript NDEBUG getType memref exprs operands).
Proof. unfold subscript. sim_go. Qed.

Lemma sim_getVectorFetchType strict NDEBUG vt :
  sim strict (getVectorFetchType NDEBUG vt) (getVectorFetchType NDEBUG vt).
Proof. unfold getVectorFetchType. sim_go. Qed.

Lemma sim_codegen_binary strict ci before between after result lhs rhs :
  sim strict (codegen_binary ci before between after result lhs rhs)
             (codegen_binary ci before between after result lhs rhs).
Proof. unfold codegen_binary. sim_go. Qed.

Lemma sim_codegen_unary strict ci callee result operand :
  sim strict (codegen_unary ci callee result operand)
             (codegen_unary ci callee result operand).
Proof. unfold codegen_unary. sim_go. Qed.

Lemma sim_elseAssertYield strict NDEBUG op :
  sim strict (elseAssertYield NDEBUG op) (elseAssertYield NDEBUG op).
Proof. unfold elseAssertYield. sim_go. Qed.

Lemma sim_elseLogAssertYield strict NDEBUG op :
  sim strict (elseLogAssertYield NDEBUG op) (elseLogAssertYield NDEBUG op).
Proof. unfold elseLogAssertYield. sim_go. Qed.

#[export] Hint Resolve sim_subscript sim_getVectorFetchType sim_codegen_binary
  sim_codegen_unary sim_elseAssertYield sim_elseLogAssertYield : sim_db.

Ltac unfold_emitters :=
  unfold codegen_ConstantIndexOp, codegen_ConstantFloatOp, codegen_ConstantIntOp,
    codegen_MulFOp, codegen_AddFOp, codegen_MaxFOp, codegen_SubFOp, codegen_DivFOp,
    codegen_PowFOp, codegen_CmpFOp, codegen_TanhOp, codegen_SqrtOp, codegen_LogOp,
    codegen_BitcastOp, codegen_ExpOp, codegen_AllocOp, codegen_AffineApplyOp,
    codegen_AffineLoadOp, codegen_LoadOp, codegen_AffineStoreOp,
    codegen_AffineVectorLoadOp, codegen_AffineVectorStoreOp, codegenMemref,
    codegen_BarrierOp, codegen_ShuffleOp.

Lemma sim_codegen strict NDEBUG getType op : forall ci,
  sim strict (codegen NDEBUG getType ci op) (codegen NDEBUG getType ci op).
Proof.
  induction op as [op IH] using Op_children_ind. intros ci.
  destruct op; simpl; unfold_emitters; try solve [sim_go].
  - (* affine.if *)
    simpl in IH. apply Forall_app in IH as [IH _].
    do 4 (apply sim_bind; [sim_go|intros ?]).
    apply sim_bind; [|intros _; sim_go].
    apply sim_forM. eapply Forall_impl; [exact IH|].
    intros op' Hop'. simpl. destruct (ifBodyCase op'); [apply Hop'|sim_go].
  - (* affine.for *)
    simpl in IH.
    do 4 (apply sim_bind; [sim_go|intros ?]).
    apply sim_bind; [|intros _; sim_go].
    apply sim_forM. eapply Forall_impl; [exact IH|].
    intros op' Hop'. simpl. destruct (forBodyCase op'); [apply Hop'|sim_go].
Qed.

#[export] Hint Resolve sim_codegen : sim_db.

Lemma sim_appends {A} strict (c : M A) g a g' :
  sim strict c c -> c g = Ok (a, g') ->
  exists text, source g' = source g +:+ text.
Proof.
  intros H E. specialize (H g g (agree_refl _ _)). rewrite E in H.
  destruct H as (_ & _ & t & Ht & _). now exists t.
Qed.

(** ** Rendering under a symbol table *)

Lemma render_run NDEBUG operands expr text g :
  render NDEBUG (valueNameMap g) operands expr = Some text ->
  exists g', codegen_AffineExpr NDEBUG expr operands g = Ok (text, g') /\ quiet g g'.
Proof.
  unfold render. intros H.
  pose proof (sim_codegen_AffineExpr false NDEBUG expr operands
                (blank (valueNameMap g)) g) as S.
  specialize (S ltac:(split; [reflexivity|discriminate])).
  destruct (codegen_AffineExpr NDEBUG expr operands (blank (valueNameMap g)))
    as [[t gb]|]; [|discriminate].
  injection H as ->.
  destruct (codegen_AffineExpr NDEBUG expr operands g) as [[t' g']|] eqn:E;
    [|contradiction].
  destruct S as (-> & _). exists g'. split; [reflexivity|].
  eapply quiet_codegen_AffineExpr, E.
Qed.

(** ** The header of an emitted [if] *)

Lemma wrote_emit s g : exists g', emit s g = Ok (tt, g') /\ wrote s g g'.
Proof. eexists. split; [reflexivity|]. now repeat split. Qed.

Lemma wrote_quiet g g' : quiet g g' -> wrote "" g g'.
Proof.
  intros (Hs & Hn & Hk & Hv). repeat split; try assumption.
  now rewrite append_nil_r.
Qed.

Lemma wrote_trans t1 t2 g1 g2 g3 :
  wrote t1 g1 g2 -> wrote t2 g2 g3 -> wrote (t1 +:+ t2) g1 g3.
Proof.
  intros (Hs & Hn & Hk & Hv) (Hs' & Hn' & Hk' & Hv').
  repeat split; try congruence. now rewrite Hs', Hs, append_assoc.
Qed.

Lemma if_constraints_run NDEBUG operands constraints : forall texts g,
  Forall2 (fun c text => render NDEBUG (valueNameMap g) operands (fst c) = Some text)
          constraints texts ->
  exists g',
    forM_ constraints (fun '(expr, isEq) =>
      let relation := if isEq : bool then "==" else ">=" in
      e <- codegen_AffineExpr NDEBUG expr operands ;;
      emit (e +:+ " " +:+ relation +:+ " 0 && ")) g = Ok (tt, g')
    /\ wrote (if_conjuncts (zip texts (map snd constraints))) g g'.
Proof.
  induction constraints as [|[expr isEq] constraints IH]; intros texts g H.
  - inversion H; subst. exists g. split; [reflexivity|].
    apply wrote_quiet, quiet_refl.
  - inversion H as [|? text ? texts' Hr Hrest]; subst. simpl in Hr.
    destruct (render_run _ _ _ _ _ Hr) as (g1 & E1 & Q1).
    rewrite forM_cons.
    destruct (wrote_emit (text +:+ " " +:+ relation_text isEq +:+ " 0 && ") g1)
      as (g2 & E2 & W2).
    assert (Hn : valueNameMap g2 = valueNameMap g).
    { destruct Q1 as (_ & Hq & _), W2 as (_ & Hw & _). congruence. }
    rewrite <- Hn in Hrest. destruct (IH _ _ Hrest) as (g3 & E3 & W3).
    exists g3. split.
    + unfold bind at 1. unfold bind at 1. rewrite E1.
      destruct isEq; simpl relation_text in E2; rewrite E2; exact E3.
    + simpl. pose proof (wrote_trans _ _ _ _ _ (wrote_quiet _ _ Q1) W2) as W.
      pose proof (wrote_trans _ _ _ _ _ W W3) as W'.
      simpl in W'. rewrite !append_assoc in W'. exact W'.
Qed.

Lemma if_header_run NDEBUG getType ci constraints operands thenBody elseBody texts g :
  Forall2 (fun c text => render NDEBUG (valueNameMap g) operands (fst c) = Some text)
          constraints texts ->
  exists gh,
    wrote (spaces (Z.to_nat ci) +:+ "if ("
           +:+ if_condition (zip texts (map snd constraints)) +:+ ") {" +:+ nl) g gh /\
    codegen NDEBUG getType ci (AffineIfOp constraints operands thenBody elseBody) g
    = (ifBlock NDEBUG getType ci thenBody ;;; indent ci ;;; emit ("}" +:+ nl)) gh.
Proof.
  intros H.
  destruct (wrote_emit (spaces (Z.to_nat ci)) g) as (g1 & E1 & W1).
  destruct (wrote_emit "if (" g1) as (g2 & E2 & W2).
  assert (Hn : valueNameMap g2 = valueNameMap g).
  { destruct W1 as (_ & H1 & _), W2 as (_ & H2 & _). congruence. }
  rewrite <- Hn in H.
  destruct (if_constraints_run _ _ _ _ _ H) as (g3 & E3 & W3).
  destruct (wrote_emit (" true) {" +:+ nl) g3) as (g4 & E4 & W4).
  exists g4. split.
  - pose proof (wrote_trans _ _ _ _ _ (wrote_trans _ _ _ _ _
                  (wrote_trans _ _ _ _ _ W1 W2) W3) W4) as W.
    unfold if_condition. rewrite !append_assoc in W. rewrite !append_assoc.
    exact W.
  - simpl. unfold indent at 1.
    rewrite (bind_Ok _ _ _ _ _ E1), (bind_Ok _ _ _ _ _ E2),
            (bind_Ok _ _ _ _ _ E3), (bind_Ok _ _ _ _ _ E4).
    reflexivity.
Qed.

Lemma sim_ifBlock strict NDEBUG getType ci thenBody :
  sim strict (ifBlock NDEBUG getType ci thenBody) (ifBlock NDEBUG getType ci thenBody).
Proof. unfold ifBlock. sim_go. Qed.

(** C5 (amended).  An [affine.if] is emitted as [if (] followed by every
    constraint rendered as [expr == 0] or [expr >= 0], each followed by
    [ && ], followed by [ true) {]; the then-block and the closing brace
    come after it. *)
Theorem if_condition_conjuncts_then_true
    NDEBUG getType ci constraints operands thenBody elseBody texts g :
  Forall2 (fun c text => render NDEBUG (valueNameMap g) operands (fst c) = Some text)
          constraints texts ->
  (exists gh,
     wrote (spaces (Z.to_nat ci) +:+ "if ("
            +:+ if_condition (zip texts (map snd constraints)) +:+ ") {" +:+ nl) g gh /\
     codegen NDEBUG getType ci (AffineIfOp constraints operands thenBody elseBody) g
     = (ifBlock NDEBUG getType ci thenBody ;;; indent ci ;;; emit ("}" +:+ nl)) gh) /\
  (forall g',
     codegen NDEBUG getType ci (AffineIfOp constraints operands thenBody elseBody) g
     = Ok (tt, g') ->
     exists block,
       source g' = source g +:+ spaces (Z.to_nat ci) +:+ "if ("
                   +:+ if_condition (zip texts (map snd constraints)) +:+ ") {" +:+ nl
                   +:+ block +:+ spaces (Z.to_nat ci) +:+ "}" +:+ nl).
Proof.
  intros H.
  destruct (if_header_run NDEBUG getType ci _ _ thenBody elseBody _ _ H)
    as (gh & W & E).
  split; [now exists gh|].
  intros g' Hrun. rewrite E in Hrun.
  apply bind_inv in Hrun as ([] & g1 & Hb & Hf).
  destruct (sim_appends false _ _ _ _ (sim_ifBlock _ _ _ _ _) Hb) as (block & Hblock).
  exists block.
  unfold indent, bind, emit in Hf. injection Hf as <-. simpl.
  rewrite Hblock. destruct W as (-> & _). rewrite !append_assoc. reflexivity.
Qed.

(** ** Strides *)

Lemma to_int_fits z : fits_int z -> to_int z = z.
Proof.
  unfold fits_int, to_int, INT_MAX. intros H.
  rewrite Z.mod_small; lia.
Qed.

Lemma product_drop (shape : list Z) (j : nat) s :
  shape !! j = Some s -> product (drop j shape) = s * product (drop (S j) shape).
Proof.
  revert j. induction shape as [|x shape IH]; intros [|j] H; simpl in *;
    try discriminate.
  - injection H as ->. reflexivity.
  - now apply IH.
Qed.

Lemma row_major_strides_lookup shape k :
  row_major_strides shape !! k =
    if decide (k < length shape)%nat then Some (product (drop (S k) shape)) else None.
Proof.
  revert k. induction shape as [|x shape IH]; intros k; simpl.
  - now destruct k.
  - destruct k as [|k]; simpl.
    + now rewrite drop_0.
    + rewrite IH. repeat case_decide; (reflexivity || lia).
Qed.

Lemma length_row_major_strides shape :
  length (row_major_strides shape) = length shape.
Proof. induction shape; simpl; congruence. Qed.

(** Without overflow, entry [i] of the computed vector is the product of
    the last [i] extents. *)
Lemma strides_prefix shape k :
  Forall fits_int (row_major_strides shape) ->
  (k <= length shape)%nat ->
  foldl (strides_step shape) [] (seq 0 k)
  = map (fun i => product (drop (length shape - i) shape)) (seq 0 k).
Proof.
  intros Hfit. induction k as [|k IH]; intros Hk; [reflexivity|].
  rewrite seq_S, foldl_app, map_app, IH by lia. simpl.
  unfold strides_step. destruct (decide (k = 0%nat)) as [->|Hk0].
  - simpl. rewrite Nat.sub_0_r, drop_all. reflexivity.
  - f_equal.
    assert (Hin : (length shape - k < length shape)%nat) by lia.
    destruct (lookup_lt_is_Some_2 shape _ Hin) as [s Hs].
    rewrite (list_lookup_total_correct _ _ _ Hs).
    assert (Hprev : map (fun i => product (drop (length shape - i) shape))
                        (seq 0 k) !! (k - 1)%nat
                    = Some (product (drop (S (length shape - k)) shape))).
    { rewrite list_lookup_fmap, lookup_seq_lt by lia. simpl.
      do 3 f_equal. lia. }
    rewrite (list_lookup_total_correct _ _ _ Hprev).
    rewrite (product_drop _ _ _ Hs), Z.mul_comm.
    f_equal. apply to_int_fits.
    rewrite <- (product_drop _ _ _ Hs).
    destruct (length shape - k)%nat as [|j] eqn:Ej; [lia|].
    rewrite Forall_lookup in Hfit. apply (Hfit j).
    rewrite row_major_strides_lookup. case_decide; [reflexivity|lia].
Qed.

Lemma compute_strides_row_major shape k s :
  Forall fits_int (row_major_strides shape) ->
  row_major_strides shape !! k = Some s ->
  0 <= Z.of_nat (length shape) - 1 - Z.of_nat k /\
  compute_strides shape !! Z.to_nat (Z.of_nat (length shape) - 1 - Z.of_nat k) = Some s.
Proof.
  intros Hfit Hk. rewrite row_major_strides_lookup in Hk.
  case_decide as Hlt; [|discriminate]. injection Hk as <-.
  split; [lia|].
  unfold compute_strides. rewrite strides_prefix by (assumption || lia).
  rewrite list_lookup_fmap, lookup_seq_lt by lia. simpl.
  do 3 f_equal. lia.
Qed.

(** ** The subscript of a global access *)

Lemma vector_at_Some {A} (l : list A) (i : Z) x g :
  0 <= i -> l !! Z.to_nat i = Some x -> vector_at l i g = Ok (x, g).
Proof.
  intros Hi Hx. unfold vector_at.
  destruct (Z.ltb_spec i 0); [lia|]. now rewrite Hx.
Qed.

Lemma offset_terms_run NDEBUG operands strides exprs : forall texts ss index g,
  Forall2 (fun e text => render NDEBUG (valueNameMap g) operands e = Some text)
          exprs texts ->
  length ss = length exprs ->
  (forall (k : nat) s, ss !! k = Some s ->
     0 <= index - Z.of_nat k /\ strides !! Z.to_nat (index - Z.of_nat k) = Some s) ->
  exists g',
    offset_terms NDEBUG exprs operands strides index g = Ok (flat_terms texts ss, g')
    /\ quiet g g'.
Proof.
  induction exprs as [|e exprs IH]; intros texts ss index g Hr Hlen Hss.
  - inversion Hr; subst. exists g. split; [reflexivity|apply quiet_refl].
  - inversion Hr as [|? text ? texts' He Hrest]; subst.
    destruct ss as [|s ss]; [discriminate|]. injection Hlen as Hlen.
    destruct (Hss 0%nat s eq_refl) as [Hi Hs]. rewrite Z.sub_0_r in Hi, Hs.
    destruct (render_run _ _ _ _ _ He) as (g1 & E1 & Q1).
    assert (Hn : valueNameMap g1 = valueNameMap g) by apply Q1.
    rewrite <- Hn in Hrest.
    destruct (IH texts' ss (index - 1) g1 Hrest Hlen) as (g2 & E2 & Q2).
    { intros k s' Hk. destruct (Hss (S k) s' Hk) as [Hi' Hs'].
      replace (index - 1 - Z.of_nat k) with (index - Z.of_nat (S k)) by lia.
      now split. }
    exists g2. split; [|eapply quiet_trans; eassumption].
    simpl. rewrite (bind_Ok _ _ _ _ _ (vector_at_Some _ _ _ _ Hi Hs)).
    rewrite (bind_Ok _ _ _ _ _ E1), (bind_Ok _ _ _ _ _ E2).
    destruct (10240 <=? s); reflexivity.
Qed.

Lemma subscript_global_run NDEBUG getType memref elementType shape exprs operands texts g :
  getType memref = MemRefType elementType shape global ->
  length exprs = length shape ->
  Forall fits_int (row_major_strides shape) ->
  Forall2 (fun e text => render NDEBUG (valueNameMap g) operands e = Some text)
          exprs texts ->
  exists g',
    subscript NDEBUG getType memref exprs operands g
    = Ok ("[" +:+ flat_offset texts (row_major_strides shape) +:+ "]", g')
    /\ quiet g g'.
Proof.
  intros Hty Hlen Hfit Hr. unfold subscript. rewrite Hty.
  destruct (offset_terms_run NDEBUG operands (compute_strides shape) exprs texts
              (row_major_strides shape) (Z.of_nat (length exprs) - 1) g Hr)
    as (g' & E & Q).
  - now rewrite length_row_major_strides.
  - intros k s Hk. rewrite Hlen. now apply compute_strides_row_major.
  - exists g'. split; [|exact Q].
    rewrite (bind_Ok _ _ _ _ _ E). unfold ret, flat_offset.
    rewrite !append_assoc. reflexivity.
Qed.

Lemma row_major_last shape :
  shape <> [] -> last (row_major_strides shape) = Some 1.
Proof.
  intros Hne. destruct shape as [|s shape]; [contradiction|].
  rewrite last_lookup, length_row_major_strides, row_major_strides_lookup.
  replace (Nat.pred (length (s :: shape))) with (length shape) by reflexivity.
  case_decide; [|simpl in *; lia]. f_equal.
  change (S (length shape)) with (length (s :: shape)). rewrite drop_all.
  reflexivity.
Qed.

Lemma row_major_recurrence shape (k : nat) inner extent :
  row_major_strides shape !! S k = Some inner -> shape !! S k = Some extent ->
  row_major_strides shape !! k = Some (inner * extent).
Proof.
  rewrite !row_major_strides_lookup. intros Hi He.
  case_decide; [|discriminate]. injection Hi as <-.
  case_decide; [|lia]. f_equal.
  rewrite (product_drop _ _ _ He). lia.
Qed.

(** C1 (amended).  For a global memref whose row-major strides all fit the
    [int] the generator stores them in, accessed with as many expressions
    as it has dimensions, the load and the store emitters (and the
    subscript every access emitter shares) write the flat offset
    [e0 * stride0 + ... + 0] with [stride(n-1) = 1] and
    [stride(k) = stride(k+1) * s(k+1)]; for shape [4,3,2] and indices
    [i,j,k] the offset is [i * 6 + j * 2 + k * 1 + 0]. *)
Theorem global_access_row_major
    NDEBUG getType ci memref elementType shape exprs operands texts g :
  getType memref = MemRefType elementType shape global ->
  length exprs = length shape ->
  Forall fits_int (row_major_strides shape) ->
  Forall2 (fun e text => render NDEBUG (valueNameMap g) operands e = Some text)
          exprs texts ->
  (forall result, exists g',
     codegen_AffineLoadOp NDEBUG getType ci result memref exprs operands g = Ok (tt, g') /\
     wrote (spaces (Z.to_nat ci) +:+ "auto " +:+ nameOf (valueNameMap g) result +:+ " = "
            +:+ nameOf (valueNameMap g) memref
            +:+ "[" +:+ flat_offset texts (row_major_strides shape) +:+ "]"
            +:+ ";" +:+ nl) g g') /\
  (forall value, exists g',
     codegen_AffineStoreOp NDEBUG getType ci value memref exprs operands g = Ok (tt, g') /\
     wrote (spaces (Z.to_nat ci) +:+ nameOf (valueNameMap g) memref
            +:+ "[" +:+ flat_offset texts (row_major_strides shape) +:+ "]"
            +:+ " = " +:+ nameOf (valueNameMap g) value +:+ ";" +:+ nl) g g') /\
  (exists g',
     subscript NDEBUG getType memref exprs operands g
     = Ok ("[" +:+ flat_offset texts (row_major_strides shape) +:+ "]", g') /\
     quiet g g') /\
  (shape <> [] -> last (row_major_strides shape) = Some 1) /\
  (forall (k : nat) inner extent,
     row_major_strides shape !! S k = Some inner -> shape !! S k = Some extent ->
     row_major_strides shape !! k = Some (inner * extent)) /\
  flat_offset ["i"; "j"; "k"] (row_major_strides [4; 3; 2]) = "i * 6 + j * 2 + k * 1 + 0".
Proof.
  intros Hty Hlen Hfit Hr. split; [|split; [|split; [|split; [|split]]]].
  - intros result. unfold codegen_AffineLoadOp.
    destruct (wrote_emit (spaces (Z.to_nat ci)) g) as (g1 & E1 & W1).
    destruct (getValueName_run result g1) as (g2 & E2 & Q2).
    destruct (getValueName_run memref g2) as (g3 & E3 & Q3).
    assert (N1 : valueNameMap g1 = valueNameMap g) by apply W1.
    assert (N2 : valueNameMap g2 = valueNameMap g) by (rewrite <- N1; apply Q2).
    assert (N3 : valueNameMap g3 = valueNameMap g) by (rewrite <- N2; apply Q3).
    rewrite N1 in E2. rewrite N2 in E3.
    destruct (wrote_emit ("auto " +:+ nameOf (valueNameMap g) result +:+ " = "
                          +:+ nameOf (valueNameMap g) memref) g3) as (g4 & E4 & W4).
    assert (N4 : valueNameMap g4 = valueNameMap g) by (rewrite <- N3; apply W4).
    rewrite <- N4 in Hr.
    destruct (subscript_global_run _ _ _ _ _ _ _ _ _ Hty Hlen Hfit Hr)
      as (g5 & E5 & Q5).
    destruct (wrote_emit ("[" +:+ flat_offset texts (row_major_strides shape) +:+ "]")
                g5) as (g6 & E6 & W6).
    destruct (wrote_emit (";" +:+ nl) g6) as (g7 & E7 & W7).
    exists g7. split.
    + unfold indent. rewrite (bind_Ok _ _ _ _ _ E1), (bind_Ok _ _ _ _ _ E2),
        (bind_Ok _ _ _ _ _ E3), (bind_Ok _ _ _ _ _ E4), (bind_Ok _ _ _ _ _ E5),
        (bind_Ok _ _ _ _ _ E6). exact E7.
    + pose proof (wrote_trans _ _ _ _ _ W1 (wrote_quiet _ _ Q2)) as W.
      pose proof (wrote_trans _ _ _ _ _ W (wrote_quiet _ _ Q3)) as W'.
      pose proof (wrote_trans _ _ _ _ _ W' W4) as W''.
      pose proof (wrote_trans _ _ _ _ _ W'' (wrote_quiet _ _ Q5)) as W3.
      pose proof (wrote_trans _ _ _ _ _ (wrote_trans _ _ _ _ _ W3 W6) W7) as Wf.
      rewrite !append_nil_r, !append_assoc in Wf. rewrite ?append_assoc.
      exact Wf.
  - intros value. unfold codegen_AffineStoreOp.
    destruct (wrote_emit (spaces (Z.to_nat ci)) g) as (g1 & E1 & W1).
    destruct (getValueName_run memref g1) as (g2 & E2 & Q2).
    assert (N1 : valueNameMap g1 = valueNameMap g) by apply W1.
    assert (N2 : valueNameMap g2 = valueNameMap g) by (rewrite <- N1; apply Q2).
    rewrite N1 in E2.
    destruct (wrote_emit (nameOf (valueNameMap g) memref) g2) as (g3 & E3 & W3).
    assert (N3 : valueNameMap g3 = valueNameMap g) by (rewrite <- N2; apply W3).
    rewrite <- N3 in Hr.
    destruct (subscript_global_run _ _ _ _ _ _ _ _ _ Hty Hlen Hfit Hr)
      as (g4 & E4 & Q4).
    destruct (wrote_emit ("[" +:+ flat_offset texts (row_major_strides shape) +:+ "]")
                g4) as (g5 & E5 & W5).
    assert (N5 : valueNameMap g5 = valueNameMap g).
    { destruct Q4 as (_ & H4 & _), W5 as (_ & H5 & _). congruence. }
    destruct (getValueName_run value g5) as (g6 & E6 & Q6). rewrite N5 in E6.
    destruct (wrote_emit (" = " +:+ nameOf (valueNameMap g) value) g6)
      as (g7 & E7 & W7).
    destruct (wrote_emit (";" +:+ nl) g7) as (g8 & E8 & W8).
    exists g8. split.
    + unfold indent. rewrite (bind_Ok _ _ _ _ _ E1), (bind_Ok _ _ _ _ _ E2),
        (bind_Ok _ _ _ _ _ E3), (bind_Ok _ _ _ _ _ E4), (bind_Ok _ _ _ _ _ E5),
        (bind_Ok _ _ _ _ _ E6), (bind_Ok _ _ _ _ _ E7). exact E8.
    + pose proof (wrote_trans _ _ _ _ _ W1 (wrote_quiet _ _ Q2)) as Wa.
      pose proof (wrote_trans _ _ _ _ _ Wa W3) as Wb.
      pose proof (wrote_trans _ _ _ _ _ Wb (wrote_quiet _ _ Q4)) as Wc.
      pose proof (wrote_trans _ _ _ _ _ Wc W5) as Wd.
      pose proof (wrote_trans _ _ _ _ _ Wd (wrote_quiet _ _ Q6)) as We.
      pose proof (wrote_trans _ _ _ _ _ (wrote_trans _ _ _ _ _ We W7) W8) as Wf.
      rewrite !append_nil_r, !append_assoc in Wf. rewrite ?append_assoc.
      exact Wf.
  - now apply (subscript_global_run _ _ _ elementType).
  - apply row_major_last.
  - apply row_major_recurrence.
  - reflexivity.
Qed.

(** ** The naming pass on the symbol table *)

Lemma define_subseteq names v n : names ⊆ define names v n.
Proof.
  unfold define. destruct (names !! v) eqn:E; [reflexivity|].
  now apply insert_subseteq.
Qed.

Lemma dom_define names v n : dom (define names v n) = {[v]} ∪ dom names.
Proof.
  unfold define. destruct (names !! v) eqn:E.
  - assert (v ∈ dom names) by (apply elem_of_dom; eauto). set_solver.
  - apply dom_insert_L.
Qed.

Lemma define_fresh names v n : names !! v = None -> define names v n !! v = Some n.
Proof. intros H. unfold define. rewrite H. apply lookup_insert_eq. Qed.

Lemma define_all_subseteq l : forall names, names ⊆ define_all names l.
Proof.
  induction l as [|[v n] l IH]; intros names; simpl; [reflexivity|].
  etrans; [apply (define_subseteq names v n)|apply IH].
Qed.

Lemma dom_define_all l : forall names,
  dom (define_all names l) = dom names ∪ list_to_set (map fst l).
Proof.
  induction l as [|[v n] l IH]; intros names; simpl.
  - set_solver.
  - unfold define_all in IH. rewrite IH, dom_define. set_solver.
Qed.

Lemma define_all_app l1 l2 names :
  define_all names (l1 ++ l2) = define_all (define_all names l1) l2.
Proof. unfold define_all. apply foldl_app. Qed.

Lemma define_all_fresh l : forall names v n,
  NoDup (map fst l) -> (v, n) ∈ l -> names !! v = None ->
  define_all names l !! v = Some n.
Proof.
  induction l as [|[v0 n0] l IH]; intros names v n Hnd Hin Hfresh.
  - inversion Hin.
  - simpl in Hnd. apply NoDup_cons in Hnd as [Hv0 Hnd].
    apply elem_of_cons in Hin as [[= -> ->]|Hin]; simpl.
    + eapply lookup_weaken; [|apply define_all_subseteq].
      now apply define_fresh.
    + apply IH; [assumption..|].
      assert (v <> v0).
      { intros ->. apply Hv0. apply list_elem_of_fmap. now exists (v0, n). }
      unfold define. destruct (names !! v0); [assumption|].
      now rewrite lookup_insert_ne.
Qed.

Lemma setValueName_run rv v n g :
  exists b g', setValueName (Some rv) v n g = Ok (b, g') /\
               valueNameMap g' = define (valueNameMap g) v n.
Proof.
  unfold setValueName, define. destruct (valueNameMap g !! v);
    do 2 eexists; (split; [reflexivity|reflexivity]).
Qed.

Lemma vector_at_int3str (n : nat) g :
  (n < 3)%nat -> vector_at int3str (Z.of_nat n) g = Ok (dimension_letter n, g).
Proof.
  intros H. destruct n as [|[|[|n]]]; try lia; reflexivity.
Qed.

Lemma nameIVs_run rv prefix size operands : forall i g,
  (size - i - 1 < 3)%nat ->
  exists g', nameIVs (Some rv) prefix size operands i g = Ok (tt, g') /\
             valueNameMap g' =
               define_all (valueNameMap g) (IV_names prefix size operands i).
Proof.
  induction operands as [|v rest IH]; intros i g Hi; simpl.
  - exists g. now split.
  - destruct (setValueName_run rv v (prefix +:+ dimension_letter (size - i - 1)) g)
      as (b & g1 & E1 & N1).
    destruct (IH (S i) g1 ltac:(lia)) as (g2 & E2 & N2).
    exists g2. split.
    + rewrite (bind_Ok _ _ _ _ _ (vector_at_int3str _ g Hi)).
      rewrite (bind_Ok _ _ _ _ _ E1). exact E2.
    + rewrite N2, N1. reflexivity.
Qed.

Lemma nameParallel_run rv prefix op g :
  (forall IVs body, op = AffineParallelOp IVs body -> (length IVs <= 3)%nat) ->
  exists g', nameParallel (Some rv) prefix op g = Ok (tt, g') /\
             valueNameMap g' = define_all (valueNameMap g) (parallel_names prefix op).
Proof.
  intros H. destruct op; try (exists g; now split).
  simpl. apply nameIVs_run. specialize (H _ _ eq_refl). lia.
Qed.

Lemma forM_nameParallel_run rv prefix ops : forall g,
  (forall IVs body, AffineParallelOp IVs body ∈ ops -> (length IVs <= 3)%nat) ->
  exists g', forM_ ops (nameParallel (Some rv) prefix) g = Ok (tt, g') /\
             valueNameMap g' =
               define_all (valueNameMap g) (concat (map (parallel_names prefix) ops)).
Proof.
  induction ops as [|op ops IH]; intros g H.
  - exists g. now split.
  - destruct (nameParallel_run rv prefix op g) as (g1 & E1 & N1).
    { intros IVs body ->. apply (H IVs body). left. }
    destruct (IH g1) as (g2 & E2 & N2).
    { intros IVs body Hin. apply (H IVs body). now right. }
    exists g2. split.
    + rewrite forM_cons, (bind_Ok _ _ _ _ _ E1). exact E2.
    + simpl. rewrite define_all_app, N2, N1. reflexivity.
Qed.

Lemma walk_head node : walk node = node :: tail (walk node).
Proof. destruct node; reflexivity. Qed.

Lemma index_names_run rv node g :
  at_most_3d node ->
  exists g1 g',
    nameParallel (Some rv) "blockIdx." node g = Ok (tt, g1) /\
    forM_ (tail (walk node)) (nameParallel (Some rv) "threadIdx.") g1 = Ok (tt, g') /\
    valueNameMap g' = define_all (valueNameMap g) (index_names node).
Proof.
  intros H3.
  destruct (nameParallel_run rv "blockIdx." node g) as (g1 & E1 & N1).
  { intros IVs body ->. apply (H3 IVs body). rewrite walk_head. left. }
  destruct (forM_nameParallel_run rv "threadIdx." (tail (walk node)) g1)
    as (g2 & E2 & N2).
  { intros IVs body Hin. apply (H3 IVs body). rewrite walk_head. now right. }
  exists g1, g2. split; [exact E1|]. split; [exact E2|].
  unfold index_names. rewrite define_all_app, N2, N1. reflexivity.
Qed.

Lemma nameResult_run rv prefix suffix counter result g :
  exists g', nameResult (Some rv) prefix suffix counter result g = Ok (counter + 1, g') /\
             valueNameMap g' =
               define (valueNameMap g) result (prefix +:+ to_string counter +:+ suffix).
Proof.
  unfold nameResult.
  destruct (setValueName_run rv result (prefix +:+ to_string counter +:+ suffix) g)
    as (b & g1 & E1 & N1).
  exists g1. split; [|exact N1]. now rewrite (bind_Ok _ _ _ _ _ E1).
Qed.

Lemma foldM_names_run rv (select : Op -> option Value) prefix suffix ops :
  forall counter g,
  exists counter' g',
    foldM (fun c op => match select op with
                       | Some result => nameResult (Some rv) prefix suffix c result
                       | None => ret c
                       end) counter ops g = Ok (counter', g') /\
    valueNameMap g ⊆ valueNameMap g' /\
    dom (valueNameMap g') = dom (valueNameMap g) ∪ list_to_set (omap select ops).
Proof.
  induction ops as [|op ops IH]; intros counter g.
  - exists counter, g. split; [reflexivity|]. split; [reflexivity|set_solver].
  - rewrite foldM_cons. simpl. destruct (select op) as [result|].
    + destruct (nameResult_run rv prefix suffix counter result g) as (g1 & E1 & N1).
      destruct (IH (counter + 1) g1) as (c' & g2 & E2 & S2 & D2).
      exists c', g2. split; [|split].
      * rewrite (bind_Ok _ _ _ _ _ E1). exact E2.
      * etrans; [|exact S2]. rewrite N1. apply define_subseteq.
      * rewrite D2, N1, dom_define. set_solver.
    + destruct (IH counter g) as (c' & g2 & E2 & S2 & D2).
      exists c', g2. now split.
Qed.

Lemma walkNames_run rv select prefix suffix node counter g :
  exists counter' g',
    walkNames (Some rv) select prefix suffix node counter g = Ok (counter', g') /\
    valueNameMap g ⊆ valueNameMap g' /\
    dom (valueNameMap g') =
      dom (valueNameMap g) ∪ list_to_set (omap select (walk node)).
Proof. apply foldM_names_run. Qed.

(** ** The walks over memory accesses *)

Lemma captured_in_mono order c named named' :
  named ⊆ named' -> captured_in order c named -> captured_in order c named'.
Proof.
  intros Hsub (H1 & H2 & H3 & H4).
  split; [exact H1|]. split; [exact H2|]. split; [exact H3|].
  intros v Hv. apply Hsub, H4, Hv.
Qed.

Lemma captured_in_empty named : captured_in [] (mkCaptures 0 ∅) named.
Proof.
  split; [|split; [|split]]; simpl.
  - intros v i. rewrite lookup_empty, lookup_nil. split; [discriminate|].
    intros [_ H]. discriminate.
  - reflexivity.
  - constructor.
  - intros v Hv. inversion Hv.
Qed.

Lemma hasValueName_run v g :
  hasValueName v g = Ok (bool_decide (v ∈ dom (valueNameMap g)), g).
Proof.
  unfold hasValueName. do 2 f_equal. apply bool_decide_ext.
  symmetry. apply elem_of_dom.
Qed.

Lemma capture_run rv mem c g order :
  captured_in order c (dom (valueNameMap g)) ->
  exists c' g',
    capture (Some rv) mem c g = Ok (c', g') /\
    valueNameMap g ⊆ valueNameMap g' /\
    dom (valueNameMap g') = {[mem]} ∪ dom (valueNameMap g) /\
    captured_in (order ++ if decide (mem ∈ dom (valueNameMap g)) then [] else [mem])
                c' (dom (valueNameMap g')).
Proof.
  intros (Hout & Hid & Hnd & Hin). unfold capture.
  rewrite (bind_Ok _ _ _ _ _ (hasValueName_run mem g)).
  destruct (decide (mem ∈ dom (valueNameMap g))) as [Hmem|Hmem].
  - rewrite bool_decide_eq_true_2 by assumption.
    exists c, g. split; [reflexivity|]. split; [reflexivity|].
    split; [set_solver|]. rewrite app_nil_r.
    exact (conj Hout (conj Hid (conj Hnd Hin))).
  - rewrite bool_decide_eq_false_2 by assumption.
    assert (Hnot : mem ∉ order) by (intros H; apply Hmem, Hin, H).
    destruct (outsidesVars c !! mem) as [i|] eqn:Ei.
    { exfalso. apply Hnot. apply Hout in Ei as [_ Ei].
      eapply list_elem_of_lookup_2, Ei. }
    set (g1 := mkGlobals (source g) (errs g) (valueNameMap g) (kernelCounter g)
                         (varCounter g + 1)).
    assert (E1 : getArgName g = Ok ("arg" +:+ to_string (varCounter g), g1))
      by reflexivity.
    destruct (setValueName_run rv mem ("arg" +:+ to_string (varCounter g)) g1)
      as (b & g2 & E2 & N2).
    assert (Hfresh : valueNameMap g !! mem = None) by now apply not_elem_of_dom.
    assert (N2' : valueNameMap g2 = <[mem := "arg" +:+ to_string (varCounter g)]>
                                      (valueNameMap g)).
    { rewrite N2. unfold define. simpl. now rewrite Hfresh. }
    exists (mkCaptures (id c + 1) (<[mem := id c]> (outsidesVars c))), g2.
    split; [|split; [|split]].
    + rewrite (bind_Ok _ _ _ _ _ E1), (bind_Ok _ _ _ _ _ E2). reflexivity.
    + rewrite N2'. now apply insert_subseteq.
    + rewrite N2'. apply dom_insert_L.
    + split; [|split; [|split]]; simpl.
      * intros v i. split.
        -- intros H. destruct (decide (v = mem)) as [->|Hne].
           ++ rewrite lookup_insert_eq in H. injection H as <-.
              rewrite Hid. split; [lia|]. rewrite Nat2Z.id.
              rewrite lookup_app_r by lia. now rewrite Nat.sub_diag.
           ++ rewrite lookup_insert_ne in H by congruence.
              apply Hout in H as [H0 H]. split; [assumption|].
              rewrite lookup_app_l; [assumption|]. eapply lookup_lt_Some, H.
        -- intros [H0 H]. destruct (decide (v = mem)) as [->|Hne].
           ++ rewrite lookup_insert_eq. f_equal. rewrite Hid.
              apply lookup_app_Some in H as [H|[Hlen H]].
              ** exfalso. apply Hnot. eapply list_elem_of_lookup_2, H.
              ** apply lookup_lt_Some in H. simpl in H. lia.
           ++ rewrite lookup_insert_ne by congruence. apply Hout.
              split; [assumption|].
              apply lookup_app_Some in H as [H|[Hlen H]]; [assumption|].
              apply list_lookup_singleton_Some in H as [_ ->]. contradiction.
      * rewrite Hid, length_app. simpl. lia.
      * apply NoDup_app. split; [assumption|]. split; [|apply NoDup_singleton].
        intros x Hx Hx'. apply list_elem_of_singleton in Hx' as ->. contradiction.
      * intros v Hv. rewrite N2', dom_insert_L.
        apply elem_of_app in Hv as [Hv|Hv]; [|set_solver].
        apply Hin in Hv. set_solver.
Qed.

Lemma touched_app a b : touched (a ++ b) = touched a ∪ touched b.
Proof.
  unfold touched. rewrite map_app, omap_app, !list_to_set_app_L.
  apply set_eq. intros x. rewrite !elem_of_union. tauto.
Qed.

Lemma touched_cons mem res accs :
  touched ((mem, res) :: accs) = touched [(mem, res)] ∪ touched accs.
Proof. apply (touched_app [(mem, res)] accs). Qed.

Lemma touched_nil : touched [] = ∅.
Proof. unfold touched. simpl. set_solver. Qed.

Lemma scan_cons named mem res rest :
  scan named ((mem, res) :: rest) =
    if decide (mem ∈ named) then scan (touched [(mem, res)] ∪ named) rest
    else mem :: scan (touched [(mem, res)] ∪ named) rest.
Proof. reflexivity. Qed.

Lemma union_swap (a b c : gset Value) : a ∪ (b ∪ c) = b ∪ a ∪ c.
Proof. apply set_eq. intros x. rewrite !elem_of_union. tauto. Qed.

Lemma scan_app a : forall named b,
  scan named (a ++ b) = scan named a ++ scan (touched a ∪ named) b.
Proof.
  induction a as [|[mem res] a IH]; intros named b.
  - simpl. rewrite touched_nil. f_equal. apply set_eq. intros x.
    rewrite elem_of_union, elem_of_empty. tauto.
  - simpl app. rewrite !scan_cons, IH, (touched_cons mem res a), union_swap.
    now destruct (decide (mem ∈ named)).
Qed.

Lemma scan_fresh accs : forall named v, v ∈ scan named accs -> v ∉ named.
Proof.
  induction accs as [|[mem res] accs IH]; intros named v Hv.
  - inversion Hv.
  - rewrite scan_cons in Hv. destruct (decide (mem ∈ named)).
    + apply IH in Hv. intros H. apply Hv, elem_of_union. now right.
    + apply elem_of_cons in Hv as [->|Hv]; [assumption|].
      apply IH in Hv. intros H. apply Hv, elem_of_union. now right.
Qed.

Lemma scan_accessed accs : forall named v,
  v ∈ scan named accs -> v ∈ map fst accs.
Proof.
  induction accs as [|[mem res] accs IH]; intros named v Hv.
  - inversion Hv.
  - rewrite scan_cons in Hv. simpl map. destruct (decide (mem ∈ named)).
    + right. eapply IH, Hv.
    + apply elem_of_cons in Hv as [->|Hv]; [left|right; eapply IH, Hv].
Qed.

Lemma loads_in_cons select op ops :
  loads_in select (op :: ops) =
    match select op with
    | Some (mem, result) => (mem, Some result) :: loads_in select ops
    | None => loads_in select ops
    end.
Proof. unfold loads_in. simpl. now destruct (select op) as [[? ?]|]. Qed.

Lemma stores_in_cons select op ops :
  stores_in select (op :: ops) =
    match select op with
    | Some mem => (mem, None) :: stores_in select ops
    | None => stores_in select ops
    end.
Proof. unfold stores_in. simpl. now destruct (select op). Qed.

Lemma touched_load mem result : touched [(mem, Some result)] = {[mem]} ∪ {[result]}.
Proof.
  unfold touched. simpl. apply set_eq. intros x.
  rewrite !elem_of_union, !elem_of_empty. tauto.
Qed.

Lemma touched_store mem : touched [(mem, None)] = {[mem]}.
Proof.
  unfold touched. simpl. apply set_eq. intros x.
  rewrite !elem_of_union, !elem_of_empty. tauto.
Qed.

Lemma foldM_loads_run rv (select : Op -> option (Value * Value)) prefix ops :
  forall st g order,
    captured_in order (fst st) (dom (valueNameMap g)) ->
    exists st' g',
      foldM (fun st op => match select op with
                          | Some (mem, result) =>
                              c <- capture (Some rv) mem (fst st) ;;
                              n <- nameResult (Some rv) prefix "" (snd st) result ;;
                              ret (c, n)
                          | None => ret st
                          end) st ops g = Ok (st', g') /\
      valueNameMap g ⊆ valueNameMap g' /\
      dom (valueNameMap g') = dom (valueNameMap g) ∪ touched (loads_in select ops) /\
      captured_in (order ++ scan (dom (valueNameMap g)) (loads_in select ops))
                  (fst st') (dom (valueNameMap g')).
Proof.
  induction ops as [|op ops IH]; intros st g order Hinv.
  - exists st, g. split; [reflexivity|]. split; [reflexivity|].
    unfold loads_in. simpl. rewrite touched_nil, app_nil_r, union_empty_r_L.
    now split.
  - rewrite foldM_cons, loads_in_cons. destruct (select op) as [[mem result]|].
    + destruct (capture_run rv mem (fst st) g order Hinv) as (c & g1 & E1 & S1 & D1 & I1).
      destruct (nameResult_run rv prefix "" (snd st) result g1) as (g2 & E2 & N2).
      assert (D2 : dom (valueNameMap g2)
                   = touched [(mem, Some result)] ∪ dom (valueNameMap g)).
      { rewrite N2, dom_define, D1, touched_load. apply set_eq. intros x.
        rewrite !elem_of_union. tauto. }
      assert (I2 : captured_in
                     (order ++ if decide (mem ∈ dom (valueNameMap g)) then [] else [mem])
                     c (dom (valueNameMap g2))).
      { eapply captured_in_mono; [|exact I1]. rewrite N2, dom_define.
        apply union_subseteq_r. }
      destruct (IH (c, snd st + 1) g2 _ I2) as (st' & g3 & E3 & S3 & D3 & I3).
      exists st', g3. split; [|split; [|split]].
      * assert (Estep : (c <- capture (Some rv) mem (fst st) ;;
                         n <- nameResult (Some rv) prefix "" (snd st) result ;;
                         ret (c, n)) g = Ok ((c, snd st + 1), g2)).
        { rewrite (bind_Ok _ _ _ _ _ E1), (bind_Ok _ _ _ _ _ E2). reflexivity. }
        rewrite (bind_Ok _ _ _ _ _ Estep). exact E3.
      * etrans; [exact S1|]. etrans; [|exact S3]. rewrite N2. apply define_subseteq.
      * rewrite touched_cons, D3, D2. apply set_eq. intros x.
        rewrite !elem_of_union. tauto.
      * rewrite D2 in I3. rewrite <- app_assoc in I3. rewrite scan_cons.
        destruct (decide (mem ∈ dom (valueNameMap g))); exact I3.
    + apply IH, Hinv.
Qed.

Lemma foldM_stores_run rv (select : Op -> option Value) ops :
  forall c g order,
    captured_in order c (dom (valueNameMap g)) ->
    exists c' g',
      foldM (fun c op => match select op with
                         | Some mem => capture (Some rv) mem c
                         | None => ret c
                         end) c ops g = Ok (c', g') /\
      valueNameMap g ⊆ valueNameMap g' /\
      dom (valueNameMap g') = dom (valueNameMap g) ∪ touched (stores_in select ops) /\
      captured_in (order ++ scan (dom (valueNameMap g)) (stores_in select ops)) c'
                  (dom (valueNameMap g')).
Proof.
  induction ops as [|op ops IH]; intros c g order Hinv.
  - exists c, g. split; [reflexivity|]. split; [reflexivity|].
    unfold stores_in. simpl. rewrite touched_nil, app_nil_r, union_empty_r_L.
    now split.
  - rewrite foldM_cons, stores_in_cons. destruct (select op) as [mem|].
    + destruct (capture_run rv mem c g order Hinv) as (c1 & g1 & E1 & S1 & D1 & I1).
      assert (D1' : dom (valueNameMap g1)
                    = touched [(mem, None)] ∪ dom (valueNameMap g)).
      { now rewrite D1, touched_store. }
      destruct (IH c1 g1 _ I1) as (c' & g2 & E2 & S2 & D2 & I2).
      exists c', g2. split; [|split; [|split]].
      * rewrite (bind_Ok _ _ _ _ _ E1). exact E2.
      * etrans; [exact S1|exact S2].
      * rewrite touched_cons, D2, D1'. apply set_eq. intros x.
        rewrite !elem_of_union. tauto.
      * rewrite D1' in I2. rewrite <- app_assoc in I2. rewrite scan_cons.
        destruct (decide (mem ∈ dom (valueNameMap g))); exact I2.
    + apply IH, Hinv.
Qed.

Lemma gset_union_comm (a b : gset Value) : a ∪ b = b ∪ a.
Proof. apply set_eq. intros x. rewrite !elem_of_union. tauto. Qed.

Lemma collectCaptures_run rv node g :
  exists c g',
    collectCaptures (Some rv) node g = Ok (c, g') /\
    valueNameMap g ⊆ valueNameMap g' /\
    captured_in (scan (dom (valueNameMap g)) (accesses node)) c
                (dom (valueNameMap g')).
Proof.
  unfold collectCaptures, walkLoads, walkStores.
  destruct (foldM_loads_run rv vectorLoadAccess "vec" (walk node) (mkCaptures 0 ∅, 0) g []
              (captured_in_empty _)) as (st1 & g1 & E1 & S1 & D1 & I1).
  destruct (foldM_loads_run rv affineLoadAccess "R" (walk node) (fst st1, 0) g1 _ I1)
    as (st2 & g2 & E2 & S2 & D2 & I2).
  destruct (foldM_loads_run rv loadAccess "R" (walk node) st2 g2 _ I2)
    as (st3 & g3 & E3 & S3 & D3 & I3).
  destruct (foldM_stores_run rv affineStoreMemref (walk node) (fst st3) g3 _ I3)
    as (c4 & g4 & E4 & S4 & D4 & I4).
  destruct (foldM_stores_run rv vectorStoreMemref (walk node) c4 g4 _ I4)
    as (c5 & g5 & E5 & S5 & D5 & I5).
  exists c5, g5. split; [|split].
  - rewrite (bind_Ok _ _ _ _ _ E1), (bind_Ok _ _ _ _ _ E2), (bind_Ok _ _ _ _ _ E3),
      (bind_Ok _ _ _ _ _ E4). exact E5.
  - etrans; [exact S1|]. etrans; [exact S2|]. etrans; [exact S3|].
    etrans; [exact S4|exact S5].
  - unfold accesses, loadsOf, storesOf. rewrite !scan_app.
    simpl in I5. rewrite D4, D3, D2, D1 in I5. rewrite <- !app_assoc in I5.
    repeat match goal with
           | |- context [scan (touched ?a ∪ ?b)] =>
               rewrite (gset_union_comm (touched a) b)
           end.
    exact I5.
Qed.

(** ** The final sort *)

Lemma sorted_before_le outsidesVars a b :
  cmp_outsidesVars outsidesVars b a = false <->
  id_of outsidesVars a <= id_of outsidesVars b.
Proof. unfold cmp_outsidesVars, id_of. rewrite Z.ltb_ge. reflexivity. Qed.

Lemma StronglySorted_by_position (R : relation Value) (idx : Value -> Z) order :
  (forall a b, idx a <= idx b -> R a b) ->
  forall k,
    (forall (n : nat) v, order !! n = Some v -> idx v = k + Z.of_nat n) ->
    StronglySorted R order.
Proof.
  intros HR. induction order as [|a order IH]; intros k H; constructor.
  - apply (IH (k + 1)). intros n v Hn.
    rewrite (H (S n) v Hn). lia.
  - apply Forall_lookup. intros n v Hn. apply HR.
    rewrite (H 0%nat a eq_refl), (H (S n) v Hn). lia.
Qed.

Lemma captured_in_id_of order c named (n : nat) v :
  captured_in order c named -> order !! n = Some v ->
  id_of (outsidesVars c) v = Z.of_nat n.
Proof.
  intros (Hout & _) Hn. unfold id_of.
  assert (H : outsidesVars c !! v = Some (Z.of_nat n)).
  { apply Hout. split; [lia|]. now rewrite Nat2Z.id. }
  now rewrite H.
Qed.

Lemma captured_in_keys order c named :
  captured_in order c named -> map fst (map_to_list (outsidesVars c)) ≡ₚ order.
Proof.
  intros Hinv. pose proof Hinv as (Hout & _ & Hnd & _).
  apply NoDup_Permutation; [apply NoDup_fst_map_to_list|assumption|].
  intros v. split.
  - intros Hv. apply list_elem_of_fmap in Hv as ([v' i] & -> & Hv).
    apply elem_of_map_to_list in Hv. apply Hout in Hv as [_ Hv].
    eapply list_elem_of_lookup_2, Hv.
  - intros Hv. apply list_elem_of_lookup in Hv as [n Hn].
    apply list_elem_of_fmap. exists (v, Z.of_nat n). split; [reflexivity|].
    apply elem_of_map_to_list, Hout. split; [lia|]. now rewrite Nat2Z.id.
Qed.

(** Whatever order the map hands out its entries in, the sort returns the
    captured values by increasing [id]. *)
Lemma std_sort_captured iterate order c named :
  enumerates iterate -> captured_in order c named ->
  std_sort (cmp_outsidesVars (outsidesVars c)) (map fst (iterate (outsidesVars c)))
  = order.
Proof.
  intros Hit Hinv. unfold std_sort.
  set (R := fun a b : Value => cmp_outsidesVars (outsidesVars c) b a = false).
  set (D := fun a b : Value =>
              decide (cmp_outsidesVars (outsidesVars c) b a = false)).
  change (@merge_sort Value R D (map fst (iterate (outsidesVars c))) = order).
  assert (HR : forall a b, R a b <-> id_of (outsidesVars c) a <= id_of (outsidesVars c) b)
    by (intros; apply sorted_before_le).
  assert (Htrans : Transitive R).
  { intros x y z. rewrite !HR. lia. }
  assert (Htotal : Total R).
  { intros x y. rewrite !HR. lia. }
  assert (Hperm : @merge_sort Value R D (map fst (iterate (outsidesVars c))) ≡ₚ order).
  { rewrite (@merge_sort_Permutation Value R D).
    etrans; [|eapply captured_in_keys, Hinv].
    apply fmap_Permutation, Hit. }
  apply (StronglySorted_unique_strong R).
  - intros x1 x2 H1 H2 H12 H21. apply HR in H12, H21.
    rewrite Hperm in H1.
    apply list_elem_of_lookup in H1 as [n1 Hn1], H2 as [n2 Hn2].
    rewrite (captured_in_id_of _ _ _ _ _ Hinv Hn1),
            (captured_in_id_of _ _ _ _ _ Hinv Hn2) in H12, H21.
    assert (n1 = n2) by lia. subst. congruence.
  - apply (@StronglySorted_merge_sort Value R D); assumption.
  - apply (StronglySorted_by_position R (id_of (outsidesVars c)) order) with (k := 0).
    + intros a b. apply HR.
    + intros n v Hn. rewrite (captured_in_id_of _ _ _ _ _ Hinv Hn). lia.
  - exact Hperm.
Qed.

(** The state the naming pass leaves, and the list it returns. *)
Lemma collectVars_captures rv iterate node g :
  at_most_3d node ->
  exists c g',
    collectVars (Some rv) iterate node g
    = Ok (std_sort (cmp_outsidesVars (outsidesVars c))
                   (map fst (iterate (outsidesVars c))), g') /\
    captured_in (scan (dom (valueNameMap g) ∪ list_to_set (named_before_accesses node))
                      (accesses node))
                c (dom (valueNameMap g')) /\
    define_all (valueNameMap g) (index_names node) ⊆ valueNameMap g' /\
    dom (valueNameMap g) ∪ list_to_set (named_before_accesses node)
      ⊆ dom (valueNameMap g').
Proof.
  intros H3. unfold collectVars.
  destruct (index_names_run rv node g H3) as (g0 & g1 & E0 & E1 & N1).
  destruct (walkNames_run rv forInductionVar "iter" "" node 0 g1) as (? & g2 & E2 & S2 & D2).
  destruct (walkNames_run rv applyResult "expr" "" node 0 g2) as (? & g3 & E3 & S3 & D3).
  destruct (walkNames_run rv allocResult "array" "" node 0 g3) as (? & g4 & E4 & S4 & D4).
  destruct (collectCaptures_run rv node g4) as (c & g5 & E5 & S5 & I5).
  destruct (walkNames_run rv constantIndexResult "const" "th" node 0 g5)
    as (k1 & g6 & E6 & S6 & _).
  destruct (walkNames_run rv constantFloatResult "const" "th" node k1 g6)
    as (k2 & g7 & E7 & S7 & _).
  destruct (walkNames_run rv constantIntResult "const" "th" node k2 g7)
    as (k3 & g8 & E8 & S8 & _).
  destruct (walkNames_run rv mulResult "temp" "" node 0 g8) as (t1 & h1 & F1 & T1 & _).
  destruct (walkNames_run rv addResult "temp" "" node t1 h1) as (t2 & h2 & F2 & T2 & _).
  destruct (walkNames_run rv maxResult "temp" "" node t2 h2) as (t3 & h3 & F3 & T3 & _).
  destruct (walkNames_run rv subResult "temp" "" node t3 h3) as (t4 & h4 & F4 & T4 & _).
  destruct (walkNames_run rv divResult "temp" "" node t4 h4) as (t5 & h5 & F5 & T5 & _).
  destruct (walkNames_run rv expResult "temp" "" node t5 h5) as (t6 & h6 & F6 & T6 & _).
  destruct (walkNames_run rv powResult "temp" "" node t6 h6) as (t7 & h7 & F7 & T7 & _).
  destruct (walkNames_run rv cmpResult "temp" "" node t7 h7) as (t8 & h8 & F8 & T8 & _).
  destruct (walkNames_run rv tanhResult "temp" "" node t8 h8) as (t9 & h9 & F9 & T9 & _).
  destruct (walkNames_run rv sqrtResult "temp" "" node t9 h9) as (t10 & h10 & F10 & T10 & _).
  destruct (walkNames_run rv logResult "temp" "" node t10 h10)
    as (t11 & h11 & F11 & T11 & _).
  destruct (walkNames_run rv bitcastResult "temp" "" node t11 h11)
    as (t12 & h12 & F12 & T12 & _).
  destruct (walkNames_run rv shuffleResult "temp" "" node t12 h12)
    as (t13 & h13 & F13 & T13 & _).
  assert (Hall : valueNameMap g5 ⊆ valueNameMap h13).
  { do 3 (etrans; [eassumption|]). do 12 (etrans; [eassumption|]). assumption. }
  assert (Hdom : dom (valueNameMap g) ∪ list_to_set (named_before_accesses node)
                 = dom (valueNameMap g4)).
  { rewrite D4, D3, D2, N1, dom_define_all. unfold named_before_accesses.
    rewrite !list_to_set_app_L. apply set_eq. intros elt.
    rewrite !elem_of_union. tauto. }
  exists c, h13. split; [|split; [|split]].
  - rewrite (bind_Ok _ _ _ _ _ E0), (bind_Ok _ _ _ _ _ E1).
    rewrite (bind_Ok _ _ _ _ _ E2), (bind_Ok _ _ _ _ _ E3), (bind_Ok _ _ _ _ _ E4),
      (bind_Ok _ _ _ _ _ E5), (bind_Ok _ _ _ _ _ E6), (bind_Ok _ _ _ _ _ E7),
      (bind_Ok _ _ _ _ _ E8), (bind_Ok _ _ _ _ _ F1), (bind_Ok _ _ _ _ _ F2),
      (bind_Ok _ _ _ _ _ F3), (bind_Ok _ _ _ _ _ F4), (bind_Ok _ _ _ _ _ F5),
      (bind_Ok _ _ _ _ _ F6), (bind_Ok _ _ _ _ _ F7), (bind_Ok _ _ _ _ _ F8),
      (bind_Ok _ _ _ _ _ F9), (bind_Ok _ _ _ _ _ F10), (bind_Ok _ _ _ _ _ F11),
      (bind_Ok _ _ _ _ _ F12), (bind_Ok _ _ _ _ _ F13).
    reflexivity.
  - eapply captured_in_mono; [apply subseteq_dom, Hall|].
    rewrite Hdom. exact I5.
  - rewrite <- N1. do 4 (etrans; [eassumption|]). assumption.
  - rewrite Hdom. apply subseteq_dom. etrans; [exact S5|exact Hall].
Qed.

Lemma collectVars_run rv iterate node g :
  enumerates iterate -> at_most_3d node ->
  exists g',
    collectVars (Some rv) iterate node g
    = Ok (scan (dom (valueNameMap g) ∪ list_to_set (named_before_accesses node))
               (accesses node), g') /\
    define_all (valueNameMap g) (index_names node) ⊆ valueNameMap g' /\
    dom (valueNameMap g) ∪ list_to_set (named_before_accesses node)
      ⊆ dom (valueNameMap g').
Proof.
  intros Hit H3.
  destruct (collectVars_captures rv iterate node g H3) as (c & g' & E & I & S).
  exists g'. split; [|exact S].
  now rewrite E, (std_sort_captured _ _ _ _ Hit I).
Qed.

(** A run of the naming pass that returns has met no [affine.parallel] with
    more than three induction variables. *)
Lemma vector_at_int3str_inv (n : nat) g s g' :
  vector_at int3str (Z.of_nat n) g = Ok (s, g') -> (n < 3)%nat.
Proof.
  unfold vector_at. destruct (Z.ltb_spec (Z.of_nat n) 0); [discriminate|].
  rewrite Nat2Z.id. destruct n as [|[|[|n]]]; try lia. discriminate.
Qed.

Lemma nameParallel_inv missingReturn prefix op g g' :
  nameParallel missingReturn prefix op g = Ok (tt, g') ->
  forall IVs body, op = AffineParallelOp IVs body -> (length IVs <= 3)%nat.
Proof.
  intros H IVs body ->. simpl in H. destruct IVs as [|v IVs]; [simpl; lia|].
  simpl in H. apply bind_inv in H as (s & g1 & H & _).
  apply vector_at_int3str_inv in H. simpl in *. lia.
Qed.

Lemma forM_nameParallel_inv missingReturn prefix ops : forall g g',
  forM_ ops (nameParallel missingReturn prefix) g = Ok (tt, g') ->
  forall IVs body, AffineParallelOp IVs body ∈ ops -> (length IVs <= 3)%nat.
Proof.
  induction ops as [|op ops IH]; intros g g' H IVs body Hin.
  - inversion Hin.
  - rewrite forM_cons in H. apply bind_inv in H as ([] & g1 & H1 & H2).
    apply elem_of_cons in Hin as [<-|Hin].
    + eapply nameParallel_inv; [exact H1|reflexivity].
    + eapply IH; eassumption.
Qed.

Lemma collectVars_Ok_at_most_3d missingReturn iterate node g captured g' :
  collectVars missingReturn iterate node g = Ok (captured, g') -> at_most_3d node.
Proof.
  unfold collectVars. intros H.
  apply bind_inv in H as ([] & g1 & H1 & H).
  apply bind_inv in H as ([] & g2 & H2 & _).
  intros IVs body Hin. rewrite walk_head in Hin.
  apply elem_of_cons in Hin as [<-|Hin].
  - eapply nameParallel_inv; [exact H1|reflexivity].
  - eapply forM_nameParallel_inv; eassumption.
Qed.

(** ** A run that returns, in whatever build

    A run of the naming pass that returns in some build returns alike in
    every build in which [setValueName] comes back to its caller: either
    the run stored no name, or it was such a build already, and no caller
    reads what [setValueName] returns. *)

Lemma returns_alike_refl {A} (c : M A) : returns_alike c c.
Proof. now intros g r H. Qed.

Lemma returns_alike_bind {A B} (c1 c2 : M A) (k1 k2 : A -> M B) :
  returns_alike c1 c2 -> (forall a, returns_alike (k1 a) (k2 a)) ->
  returns_alike (bind c1 k1) (bind c2 k2).
Proof.
  intros Hc Hk g [b g'] H. apply bind_inv in H as (a & g1 & H1 & H2).
  rewrite (bind_Ok _ _ _ _ _ (Hc _ _ H1)). now apply Hk.
Qed.

Lemma returns_alike_forM {A} (f1 f2 : A -> M unit) l :
  (forall x, returns_alike (f1 x) (f2 x)) ->
  returns_alike (forM_ l f1) (forM_ l f2).
Proof.
  intros Hf. induction l as [|x l IH]; [apply returns_alike_refl|].
  rewrite !forM_cons. apply returns_alike_bind; [apply Hf|now intros _].
Qed.

Lemma returns_alike_foldM {A S} (f1 f2 : S -> A -> M S) l :
  (forall s x, returns_alike (f1 s x) (f2 s x)) ->
  forall s, returns_alike (foldM f1 s l) (foldM f2 s l).
Proof.
  intros Hf. induction l as [|x l IH]; intros s; [apply returns_alike_refl|].
  rewrite !foldM_cons. apply returns_alike_bind; [apply Hf|apply IH].
Qed.

Lemma returns_alike_setValueName {A} missingReturn rv v name (k1 k2 : M A) :
  returns_alike k1 k2 ->
  returns_alike (setValueName missingReturn v name ;;; k1)
                (setValueName (Some rv) v name ;;; k2).
Proof.
  intros Hk g r. unfold bind, setValueName.
  destruct (valueNameMap g !! v); [apply Hk|].
  destruct missingReturn; [apply Hk|discriminate].
Qed.

Lemma returns_alike_capture missingReturn rv mem c :
  returns_alike (capture missingReturn mem c) (capture (Some rv) mem c).
Proof.
  unfold capture. apply returns_alike_bind; [apply returns_alike_refl|intros named].
  destruct named; [apply returns_alike_refl|].
  destruct (outsidesVars c !! mem); [apply returns_alike_refl|].
  apply returns_alike_bind; [apply returns_alike_refl|intros name].
  apply returns_alike_setValueName, returns_alike_refl.
Qed.

Lemma returns_alike_nameResult missingReturn rv prefix suffix counter result :
  returns_alike (nameResult missingReturn prefix suffix counter result)
                (nameResult (Some rv) prefix suffix counter result).
Proof. apply returns_alike_setValueName, returns_alike_refl. Qed.

Lemma returns_alike_walkNames missingReturn rv select prefix suffix node counter :
  returns_alike (walkNames missingReturn select prefix suffix node counter)
                (walkNames (Some rv) select prefix suffix node counter).
Proof.
  apply returns_alike_foldM. intros c op.
  destruct (select op); [apply returns_alike_nameResult|apply returns_alike_refl].
Qed.

Lemma returns_alike_walkLoads missingReturn rv select prefix node st :
  returns_alike (walkLoads missingReturn select prefix node st)
                (walkLoads (Some rv) select prefix node st).
Proof.
  apply returns_alike_foldM. intros s op.
  destruct (select op) as [[mem result]|]; [|apply returns_alike_refl].
  apply returns_alike_bind; [apply returns_alike_capture|intros c].
  apply returns_alike_bind; [apply returns_alike_nameResult|intros n].
  apply returns_alike_refl.
Qed.

Lemma returns_alike_walkStores missingReturn rv select node c :
  returns_alike (walkStores missingReturn select node c)
                (walkStores (Some rv) select node c).
Proof.
  apply returns_alike_foldM. intros s op.
  destruct (select op); [apply returns_alike_capture|apply returns_alike_refl].
Qed.

Lemma returns_alike_nameIVs missingReturn rv prefix size operands : forall i,
  returns_alike (nameIVs missingReturn prefix size operands i)
                (nameIVs (Some rv) prefix size operands i).
Proof.
  induction operands as [|v rest IH]; intros i; [apply returns_alike_refl|].
  cbn [nameIVs]. apply returns_alike_bind; [apply returns_alike_refl|intros s].
  apply returns_alike_setValueName, IH.
Qed.

Lemma returns_alike_nameParallel missingReturn rv prefix op :
  returns_alike (nameParallel missingReturn prefix op)
                (nameParallel (Some rv) prefix op).
Proof.
  destruct op; try apply returns_alike_refl. apply returns_alike_nameIVs.
Qed.

Lemma returns_alike_collectCaptures missingReturn rv node :
  returns_alike (collectCaptures missingReturn node) (collectCaptures (Some rv) node).
Proof.
  unfold collectCaptures.
  do 3 (apply returns_alike_bind; [apply returns_alike_walkLoads|intros ?]).
  apply returns_alike_bind; [apply returns_alike_walkStores|intros ?].
  apply returns_alike_walkStores.
Qed.

Lemma returns_alike_collectVars missingReturn rv iterate node :
  returns_alike (collectVars missingReturn iterate node)
                (collectVars (Some rv) iterate node).
Proof.
  unfold collectVars.
  apply returns_alike_bind; [apply returns_alike_nameParallel|intros _].
  apply returns_alike_bind;
    [apply returns_alike_forM; intros op; apply returns_alike_nameParallel|intros _].
  do 3 (apply returns_alike_bind; [apply returns_alike_walkNames|intros ?]).
  apply returns_alike_bind; [apply returns_alike_collectCaptures|intros c].
  do 16 (apply returns_alike_bind; [apply returns_alike_walkNames|intros ?]).
  apply returns_alike_refl.
Qed.

(** What a returned run of [collectVars] has returned, in whatever
    build. *)
Lemma collectVars_returned missingReturn iterate node g captured g' :
  enumerates iterate ->
  collectVars missingReturn iterate node g = Ok (captured, g') ->
  at_most_3d node /\
  captured = scan (dom (valueNameMap g) ∪ list_to_set (named_before_accesses node))
                  (accesses node) /\
  define_all (valueNameMap g) (index_names node) ⊆ valueNameMap g' /\
  dom (valueNameMap g) ∪ list_to_set (named_before_accesses node)
    ⊆ dom (valueNameMap g').
Proof.
  intros Hit H.
  pose proof (collectVars_Ok_at_most_3d _ _ _ _ _ _ H) as H3.
  apply (returns_alike_collectVars _ true) in H.
  destruct (collectVars_run true iterate node g Hit H3) as (g'' & E & S & D).
  rewrite E in H. injection H as <- <-. auto.
Qed.

(** C10.  Whenever [collectVars] returns, in whatever build, the result
    of an [AllocOp] of the kernel has a name and is not among the values
    returned, and every value returned had no name before the pass: the
    allocations are named before the accesses are walked, and an access
    captures its memref only when it has no name. *)
Theorem alloc_results_not_captured missingReturn iterate node g captured g' result :
  enumerates iterate ->
  collectVars missingReturn iterate node g = Ok (captured, g') ->
  AllocOp result ∈ walk node ->
  (result ∉ captured) /\
  is_Some (valueNameMap g' !! result) /\
  (forall v, v ∈ captured ->
     valueNameMap g !! v = None /\ v ∈ map fst (accesses node)).
Proof.
  intros Hit Hrun Halloc.
  destruct (collectVars_returned _ _ _ _ _ _ Hit Hrun) as (_ & -> & _ & D).
  assert (Hnamed : result ∈ named_before_accesses node).
  { unfold named_before_accesses. rewrite !elem_of_app. do 3 right.
    apply list_elem_of_omap. exists (AllocOp result). now split. }
  split; [|split].
  - intros Hin. apply scan_fresh in Hin. apply Hin.
    apply elem_of_union. right. now apply elem_of_list_to_set.
  - apply elem_of_dom, D, elem_of_union. right. now apply elem_of_list_to_set.
  - intros v Hv. split; [|eapply scan_accessed, Hv].
    apply scan_fresh in Hv. apply not_elem_of_dom. intros H.
    apply Hv, elem_of_union. now left.
Qed.

(** ** Names of the parallel induction variables *)

Lemma IV_names_lookup prefix size operands : forall i0 (i : nat) v,
  operands !! i = Some v ->
  (v, prefix +:+ dimension_letter (size - (i0 + i) - 1))
    ∈ IV_names prefix size operands i0.
Proof.
  induction operands as [|v0 rest IH]; intros i0 i v H; [discriminate|].
  destruct i as [|i]; simpl in *.
  - injection H as ->. rewrite Nat.add_0_r. left.
  - right. replace (i0 + S i)%nat with (S i0 + i)%nat by lia. now apply IH.
Qed.

(** C6 (amended).  Whenever the naming pass returns for a kernel, in
    whatever build, no parallel region of the kernel has more than three
    induction variables, and when these are distinct and were not named
    before, the pass has named those of the kernel itself [blockIdx.] and
    those of every region nested in it [threadIdx.], with [x] for the last
    one, [y] for the one before it and [z] for the one before that. *)
Theorem parallel_induction_variables_named
    missingReturn iterate IVs body g captured g' :
  enumerates iterate ->
  collectVars missingReturn iterate (AffineParallelOp IVs body) g = Ok (captured, g') ->
  at_most_3d (AffineParallelOp IVs body) /\
  (NoDup (map fst (index_names (AffineParallelOp IVs body))) ->
   (forall v, v ∈ map fst (index_names (AffineParallelOp IVs body)) ->
              valueNameMap g !! v = None) ->
   (forall (i : nat) v,
      IVs !! i = Some v ->
      valueNameMap g' !! v
      = Some ("blockIdx." +:+ dimension_letter (length IVs - i - 1))) /\
   (forall IVs' body' (i : nat) v,
      AffineParallelOp IVs' body' ∈ tail (walk (AffineParallelOp IVs body)) ->
      IVs' !! i = Some v ->
      valueNameMap g' !! v
      = Some ("threadIdx." +:+ dimension_letter (length IVs' - i - 1)))).
Proof.
  intros Hit Hrun.
  destruct (collectVars_returned _ _ _ _ _ _ Hit Hrun) as (H3 & _ & S & _).
  split; [exact H3|]. intros Hnd Hfresh.
  assert (Hname : forall v n,
            (v, n) ∈ index_names (AffineParallelOp IVs body) ->
            valueNameMap g' !! v = Some n).
  { intros v n Hin. eapply lookup_weaken; [|exact S].
    apply define_all_fresh; [assumption..|].
    apply Hfresh. apply list_elem_of_fmap. now exists (v, n). }
  split.
  - intros i v Hi. apply Hname. unfold index_names. apply elem_of_app. left.
    apply (IV_names_lookup "blockIdx." (length IVs) IVs 0 i v Hi).
  - intros IVs' body' i v Hin Hi. apply Hname. unfold index_names.
    apply elem_of_app. right. apply list_elem_of_In, in_concat.
    exists (parallel_names "threadIdx." (AffineParallelOp IVs' body')). split.
    + apply in_map, list_elem_of_In, Hin.
    + apply list_elem_of_In.
      apply (IV_names_lookup "threadIdx." (length IVs') IVs' 0 i v Hi).
Qed.

(** ** The kernel prototype *)

Lemma same_tables_refl g : same_tables g g.
Proof. now repeat split. Qed.

Lemma same_tables_trans g1 g2 g3 :
  same_tables g1 g2 -> same_tables g2 g3 -> same_tables g1 g3.
Proof. intros (a & b & c) (a' & b' & c'). repeat split; congruence. Qed.

Lemma same_tables_varDeclear getType var : preserves same_tables (varDeclear getType var).
Proof.
  assert (Hemit : forall s, preserves same_tables (emit s)).
  { intros s g a g' [= _ <-]. now repeat split. }
  assert (Hname : forall v, preserves same_tables (getValueName v)).
  { intros v g a g' H. apply quiet_getValueName in H. destruct H as (_ & H). exact H. }
  unfold varDeclear.
  destruct (getType var) as [| | | | |elementType dims memorySpace| |];
    try apply preserves_fail.
  apply preserves_bind; [exact same_tables_trans| |intros _].
  { destruct memorySpace; (apply Hemit || apply preserves_ret, same_tables_refl). }
  apply preserves_bind; [exact same_tables_trans| |intros _].
  { destruct (toCStr elementType); [apply Hemit|apply preserves_fail]. }
  apply preserves_bind; [exact same_tables_trans|apply Hname|intros varName].
  destruct memorySpace; try apply Hemit;
    (apply preserves_bind; [exact same_tables_trans|apply Hemit|intros _];
     apply preserves_forM; [exact same_tables_refl|exact same_tables_trans|];
     intros d _; apply Hemit).
Qed.

Lemma varDeclear_run getType var text g :
  declaration getType (valueNameMap g) var = Some text ->
  exists g', varDeclear getType var g = Ok (tt, g') /\ wrote text g g'.
Proof.
  unfold declaration. intros H.
  pose proof (sim_varDeclear false getType var (blank (valueNameMap g)) g) as S.
  specialize (S ltac:(split; [reflexivity|discriminate])).
  destruct (varDeclear getType var (blank (valueNameMap g))) as [[[] gb]|];
    [|discriminate].
  injection H as H.
  destruct (varDeclear getType var g) as [[[] g']|] eqn:E; [|contradiction].
  destruct S as (_ & _ & t & Hb & Hg).
  assert (Ht : t = text) by (rewrite <- H, Hb; reflexivity). subst t.
  exists g'. split; [reflexivity|].
  apply same_tables_varDeclear in E as (Hn & Hk & Hv). now repeat split.
Qed.

Lemma concat_cons_sep sep d ds :
  String.concat sep (d :: ds)
  = d +:+ fold_right (fun d' rest => sep +:+ d' +:+ rest) "" ds.
Proof.
  revert d. induction ds as [|d' ds IH]; intros d.
  - simpl. now rewrite append_nil_r.
  - change (String.concat sep (d :: d' :: ds))
      with (d +:+ sep +:+ String.concat sep (d' :: ds)).
    rewrite IH. cbn [fold_right]. rewrite ?append_assoc. reflexivity.
Qed.

Lemma forM_declarations_run getType vars : forall decls g,
  Forall2 (fun v d => declaration getType (valueNameMap g) v = Some d) vars decls ->
  exists g',
    forM_ vars (fun v => emit ", " ;;; varDeclear getType v) g = Ok (tt, g') /\
    wrote (fold_right (fun d' rest => ", " +:+ d' +:+ rest) "" decls) g g'.
Proof.
  induction vars as [|v vars IH]; intros decls g H.
  - inversion H; subst. exists g. split; [reflexivity|].
    apply wrote_quiet, quiet_refl.
  - inversion H as [|? d ? ds Hd Hrest]; subst.
    destruct (wrote_emit ", " g) as (g1 & E1 & W1).
    assert (N1 : valueNameMap g1 = valueNameMap g) by apply W1.
    rewrite <- N1 in Hd.
    destruct (varDeclear_run _ _ _ _ Hd) as (g2 & E2 & W2).
    assert (N2 : valueNameMap g2 = valueNameMap g).
    { rewrite <- N1. apply W2. }
    rewrite <- N2 in Hrest.
    destruct (IH _ _ Hrest) as (g3 & E3 & W3).
    exists g3. split.
    + rewrite forM_cons.
      assert (Estep : (emit ", " ;;; varDeclear getType v) g = Ok (tt, g2)).
      { now rewrite (bind_Ok _ _ _ _ _ E1). }
      rewrite (bind_Ok _ _ _ _ _ Estep). exact E3.
    + pose proof (wrote_trans _ _ _ _ _ (wrote_trans _ _ _ _ _ W1 W2) W3) as W.
      simpl. rewrite !append_assoc in W. exact W.
Qed.

Lemma prototype_run getType ci vars decls g :
  vars <> [] ->
  Forall2 (fun v d => declaration getType (valueNameMap g) v = Some d) vars decls ->
  exists g',
    prototype getType ci vars g = Ok (tt, g') /\
    source g' = source g +:+ spaces (Z.to_nat ci) +:+ "__global__ void kernel"
                +:+ to_string (kernelCounter g) +:+ "("
                +:+ String.concat ", " decls +:+ ") {" +:+ nl.
Proof.
  intros Hne H. destruct H as [|v d vars decls Hd Hrest]; [contradiction|].
  unfold prototype.
  destruct (wrote_emit (spaces (Z.to_nat ci)) g) as (g1 & E1 & W1).
  set (g2 := mkGlobals (source g1) (errs g1) (valueNameMap g1) (kernelCounter g1 + 1)
                       (varCounter g1)).
  assert (E2 : getKernelName g1 = Ok ("kernel" +:+ to_string (kernelCounter g1), g2))
    by reflexivity.
  destruct (wrote_emit ("__global__ void " +:+ ("kernel" +:+ to_string (kernelCounter g1))
                        +:+ "(") g2) as (g3 & E3 & W3).
  assert (N3 : valueNameMap g3 = valueNameMap g).
  { destruct W1 as (_ & H1 & _), W3 as (_ & H3 & _). rewrite H3. exact H1. }
  rewrite <- N3 in Hd, Hrest.
  destruct (varDeclear_run _ _ _ _ Hd) as (g4 & E4 & W4).
  assert (N4 : valueNameMap g4 = valueNameMap g3) by apply W4.
  rewrite <- N4 in Hrest.
  destruct (forM_declarations_run _ _ _ _ Hrest) as (g5 & E5 & W5).
  destruct (wrote_emit (") {" +:+ nl) g5) as (g6 & E6 & W6).
  exists g6. split.
  - unfold indent. rewrite (bind_Ok _ _ _ _ _ E1), (bind_Ok _ _ _ _ _ E2),
      (bind_Ok _ _ _ _ _ E3).
    rewrite (bind_Ok _ _ _ _ _ (vector_at_Some (v :: vars) 0 v g3 ltac:(lia) eq_refl)).
    rewrite (bind_Ok _ _ _ _ _ E4). simpl tail.
    rewrite (bind_Ok _ _ _ _ _ E5). exact E6.
  - pose proof (wrote_trans _ _ _ _ _ (wrote_trans _ _ _ _ _
                 (wrote_trans _ _ _ _ _ W3 W4) W5) W6) as (Hs & _).
    rewrite Hs. simpl source. destruct W1 as (-> & _ & -> & _).
    rewrite concat_cons_sep, !append_assoc. reflexivity.
Qed.

Lemma scan_first_part named a b m1 m2 :
  m1 ∈ map fst a -> m2 ∉ map fst a ->
  m1 ∈ scan named (a ++ b) -> m2 ∈ scan named (a ++ b) ->
  exists i j : nat,
    scan named (a ++ b) !! i = Some m1 /\ scan named (a ++ b) !! j = Some m2 /\
    (i < j)%nat.
Proof.
  intros H1 H2. rewrite scan_app, !elem_of_app. intros [Hm1|Hm1] [Hm2|Hm2].
  - exfalso. apply H2. eapply scan_accessed, Hm2.
  - apply list_elem_of_lookup in Hm1 as [i Hi], Hm2 as [j Hj].
    exists i, (length (scan named a) + j)%nat. split; [|split].
    + rewrite lookup_app_l; [exact Hi|]. eapply lookup_lt_Some, Hi.
    + rewrite lookup_app_r by lia.
      now replace (length (scan named a) + j - length (scan named a))%nat with j by lia.
    + apply lookup_lt_Some in Hi. lia.
  - exfalso. apply H2. eapply scan_accessed, Hm2.
  - exfalso. apply scan_fresh in Hm1. apply Hm1, elem_of_union. left.
    unfold touched. apply elem_of_union. left. now apply elem_of_list_to_set.
Qed.

Lemma vector_load_accessed node result memref exprs operands :
  AffineVectorLoadOp result memref exprs operands ∈ walk node ->
  memref ∈ map fst (loadsOf vectorLoadAccess node).
Proof.
  intros H. apply list_elem_of_fmap. exists (memref, Some result). split; [reflexivity|].
  unfold loadsOf, loads_in. apply list_elem_of_omap.
  exists (AffineVectorLoadOp result memref exprs operands). now split.
Qed.

Lemma not_vector_load_accessed node memref :
  (forall result exprs operands,
     AffineVectorLoadOp result memref exprs operands ∉ walk node) ->
  memref ∉ map fst (loadsOf vectorLoadAccess node).
Proof.
  intros H Hin. apply list_elem_of_fmap in Hin as ([m r] & -> & Hin).
  unfold loadsOf, loads_in in Hin. apply list_elem_of_omap in Hin as (op & Hop & Hsel).
  destruct op; try discriminate. simpl in Hsel. injection Hsel as <- _.
  eapply H, Hop.
Qed.

(** C2 (amended).  Whenever [collectVars] returns, in whatever build, the
    values it returns are the memrefs met without a name, in the order of
    first encounter over five pre-order walks: vector loads, affine loads,
    [memref.load]s, affine stores, vector stores; the prototype declares
    them in that order, so a memref first met in a vector load comes
    before one that no vector load reads. *)
Theorem captured_in_first_encounter_order
    missingReturn iterate getType node g captured g' :
  enumerates iterate ->
  collectVars missingReturn iterate node g = Ok (captured, g') ->
  captured = scan (dom (valueNameMap g) ∪ list_to_set (named_before_accesses node))
                  (accesses node) /\
  (forall ci gk decls,
     valueNameMap gk = valueNameMap g' ->
     captured <> [] ->
     Forall2 (fun v d => declaration getType (valueNameMap g') v = Some d)
             captured decls ->
     exists gp,
       prototype getType ci captured gk = Ok (tt, gp) /\
       source gp = source gk +:+ spaces (Z.to_nat ci) +:+ "__global__ void kernel"
                   +:+ to_string (kernelCounter gk) +:+ "("
                   +:+ String.concat ", " decls +:+ ") {" +:+ nl) /\
  (forall M1 M2 result exprs operands,
     AffineVectorLoadOp result M1 exprs operands ∈ walk node ->
     (forall result' exprs' operands',
        AffineVectorLoadOp result' M2 exprs' operands' ∉ walk node) ->
     M1 ∈ captured -> M2 ∈ captured ->
     exists i j : nat,
       captured !! i = Some M1 /\ captured !! j = Some M2 /\ (i < j)%nat).
Proof.
  intros Hit Hrun.
  destruct (collectVars_returned _ _ _ _ _ _ Hit Hrun) as (_ & Hc & _).
  split; [exact Hc|]. split.
  - intros ci gk decls Hn Hne Hd. rewrite <- Hn in Hd.
    now apply prototype_run.
  - intros M1 M2 result exprs operands H1 H2. rewrite Hc. unfold accesses.
    apply scan_first_part.
    + eapply vector_load_accessed, H1.
    + now apply not_vector_load_accessed.
Qed.

(** ** Two runs of the whole generator *)

Lemma sim_nameResult missingReturn strict prefix suffix counter result :
  sim strict (nameResult missingReturn prefix suffix counter result)
             (nameResult missingReturn prefix suffix counter result).
Proof. unfold nameResult. sim_go. Qed.

Lemma sim_capture missingReturn mem c :
  sim true (capture missingReturn mem c) (capture missingReturn mem c).
Proof. unfold capture. sim_go. Qed.

#[export] Hint Resolve sim_nameResult sim_capture : sim_db.

Lemma sim_walkNames missingReturn strict select prefix suffix node counter :
  sim strict (walkNames missingReturn select prefix suffix node counter)
             (walkNames missingReturn select prefix suffix node counter).
Proof. unfold walkNames. sim_go. Qed.

Lemma sim_nameIVs missingReturn strict prefix size operands : forall i,
  sim strict (nameIVs missingReturn prefix size operands i)
    (nameIVs missingReturn prefix size operands i).
Proof. induction operands as [|v rest IH]; intros i; simpl; sim_go. Qed.

#[export] Hint Resolve sim_walkNames sim_nameIVs : sim_db.

Lemma sim_nameParallel missingReturn strict prefix op :
  sim strict (nameParallel missingReturn prefix op) (nameParallel missingReturn prefix op).
Proof. unfold nameParallel. sim_go. Qed.

Lemma sim_collectCaptures missingReturn node :
  sim true (collectCaptures missingReturn node) (collectCaptures missingReturn node).
Proof. unfold collectCaptures, walkLoads, walkStores. sim_go. Qed.

#[export] Hint Resolve sim_nameParallel sim_collectCaptures : sim_db.

Lemma sim_collectVars missingReturn iterate1 iterate2 node :
  enumerates iterate1 -> enumerates iterate2 ->
  sim true (collectVars missingReturn iterate1 node) (collectVars missingReturn iterate2 node).
Proof.
  intros H1 H2. unfold collectVars.
  do 5 (apply sim_bind; [sim_go|intros ?]).
  apply (sim_bind_post true (fun c => exists order named, captured_in order c named)).
  - sim_go.
  - intros g c g' E. apply (returns_alike_collectCaptures _ true) in E.
    destruct (collectCaptures_run true node g) as (c' & g'' & E' & _ & I).
    rewrite E' in E. injection E as <- _. eauto.
  - intros c (order & named & I).
    do 16 (apply sim_bind; [sim_go|intros ?]).
    rewrite (std_sort_captured _ _ _ _ H1 I), (std_sort_captured _ _ _ _ H2 I).
    apply sim_ret.
Qed.

Lemma sim_prototype getType ci outsideVars :
  sim true (prototype getType ci outsideVars) (prototype getType ci outsideVars).
Proof. unfold prototype. sim_go. Qed.

Lemma sim_innerBlock strict NDEBUG getType ci innerOps :
  sim strict (innerBlock NDEBUG getType ci innerOps)
             (innerBlock NDEBUG getType ci innerOps).
Proof. unfold innerBlock. sim_go. Qed.

#[export] Hint Resolve sim_prototype sim_innerBlock : sim_db.

Lemma sim_kernelBlock strict NDEBUG getType ci ops :
  sim strict (kernelBlock NDEBUG getType ci ops) (kernelBlock NDEBUG getType ci ops).
Proof. unfold kernelBlock. sim_go. Qed.

#[export] Hint Resolve sim_kernelBlock : sim_db.

Lemma sim_codegen_AffineParallelOp
    missingReturn NDEBUG getType getParallelNumber iterate1 iterate2
    ci node :
  enumerates iterate1 -> enumerates iterate2 ->
  sim true
    (codegen_AffineParallelOp missingReturn NDEBUG getType getParallelNumber iterate1 ci node)
    (codegen_AffineParallelOp missingReturn NDEBUG getType getParallelNumber iterate2 ci node).
Proof.
  intros H1 H2. unfold codegen_AffineParallelOp.
  apply sim_bind; [now apply sim_collectVars|intros outsideVars].
  sim_go.
Qed.

Lemma sim_codegen_ModuleOp
    missingReturn NDEBUG getType getParallelNumber iterate1 iterate2 module :
  enumerates iterate1 -> enumerates iterate2 ->
  sim true
    (codegen_ModuleOp missingReturn NDEBUG getType getParallelNumber iterate1 module)
    (codegen_ModuleOp missingReturn NDEBUG getType getParallelNumber iterate2 module).
Proof.
  intros H1 H2. unfold codegen_ModuleOp, codegen_FuncOp.
  apply sim_forM_all. intros funcOp. apply sim_forM_all. intros kernel.
  destruct (isParallel kernel); [|apply sim_ret].
  now apply sim_codegen_AffineParallelOp.
Qed.

(** C8.  [CUDAGen] starts from a cleared text buffer, an empty symbol
    table and counters at zero, and nothing in it depends on the order in
    which the map of captured values hands out its entries: when a run on
    a module returns a text, a run on the same module from any other state
    and with any other enumeration, in the same build, returns the same
    text, and both end with the text in the buffer and with the same
    symbol table and counters. *)
Theorem CUDAGen_deterministic missingReturn NDEBUG getType getParallelNumber debugLog
    iterate1 iterate2 module g1 g2 text g1' :
  enumerates iterate1 -> enumerates iterate2 ->
  CUDAGen missingReturn NDEBUG getType getParallelNumber debugLog iterate1 module g1
  = Ok (text, g1') ->
  exists g2',
    CUDAGen missingReturn NDEBUG getType getParallelNumber debugLog iterate2 module g2
    = Ok (text, g2') /\
    source g1' = text /\ source g2' = text /\
    valueNameMap g2' = valueNameMap g1' /\
    kernelCounter g2' = kernelCounter g1' /\
    varCounter g2' = varCounter g1'.
Proof.
  intros H1 H2. unfold CUDAGen.
  set (include := "#include " +:+ dquote +:+ "cuda_runtime.h" +:+ dquote +:+ nl).
  set (s1 := mkGlobals include (errs g1) ∅ 0 0).
  set (s2 := mkGlobals include (errs g2) ∅ 0 0).
  assert (E1 : forall k : M string,
            (clearSource ;;; emit include ;;; CUDAGenerator ;;; k) g1 = k s1)
    by reflexivity.
  assert (E2 : forall k : M string,
            (clearSource ;;; emit include ;;; CUDAGenerator ;;; k) g2 = k s2)
    by reflexivity.
  rewrite E1, E2. clear E1 E2.
  pose proof (sim_codegen_ModuleOp missingReturn NDEBUG getType getParallelNumber
                iterate1 iterate2 module H1 H2 s1 s2) as S.
  specialize (S ltac:(split; [reflexivity|now intros _])).
  unfold bind at 1 4.
  destruct (codegen_ModuleOp missingReturn NDEBUG getType getParallelNumber iterate1
              module s1) as [[[] s1']|f1],
    (codegen_ModuleOp missingReturn NDEBUG getType getParallelNumber iterate2
       module s2) as [[[] s2']|f2]; simpl in S; try contradiction; try discriminate.
  destruct S as (_ & (Hn & Hc) & t & T1 & T2).
  destruct (Hc eq_refl) as [Hk Hv].
  unfold bind, sourceStr. rewrite T1, T2. simpl source.
  destruct debugLog; cbn [log ret]; intros [= <- <-]; eexists;
    (split; [reflexivity|]); cbn [source valueNameMap kernelCounter varCounter];
    rewrite ?T1, ?T2; auto.
Qed.

(** ** Operations a chain does not test for *)

Lemma codegen_AffineIfOp_eq NDEBUG getType ci constraints operands thenBody elseBody :
  codegen NDEBUG getType ci (AffineIfOp constraints operands thenBody elseBody)
  = (indent ci ;;;
     emit "if (" ;;;
     forM_ constraints (fun '(expr, isEq) =>
       let relation := if isEq : bool then "==" else ">=" in
       e <- codegen_AffineExpr NDEBUG expr operands ;;
       emit (e +:+ " " +:+ relation +:+ " 0 && ")) ;;;
     emit (" true) {" +:+ nl) ;;;
     ifBlock NDEBUG getType ci thenBody ;;;
     indent ci ;;;
     emit ("}" +:+ nl)).
Proof. reflexivity. Qed.

Lemma codegen_AffineForOp_eq NDEBUG getType ci inductionVar lb ub step loopAttr body :
  codegen NDEBUG getType ci (AffineForOp inductionVar lb ub step loopAttr body)
  = (iter <- getValueName inductionVar ;;
     (match loopAttr with
      | Some strAttr =>
          if String.eqb strAttr "unroll"
          then indent ci ;;; emit ("#pragma unroll" +:+ nl)
          else ret tt
      | None => ret tt
      end) ;;;
     indent ci ;;;
     emit ("for (int " +:+ iter +:+ " = " +:+ to_string lb +:+ "; "
           +:+ iter +:+ " < " +:+ to_string ub +:+ "; "
           +:+ iter +:+ " += " +:+ to_string step +:+ ") {" +:+ nl) ;;;
     forBlock NDEBUG getType ci body ;;;
     indent ci ;;;
     emit ("}" +:+ nl)).
Proof. reflexivity. Qed.

Lemma forM_app {A} (l1 l2 : list A) (f : A -> M unit) g :
  forM_ (l1 ++ l2) f g = (forM_ l1 f ;;; forM_ l2 f) g.
Proof.
  revert g. induction l1 as [|x l1 IH]; intros g; [reflexivity|].
  cbn [app]. rewrite !forM_cons. unfold bind.
  destruct (f x g) as [[[] g1]|]; [|reflexivity].
  specialize (IH g1). unfold bind in IH. exact IH.
Qed.

(** C7 (amended).  In a build with assertions, an operation that stands
    in the block of an [affine.if] (its then-region), of an [affine.for],
    of a kernel or of a nested parallel region, that the chain of that
    block does not test for and that is not the terminator, stops the
    run at the [assert] of the last branch once the operations before it
    have been emitted: the process is aborted, and no error is handed to
    the caller.  The operations of a function body other than
    [affine.parallel] and the operations of an else-region are not
    dispatched: they are passed over without a diagnostic. *)
Theorem unhandled_operation_asserts_or_is_skipped
    missingReturn getType getParallelNumber iterate ci op pre rest g :
  isYield op = false ->
  (ifBodyCase op = false ->
   forall g1, ifBlock false getType ci pre g = Ok (tt, g1) ->
     ifBlock false getType ci (pre ++ op :: rest) g = Fault assertion_failed) /\
  (forBodyCase op = false ->
   forall g1, forBlock false getType ci pre g = Ok (tt, g1) ->
     forBlock false getType ci (pre ++ op :: rest) g = Fault assertion_failed) /\
  (parallelBodyCase op = false -> isParallel op = false ->
   forall g1, kernelBlock false getType ci pre g = Ok (tt, g1) ->
     kernelBlock false getType ci (pre ++ op :: rest) g = Fault assertion_failed) /\
  (innerParallelBodyCase op = false ->
   forall g1, innerBlock false getType ci pre g = Ok (tt, g1) ->
     innerBlock false getType ci (pre ++ op :: rest) g = Fault assertion_failed) /\
  (isParallel op = false ->
   forall NDEBUG,
     codegen_FuncOp missingReturn NDEBUG getType getParallelNumber iterate ci
       {| funcBody := pre ++ op :: rest |} g
     = codegen_FuncOp missingReturn NDEBUG getType getParallelNumber iterate ci
         {| funcBody := pre ++ rest |} g) /\
  (forall NDEBUG constraints operands thenBody,
     codegen NDEBUG getType ci
       (AffineIfOp constraints operands thenBody (pre ++ op :: rest)) g
     = codegen NDEBUG getType ci (AffineIfOp constraints operands thenBody []) g).
Proof.
  intros Hy. repeat split.
  - intros H g1 Hpre. unfold ifBlock in *.
    rewrite forM_app, (bind_Ok _ _ _ _ _ Hpre), forM_cons, H.
    unfold bind, elseAssertYield, assert_. now rewrite Hy.
  - intros H g1 Hpre. unfold forBlock in *.
    rewrite forM_app, (bind_Ok _ _ _ _ _ Hpre), forM_cons, H.
    unfold bind, elseLogAssertYield. now rewrite Hy.
  - intros H Hp g1 Hpre. unfold kernelBlock in *.
    rewrite forM_app, (bind_Ok _ _ _ _ _ Hpre), forM_cons, H. unfold bind.
    destruct op; try discriminate; unfold elseAssertYield, assert_; reflexivity.
  - intros H g1 Hpre. unfold innerBlock in *.
    rewrite forM_app, (bind_Ok _ _ _ _ _ Hpre), forM_cons, H.
    unfold bind, elseLogAssertYield. now rewrite Hy.
  - intros H NDEBUG. unfold codegen_FuncOp. cbn [funcBody].
    rewrite !forM_app. unfold bind.
    match goal with
    | |- match ?c with _ => _ end = _ => destruct c as [[[] g1]|]; [|reflexivity]
    end.
    rewrite forM_cons. cbv beta. rewrite H. reflexivity.
Qed.

(** C4 (amended).  Naming a value that already has a name leaves the symbol
    table as it is, reports it on the diagnostic stream and returns
    [false]; the run is not stopped, and a naming walk goes on to its next
    counter value. *)
Theorem setValueName_twice_keeps_name_and_returns missingReturn val name old g :
  valueNameMap g !! val = Some old ->
  setValueName missingReturn val name g
    = Ok (false, logged ("value already exists" +:+ nl) g) /\
  valueNameMap (logged ("value already exists" +:+ nl) g) !! val = Some old /\
  forall prefix suffix counter,
    nameResult missingReturn prefix suffix counter val g
    = Ok (counter + 1, logged ("value already exists" +:+ nl) g).
Proof.
  intros H.
  assert (E : forall n, setValueName missingReturn val n g
                        = Ok (false, logged ("value already exists" +:+ nl) g)).
  { intros n. unfold setValueName. now rewrite H. }
  split; [apply E|]. split; [exact H|].
  intros prefix suffix counter. unfold nameResult.
  now rewrite (bind_Ok _ _ _ _ _ (E _)).
Qed.

(** C9.  [affine.apply] is not among the classes the chain of [affine.if]
    tests for, so directly inside an [affine.if] it reaches the [assert] of
    the last branch (abort with assertions, nothing written without
    them); the chains of [affine.for], of the kernel and of the nested
    parallel region pass it to its emitter. *)
Theorem apply_handled_by_container getType ci result exprs operands rest g :
  ifBodyCase (AffineApplyOp result exprs operands) = false /\
  forBodyCase (AffineApplyOp result exprs operands) = true /\
  parallelBodyCase (AffineApplyOp result exprs operands) = true /\
  innerParallelBodyCase (AffineApplyOp result exprs operands) = true /\
  ifBlock false getType ci (AffineApplyOp result exprs operands :: rest) g
  = Fault assertion_failed /\
  ifBlock true getType ci (AffineApplyOp result exprs operands :: rest) g
  = ifBlock true getType ci rest g /\
  (forall NDEBUG,
     forBlock NDEBUG getType ci (AffineApplyOp result exprs operands :: rest) g
     = (codegen_AffineApplyOp NDEBUG (ci + 1) result exprs operands ;;;
        forBlock NDEBUG getType ci rest) g) /\
  (forall NDEBUG,
     kernelBlock NDEBUG getType ci (AffineApplyOp result exprs operands :: rest) g
     = (codegen_AffineApplyOp NDEBUG ci result exprs operands ;;;
        kernelBlock NDEBUG getType ci rest) g) /\
  (forall NDEBUG,
     innerBlock NDEBUG getType ci (AffineApplyOp result exprs operands :: rest) g
     = (codegen_AffineApplyOp NDEBUG ci result exprs operands ;;;
        innerBlock NDEBUG getType ci rest) g) /\
  codegen false ex_getType 0 (AffineIfOp [] [] [ex_apply; AffineYieldOp] []) ex_state
  = Fault assertion_failed /\
  (source <$> (match codegen true ex_getType 0
                       (AffineIfOp [] [] [ex_apply; AffineYieldOp] []) ex_state with
               | Ok (_, g') => Some g'
               | Fault _ => None
               end)
   = Some ("if ( true) {" +:+ nl +:+ "}" +:+ nl)) /\
  (source <$> (match codegen false ex_getType 0 (ex_for [ex_apply; AffineYieldOp])
                       ex_state with
               | Ok (_, g') => Some g'
               | Fault _ => None
               end)
   = Some ("for (int i = 0; i < 8; i += 1) {" +:+ nl
           +:+ "  int expr0 = i;" +:+ nl +:+ "}" +:+ nl)).
Proof.
  repeat split; try reflexivity.
Qed.

(** * Instances and counterexamples *)

(** The kernel of the end-to-end scenario: one scalar load, one add, one
    store, in a thread region inside a block region.  The text is returned
    in a build in which [setValueName] comes back to its caller; by the
    reading of the standard the first name stored ends the run. *)
Example ex_module_generated :
  (forall rv,
     returned (CUDAGen (Some rv) false ex_getType ex_getParallelNumber false map_to_list
                 ex_module ex_state)
     = Ok ex_module_text) /\
  returned (CUDAGen None false ex_getType ex_getParallelNumber false map_to_list
              ex_module ex_state)
  = Fault undefined_behaviour.
Proof. split; [intros []|]; vm_compute; reflexivity. Qed.

Lemma enumerates_map_to_list : enumerates map_to_list.
Proof. intros m. reflexivity. Qed.

Lemma enumerates_backwards : enumerates ex_iterate_backwards.
Proof. intros m. apply reverse_Permutation. Qed.


(** A run whose result is known, with the state it ends in. *)
Lemma returned_final {A} (c : M A) g a :
  returned (c g) = Ok a -> c g = Ok (a, final (c g) g).
Proof. destruct (c g) as [[a' g']|]; [|discriminate]. now intros [= ->]. Qed.

(** C1: shape [4,3,2], indices [i,j,k]. *)
Lemma global_access_row_major_witness :
  exists g',
    codegen_AffineLoadOp false ex_getType 0 vR vA ex_ijk [vI; vJ; vK] ex_state
    = Ok (tt, g') /\
    wrote ("auto R0 = arg0[i * 6 + j * 2 + k * 1 + 0];" +:+ nl) ex_state g'.
Proof.
  refine (proj1 (global_access_row_major false ex_getType 0 vA Float32Type [4; 3; 2]
                   ex_ijk [vI; vJ; vK] ["i"; "j"; "k"] ex_state _ _ _ _) vR).
  - reflexivity.
  - reflexivity.
  - repeat constructor; unfold INT_MAX; simpl; lia.
  - repeat constructor.
Defined.

(** C1: with extents [2, 65536, 65536] the stride of the outermost
    dimension is [2^32]; the vector of [int] holds [0]. *)
Lemma stride_of_large_shape_wraps :
  (exists g',
     codegen_AffineLoadOp false ex_getType 0 vR vBig ex_ijk [vI; vJ; vK] ex_state
     = Ok (tt, g') /\
     source g' = "auto R0 = arg1[i * 0 + j * 65536 + k * 1 + 0];" +:+ nl) /\
  row_major_strides [2; 65536; 65536] = [4294967296; 65536; 1] /\
  flat_offset ["i"; "j"; "k"] (row_major_strides [2; 65536; 65536])
  = "i * 4294967296 + j * 65536 + k * 1 + 0".
Proof.
  split; [|split; reflexivity].
  eexists. split; vm_compute; reflexivity.
Qed.

(** C2: a vector load from [vB] and a scalar load from [vA], in a build in
    which [setValueName] comes back to its caller: [vB] is declared
    first, though [vA] is loaded first in the block. *)
Lemma captured_in_first_encounter_order_witness :
  let g' := final (collectVars (Some true) map_to_list ex_kernel_vector_then_scalar
                     (blank ∅)) (blank ∅) in
  [vB; vA]
  = scan (dom (valueNameMap (blank ∅))
          ∪ list_to_set (named_before_accesses ex_kernel_vector_then_scalar))
         (accesses ex_kernel_vector_then_scalar) /\
  (forall ci gk decls,
     valueNameMap gk = valueNameMap g' ->
     [vB; vA] <> [] ->
     Forall2 (fun v d => declaration ex_getType (valueNameMap g') v = Some d)
             [vB; vA] decls ->
     exists gp,
       prototype ex_getType ci [vB; vA] gk = Ok (tt, gp) /\
       source gp = source gk +:+ spaces (Z.to_nat ci) +:+ "__global__ void kernel"
                   +:+ to_string (kernelCounter gk) +:+ "("
                   +:+ String.concat ", " decls +:+ ") {" +:+ nl) /\
  (forall M1 M2 result exprs operands,
     AffineVectorLoadOp result M1 exprs operands ∈ walk ex_kernel_vector_then_scalar ->
     (forall result' exprs' operands',
        AffineVectorLoadOp result' M2 exprs' operands'
          ∉ walk ex_kernel_vector_then_scalar) ->
     M1 ∈ [vB; vA] -> M2 ∈ [vB; vA] ->
     exists i j : nat,
       [vB; vA] !! i = Some M1 /\ [vB; vA] !! j = Some M2 /\ (i < j)%nat).
Proof.
  refine (captured_in_first_encounter_order (Some true) map_to_list ex_getType
            ex_kernel_vector_then_scalar (blank ∅) [vB; vA] _
            enumerates_map_to_list _).
  apply returned_final. vm_compute. reflexivity.
Defined.

(** C2: a [memref.load] from [vB] before an [affine.load] from [vA]: the
    walk over affine loads comes first, so [vA] is captured first where
    the pass returns; one pre-order walk over all scalar loads would
    capture [vB] first.  In no build is [vB] returned before [vA]. *)
Lemma scalar_loads_walked_by_class :
  (forall rv,
     returned (collectVars (Some rv) map_to_list ex_kernel_plain_then_affine (blank ∅))
     = Ok [vA; vB]) /\
  returned (collectVars None map_to_list ex_kernel_plain_then_affine (blank ∅))
  = Fault undefined_behaviour /\
  scan (dom (valueNameMap (blank ∅))
        ∪ list_to_set (named_before_accesses ex_kernel_plain_then_affine))
       (accesses_by_category ex_kernel_plain_then_affine)
  = [vB; vA].
Proof. split; [intros []|split]; vm_compute; reflexivity. Qed.

(** C3: [CeilDiv(i, j)]. *)
Lemma CeilDiv_renders_ceiling_witness :
  codegen_AffineExpr false
    (AffineBinaryOpExpr CeilDiv (AffineDimExpr 0) (AffineDimExpr 1)) [vI; vJ] ex_state
  = Ok ("((" +:+ "i" +:+ " + " +:+ "j" +:+ " - 1) / " +:+ "j" +:+ ")", ex_state).
Proof.
  refine (proj1 (CeilDiv_renders_ceiling false [vI; vJ] (AffineDimExpr 0)
                   (AffineDimExpr 1) "i" "j" ex_state ex_state ex_state _ _)).
  - reflexivity.
  - reflexivity.
Defined.

(** C3: [CeilDiv(i, j)] at [i = INT_MAX], [j = 2]: both operands are
    [int]s, the left one is not negative and the right one is positive,
    the ceiling of their quotient is [2^30], and the sum [i + j] written
    first is no [int]: the expression has no value. *)
Lemma CeilDiv_overflows_for_large_operands :
  let env := fun name : string => if String.eqb name "i" then INT_MAX else 2 in
  exists c,
    toC (valueNameMap ex_state) [vI; vJ]
        (AffineBinaryOpExpr CeilDiv (AffineDimExpr 0) (AffineDimExpr 1)) = Some c /\
    CExpr_text c = "((i + j - 1) / j)" /\
    ceval env (CVar "i") = Some INT_MAX /\
    ceval env (CVar "j") = Some 2 /\
    is_ceiling INT_MAX 2 (2 ^ 30) /\
    ceval env c = None.
Proof.
  eexists. split; [reflexivity|].
  repeat split; try reflexivity; unfold INT_MAX; lia.
Qed.

(** C4: [vA] is named [arg0]; the path does not reach the end of the
    function, so the build does not matter. *)
Lemma setValueName_twice_keeps_name_and_returns_witness :
  setValueName None vA "second" ex_state
  = Ok (false, logged ("value already exists" +:+ nl) ex_state).
Proof.
  refine (proj1 (setValueName_twice_keeps_name_and_returns None vA "second" "arg0"
                   ex_state _)).
  reflexivity.
Defined.

(** C4: after the second attempt the run goes on, and the first name is
    the one looked up. *)
Lemma naming_twice_does_not_stop_the_run :
  (setValueName None vA "second" ;;; getValueName vA) ex_state
  = Ok ("arg0", logged ("value already exists" +:+ nl) ex_state).
Proof. vm_compute. reflexivity. Qed.

(** C5: the constraints [i - 2 == 0] and [j >= 0]. *)
Lemma if_condition_conjuncts_then_true_witness :
  exists gh,
    wrote ("if ((i + -2) == 0 && j >= 0 &&  true) {" +:+ nl) ex_state gh /\
    codegen false ex_getType 0 ex_if ex_state
    = (ifBlock false ex_getType 0 [] ;;; indent 0 ;;; emit ("}" +:+ nl)) gh.
Proof.
  refine (proj1 (if_condition_conjuncts_then_true false ex_getType 0 ex_constraints
                   [vI; vJ] [] [] ["(i + -2)"; "j"] ex_state _)).
  repeat constructor.
Defined.

(** C5: the condition written is not the plain conjunction. *)
Lemma if_condition_is_not_the_plain_conjunction :
  (exists g',
     codegen false ex_getType 0 ex_if ex_state = Ok (tt, g') /\
     source g' = "if ((i + -2) == 0 && j >= 0 &&  true) {" +:+ nl +:+ "}" +:+ nl /\
     String.prefix ("if (" +:+ conjunction [("(i + -2)", true); ("j", false)] +:+ ")")
                   (source g') = false) /\
  conjunction [("(i + -2)", true); ("j", false)] = "(i + -2) == 0 && j >= 0".
Proof.
  split; [|reflexivity].
  eexists. split; [vm_compute; reflexivity|]. split; vm_compute; reflexivity.
Qed.

(** C6: three block dimensions, two thread dimensions, in a build in which
    [setValueName] comes back to its caller. *)
Lemma parallel_induction_variables_named_witness :
  let g' := final (collectVars (Some true) map_to_list ex_kernel_3d (blank ∅))
                  (blank ∅) in
  at_most_3d ex_kernel_3d /\
  (forall (i : nat) v,
     [vBz; vBy; vBx] !! i = Some v ->
     valueNameMap g' !! v = Some ("blockIdx." +:+ dimension_letter (3 - i - 1))) /\
  (forall IVs' body' (i : nat) v,
     AffineParallelOp IVs' body' ∈ tail (walk ex_kernel_3d) ->
     IVs' !! i = Some v ->
     valueNameMap g' !! v
     = Some ("threadIdx." +:+ dimension_letter (length IVs' - i - 1))).
Proof.
  intros g'.
  assert (Hrun : collectVars (Some true) map_to_list ex_kernel_3d (blank ∅)
                 = Ok ([vB], g')).
  { apply returned_final. vm_compute. reflexivity. }
  destruct (parallel_induction_variables_named (Some true) map_to_list
              [vBz; vBy; vBx] _ (blank ∅) [vB] g' enumerates_map_to_list Hrun)
    as [H3 H].
  split; [exact H3|]. apply H.
  - vm_compute. repeat constructor; set_solver.
  - intros v _. apply lookup_empty.
Defined.

(** C6: a region with four induction variables: [int3str] is read at
    index 3 for the first of them, in every build. *)
Lemma four_induction_variables_are_not_named :
  collectVars None map_to_list ex_kernel_4d (blank ∅) = Fault undefined_behaviour /\
  (forall rv,
     collectVars (Some rv) map_to_list ex_kernel_4d (blank ∅)
     = Fault undefined_behaviour).
Proof. split; [|intros []]; reflexivity. Qed.

(** C7: an [arith.addi] after an [affine.apply] in a loop body, and an
    [arith.addi] in a function body before a kernel. *)
Lemma unhandled_operation_asserts_or_is_skipped_witness :
  forBlock false ex_getType 0 ([ex_apply] ++ ex_other :: [AffineYieldOp]) ex_state
  = Fault assertion_failed /\
  (forall NDEBUG,
     codegen_FuncOp None NDEBUG ex_getType ex_getParallelNumber map_to_list 0
       {| funcBody := [] ++ ex_other :: [ex_other] |} ex_state
     = codegen_FuncOp None NDEBUG ex_getType ex_getParallelNumber map_to_list 0
         {| funcBody := [] ++ [ex_other] |} ex_state).
Proof.
  split.
  - refine (proj1 (proj2 (unhandled_operation_asserts_or_is_skipped None ex_getType
                            ex_getParallelNumber map_to_list 0 ex_other [ex_apply]
                            [AffineYieldOp] ex_state _)) _ _ _); [reflexivity..|].
    apply returned_final. vm_compute. reflexivity.
  - refine (proj1 (proj2 (proj2 (proj2 (proj2
              (unhandled_operation_asserts_or_is_skipped None ex_getType
                 ex_getParallelNumber map_to_list 0 ex_other [] [ex_other]
                 ex_state _))))) _); reflexivity.
Defined.

(** C7: with assertions, an [arith.addi] in a loop body aborts the
    process, and no error is handed to the caller; an [arith.addi] in a
    function body is passed over: the module is generated, and nothing is
    reported. *)
Lemma unknown_operation_skipped_or_aborted :
  codegen false ex_getType 0 (ex_for [ex_other; AffineYieldOp]) ex_state
  = Fault assertion_failed /\
  CUDAGen None false ex_getType ex_getParallelNumber false map_to_list
    ex_module_without_kernel ex_state
  = Ok (include_line, mkGlobals include_line (errs ex_state) ∅ 0 0).
Proof. split; reflexivity. Qed.

(** C8: two runs from different states with different enumerations, in a
    build in which [setValueName] comes back to its caller. *)
Lemma CUDAGen_deterministic_witness :
  let g1' := final (CUDAGen (Some true) false ex_getType ex_getParallelNumber false
                      map_to_list ex_module ex_state) ex_state in
  exists g2',
    CUDAGen (Some true) false ex_getType ex_getParallelNumber false ex_iterate_backwards
      ex_module (blank ∅)
    = Ok (ex_module_text, g2') /\
    source g1' = ex_module_text /\ source g2' = ex_module_text /\
    valueNameMap g2' = valueNameMap g1' /\
    kernelCounter g2' = kernelCounter g1' /\
    varCounter g2' = varCounter g1'.
Proof.
  refine (CUDAGen_deterministic (Some true) false ex_getType ex_getParallelNumber false
            map_to_list ex_iterate_backwards ex_module ex_state (blank ∅)
            ex_module_text _ enumerates_map_to_list enumerates_backwards _).
  apply returned_final. vm_compute. reflexivity.
Defined.

(** C10: the allocation [vShared] is loaded from and stored to, and is not
    captured. *)
Lemma alloc_results_not_captured_witness :
  let g' := final (collectVars (Some true) map_to_list ex_kernel_alloc (blank ∅))
                  (blank ∅) in
  (vShared ∉ [vB]) /\
  is_Some (valueNameMap g' !! vShared) /\
  (forall v, v ∈ [vB] ->
     valueNameMap (blank ∅) !! v = None /\ v ∈ map fst (accesses ex_kernel_alloc)).
Proof.
  refine (alloc_results_not_captured (Some true) map_to_list ex_kernel_alloc (blank ∅)
            [vB] _ vShared enumerates_map_to_list _ _).
  - apply returned_final. vm_compute. reflexivity.
  - unfold ex_kernel_alloc. simpl. right. left.
Defined.


(** * Further properties of the generator *)

(** ** The comparator *)

(** X1.  [CompareValue] answers [1] exactly when the first handle lies before
    the second, so it is a strict total order on values: irreflexive,
    asymmetric, transitive, and two values neither of which comes before the
    other are the same value. *)
Theorem CompareValue_strict_total_order :
  (forall x y, CompareValue x y = 1 <-> getAsOpaquePointer x < getAsOpaquePointer y) /\
  (forall x y, CompareValue x y = 0 \/ CompareValue x y = 1) /\
  (forall x, CompareValue x x = 0) /\
  (forall x y, CompareValue x y = 1 -> CompareValue y x = 0) /\
  (forall x y z, CompareValue x y = 1 -> CompareValue y z = 1 -> CompareValue x z = 1) /\
  (forall x y, CompareValue x y = 0 -> CompareValue y x = 0 -> x = y).
Proof.
  assert (H : forall x y,
            CompareValue x y = 1 <-> getAsOpaquePointer x < getAsOpaquePointer y).
  { intros x y. unfold CompareValue, getAsOpaquePointer.
    destruct (decide (x = y)) as [->|Hne]; [split; [discriminate|lia]|].
    destruct (Z.leb_spec (Z.pos y) (Z.pos x)); split; (discriminate || lia || auto). }
  assert (H01 : forall x y, CompareValue x y = 0 \/ CompareValue x y = 1).
  { intros x y. unfold CompareValue. destruct (decide (x = y)); [now left|].
    destruct (_ <=? _); [now left|now right]. }
  split; [exact H|]. split; [exact H01|]. repeat split.
  - intros x. destruct (H01 x x) as [E|E]; [exact E|]. apply H in E. lia.
  - intros x y Hxy. destruct (H01 y x) as [E|E]; [exact E|].
    apply H in Hxy, E. lia.
  - intros x y z Hxy Hyz. apply H. apply H in Hxy, Hyz. lia.
  - intros x y Hxy Hyx.
    destruct (Z.lt_trichotomy (getAsOpaquePointer x) (getAsOpaquePointer y))
      as [Hlt|[Heq|Hgt]].
    + apply H in Hlt. congruence.
    + unfold getAsOpaquePointer in Heq. congruence.
    + apply H in Hgt. congruence.
Qed.

(** ** Running straight-line emitters *)

Lemma getValueName_eq val g :
  getValueName val g = Ok (nameOf (valueNameMap g) val, looked_up val g).
Proof.
  unfold getValueName, nameOf, looked_up, logged.
  destruct (valueNameMap g !! val); reflexivity.
Qed.

Lemma run_getValueName {A} val (k : string -> M A) g :
  (x <- getValueName val ;; k x) g = k (nameOf (valueNameMap g) val) (looked_up val g).
Proof. unfold bind. now rewrite getValueName_eq. Qed.

Lemma run_emit {A} s (k : M A) g : (emit s ;;; k) g = k (emitted s g).
Proof. reflexivity. Qed.

Lemma run_indent {A} ci (k : M A) g :
  (indent ci ;;; k) g = k (emitted (spaces (Z.to_nat ci)) g).
Proof. reflexivity. Qed.

Lemma run_log {A} s (k : M A) g : (log s ;;; k) g = k (logged s g).
Proof. reflexivity. Qed.

Lemma emit_eq s g : emit s g = Ok (tt, emitted s g).
Proof. reflexivity. Qed.

Lemma names_looked_up val g : valueNameMap (looked_up val g) = valueNameMap g.
Proof. unfold looked_up. now destruct (valueNameMap g !! val). Qed.

Lemma source_looked_up val g : source (looked_up val g) = source g.
Proof. unfold looked_up. now destruct (valueNameMap g !! val). Qed.

Lemma kernelCounter_looked_up val g : kernelCounter (looked_up val g) = kernelCounter g.
Proof. unfold looked_up. now destruct (valueNameMap g !! val). Qed.

Lemma varCounter_looked_up val g : varCounter (looked_up val g) = varCounter g.
Proof. unfold looked_up. now destruct (valueNameMap g !! val). Qed.

Lemma names_emitted s g : valueNameMap (emitted s g) = valueNameMap g.
Proof. reflexivity. Qed.

Lemma source_emitted s g : source (emitted s g) = source g +:+ s.
Proof. reflexivity. Qed.

Lemma kernelCounter_emitted s g : kernelCounter (emitted s g) = kernelCounter g.
Proof. reflexivity. Qed.

Lemma varCounter_emitted s g : varCounter (emitted s g) = varCounter g.
Proof. reflexivity. Qed.

Lemma errs_emitted s g : errs (emitted s g) = errs g.
Proof. reflexivity. Qed.

Lemma names_logged s g : valueNameMap (logged s g) = valueNameMap g.
Proof. reflexivity. Qed.

Lemma source_logged s g : source (logged s g) = source g.
Proof. reflexivity. Qed.

Lemma kernelCounter_logged s g : kernelCounter (logged s g) = kernelCounter g.
Proof. reflexivity. Qed.

Lemma varCounter_logged s g : varCounter (logged s g) = varCounter g.
Proof. reflexivity. Qed.

Lemma looked_up_named val g :
  is_Some (valueNameMap g !! val) -> looked_up val g = g.
Proof. intros [name H]. unfold looked_up. now rewrite H. Qed.

Create Rewrite HintDb run_db.
Create Rewrite HintDb state_db.

#[export] Hint Rewrite @run_getValueName @run_emit @run_indent @run_log : run_db.
#[export] Hint Rewrite names_looked_up source_looked_up kernelCounter_looked_up
  varCounter_looked_up names_emitted source_emitted kernelCounter_emitted
  varCounter_emitted errs_emitted names_logged source_logged kernelCounter_logged
  varCounter_logged : state_db.

(** [wrote] for a state computed by the steps above. *)
Ltac wrote_tac :=
  unfold wrote; autorewrite with state_db;
  repeat split; rewrite ?append_nil_r, ?append_assoc; try reflexivity.

(** ** The symbol table: naming and looking up *)

(** X2.  Whenever naming a value that has no name comes back to the caller,
    the table holds the name given and nothing else has changed in it or in
    the text: looking the value up returns the name, and the lookup of
    every other value is as it was.  By the reading of the standard the
    naming does not come back.  Looking up a value that was never named
    returns the text [false], reports it and adds nothing to the table. *)
Theorem setValueName_getValueName_round_trip missingReturn val name g :
  valueNameMap g !! val = None ->
  (forall b g1,
     setValueName missingReturn val name g = Ok (b, g1) ->
     getValueName val g1 = Ok (name, g1) /\
     valueNameMap g1 = <[val := name]> (valueNameMap g) /\
     source g1 = source g /\
     forall other, other <> val ->
       returned (getValueName other g1) = returned (getValueName other g)) /\
  setValueName None val name g = Fault undefined_behaviour /\
  getValueName val g = Ok ("false", logged ("value not exists" +:+ nl) g) /\
  valueNameMap (logged ("value not exists" +:+ nl) g) !! val = None.
Proof.
  intros H. split; [|split; [|split]].
  - intros b g1. unfold setValueName. rewrite H.
    destruct missingReturn as [rv|]; [|discriminate]. intros [= <- <-].
    split; [|split; [|split]].
    + unfold getValueName. simpl. rewrite lookup_insert_eq. reflexivity.
    + reflexivity.
    + reflexivity.
    + intros other Hne. unfold getValueName. simpl.
      rewrite lookup_insert_ne by congruence.
      destruct (valueNameMap g !! other); reflexivity.
  - unfold setValueName. now rewrite H.
  - unfold getValueName. now rewrite H.
  - exact H.
Qed.

(** ** Generated names *)

Lemma to_string_inj a b : to_string a = to_string b -> a = b.
Proof.
  unfold to_string. intros H. apply DecimalZ.to_int_inj.
  assert (Hnil : forall z, Z.to_int z <> Decimal.Pos Decimal.Nil /\
                           Z.to_int z <> Decimal.Neg Decimal.Nil).
  { intros [|p|p]; simpl; split; try discriminate;
      intros [= E]; now apply DecimalPos.Unsigned.to_uint_nonnil in E. }
  apply (f_equal NilZero.int_of_string) in H.
  rewrite !NilZero.isi in H by apply Hnil.
  congruence.
Qed.

Lemma prefixed_inj prefix s1 s2 : prefix +:+ s1 = prefix +:+ s2 -> s1 = s2.
Proof.
  induction prefix as [|a prefix IH]; [trivial|].
  intros H. apply IH. now injection H.
Qed.

(** X3.  Two calls of [getArgName] (of [getKernelName]) return the same name
    only from states with the same counter; in particular two calls in a row
    return two different names. *)
Theorem generated_names_are_fresh :
  (forall g1 g2, returned (getArgName g1) = returned (getArgName g2)
                 <-> varCounter g1 = varCounter g2) /\
  (forall g1 g2, returned (getKernelName g1) = returned (getKernelName g2)
                 <-> kernelCounter g1 = kernelCounter g2) /\
  (forall g, exists a b g',
     (a <- getArgName ;; b <- getArgName ;; ret (a, b)) g = Ok ((a, b), g') /\
     a <> b /\ varCounter g' = varCounter g + 2 /\
     kernelCounter g' = kernelCounter g) /\
  (forall g, exists a b g',
     (a <- getKernelName ;; b <- getKernelName ;; ret (a, b)) g = Ok ((a, b), g') /\
     a <> b /\ kernelCounter g' = kernelCounter g + 2 /\
     varCounter g' = varCounter g).
Proof.
  split; [|split; [|split]].
  - intros g1 g2. unfold getArgName, returned. split.
    + intros [= H]. now apply prefixed_inj, to_string_inj in H.
    + now intros ->.
  - intros g1 g2. unfold getKernelName, returned. split.
    + intros [= H]. now apply prefixed_inj, to_string_inj in H.
    + now intros ->.
  - intros g. do 3 eexists. split; [reflexivity|]. split; [|split].
    + simpl. intros H. apply prefixed_inj, to_string_inj in H. lia.
    + simpl. lia.
    + reflexivity.
  - intros g. do 3 eexists. split; [reflexivity|]. split; [|split].
    + simpl. intros H. apply prefixed_inj, to_string_inj in H. lia.
    + simpl. lia.
    + reflexivity.
Qed.

(** ** Declarations *)

Lemma run_ret {A B} (a : A) (k : A -> M B) g : (x <- ret a ;; k x) g = k a g.
Proof. reflexivity. Qed.

Lemma forM_brackets_run (dims : list Z) : forall g,
  exists g',
    forM_ dims (fun d => emit ("[" +:+ to_string d +:+ "]")) g = Ok (tt, g') /\
    wrote (brackets (map to_string dims)) g g'.
Proof.
  induction dims as [|d dims IH]; intros g.
  - exists g. split; [reflexivity|]. apply wrote_quiet, quiet_refl.
  - destruct (IH (emitted ("[" +:+ to_string d +:+ "]") g)) as (g' & E & W).
    exists g'. split; [rewrite forM_cons, run_emit; exact E|].
    destruct W as (Hs & Hn & Hk & Hv). revert Hs Hn Hk Hv. wrote_tac; intros; try congruence.
    rewrite Hs, !append_assoc. reflexivity.
Qed.

(** X4.  A memref is declared with the C type of its elements and its name: as
    a pointer, whatever its rank, in global memory; as an array with every
    extent in brackets otherwise, after [__shared__] in shared memory. A value
    that is no memref, or whose element type has no C type, has no
    declaration: the behaviour is undefined in either build. *)
Theorem varDeclear_declares getType var g :
  (forall elementType dims memorySpace elementText,
     getType var = MemRefType elementType dims memorySpace ->
     toCStr elementType = Some elementText ->
     exists g',
       varDeclear getType var g = Ok (tt, g') /\
       wrote (declaration_text elementText (nameOf (valueNameMap g) var) dims memorySpace)
             g g') /\
  (forall elementType dims memorySpace,
     getType var = MemRefType elementType dims memorySpace ->
     toCStr elementType = None ->
     varDeclear getType var g = Fault undefined_behaviour) /\
  ((forall elementType dims memorySpace,
      getType var <> MemRefType elementType dims memorySpace) ->
   varDeclear getType var g = Fault undefined_behaviour).
Proof.
  split; [|split].
  - intros elementType dims memorySpace t Hty Ht. unfold varDeclear.
    rewrite Hty, Ht. destruct memorySpace.
    + rewrite run_ret. autorewrite with run_db. rewrite emit_eq.
      eexists. split; [reflexivity|]. wrote_tac.
    + autorewrite with run_db.
      destruct (forM_brackets_run dims
                  (emitted (" " +:+ nameOf (valueNameMap g) var)
                     (looked_up var (emitted t (emitted "__shared__ " g)))))
        as (g' & E & W).
      exists g'. autorewrite with state_db. split; [exact E|].
      destruct W as (Hs & Hn & Hk & Hv). revert Hs Hn Hk Hv.
      wrote_tac; intros; try congruence.
      rewrite Hs, !append_assoc. reflexivity.
    + rewrite run_ret. autorewrite with run_db.
      destruct (forM_brackets_run dims
                  (emitted (" " +:+ nameOf (valueNameMap g) var)
                     (looked_up var (emitted t g))))
        as (g' & E & W).
      exists g'. autorewrite with state_db. split; [exact E|].
      destruct W as (Hs & Hn & Hk & Hv). revert Hs Hn Hk Hv.
      wrote_tac; intros; try congruence.
      rewrite Hs, !append_assoc. reflexivity.
  - intros elementType dims memorySpace Hty Ht. unfold varDeclear.
    rewrite Hty, Ht. now destruct memorySpace.
  - intros H. unfold varDeclear.
    destruct (getType var) as [| | | | |elementType dims memorySpace| |];
      try reflexivity.
    now destruct (H elementType dims memorySpace).
Qed.

(** ** The evaluator of affine expressions *)

Lemma at_Some {A} NDEBUG (l : list A) i x g :
  l !! i = Some x -> at_ NDEBUG l i g = Ok (x, g).
Proof. intros H. unfold at_. now rewrite H. Qed.

Lemma at_None {A} NDEBUG (l : list A) i g :
  l !! i = None ->
  at_ NDEBUG l i g = Fault (if NDEBUG then undefined_behaviour else assertion_failed).
Proof. intros H. unfold at_. rewrite H. now destruct NDEBUG. Qed.

Lemma bind_Fault {A B} (c : M A) (k : A -> M B) g f :
  c g = Fault f -> bind c k g = Fault f.
Proof. intros H. unfold bind. now rewrite H. Qed.

Lemma codegen_AffineExpr_renderable NDEBUG operands expr : forall g,
  renderable operands expr = true ->
  exists text g',
    codegen_AffineExpr NDEBUG expr operands g = Ok (text, g') /\ quiet g g'.
Proof.
  induction expr as [p|p|v|kind l IHl r IHr]; intros g H; simpl in *.
  - apply bool_decide_eq_true in H.
    destruct (lookup_lt_is_Some_2 operands p H) as [v Hv].
    rewrite (bind_Ok _ _ _ _ _ (at_Some NDEBUG _ _ _ g Hv)).
    destruct (getValueName_run v g) as (g' & E & Q). eauto.
  - discriminate.
  - destruct (10240 <=? v); do 2 eexists; (split; [reflexivity|apply quiet_refl]).
  - apply andb_true_iff in H as [Hl Hr].
    destruct (IHl g Hl) as (lhs & g1 & E1 & Q1).
    destruct (IHr g1 Hr) as (rhs & g2 & E2 & Q2).
    rewrite (bind_Ok _ _ _ _ _ E1), (bind_Ok _ _ _ _ _ E2).
    destruct kind; do 2 eexists;
      (split; [reflexivity|eapply quiet_trans; eassumption]).
Qed.

Lemma codegen_AffineExpr_not_renderable NDEBUG operands expr : forall g,
  renderable operands expr = false ->
  codegen_AffineExpr NDEBUG expr operands g
  = Fault (if NDEBUG then undefined_behaviour else assertion_failed).
Proof.
  induction expr as [p|p|v|kind l IHl r IHr]; intros g H; simpl in *.
  - apply bool_decide_eq_false in H.
    apply bind_Fault, at_None. apply lookup_ge_None. lia.
  - unfold bind, assert_, ret, fail. now destruct NDEBUG.
  - discriminate.
  - destruct (renderable operands l) eqn:Hl.
    + simpl in H.
      destruct (codegen_AffineExpr_renderable NDEBUG operands l g Hl)
        as (lhs & g1 & E1 & _).
      rewrite (bind_Ok _ _ _ _ _ E1). apply bind_Fault. now apply IHr.
    + apply bind_Fault. now apply IHl.
Qed.

(** X5.  The evaluator returns a text exactly for the expressions without a
    symbol whose dimensions are all among the operands; the text is that of
    the C expression [toC], and nothing but the diagnostic stream changes. For
    every other expression it does not return: the run is aborted by an
    [assert] in a build with assertions, and undefined without them. *)
Theorem codegen_AffineExpr_returns_iff_renderable NDEBUG operands expr g :
  (renderable operands expr = true ->
   exists text g' c,
     codegen_AffineExpr NDEBUG expr operands g = Ok (text, g') /\ quiet g g' /\
     toC (valueNameMap g) operands expr = Some c /\ CExpr_text c = text) /\
  (renderable operands expr = false ->
   codegen_AffineExpr NDEBUG expr operands g
   = Fault (if NDEBUG then undefined_behaviour else assertion_failed)).
Proof.
  split.
  - intros H.
    destruct (codegen_AffineExpr_renderable NDEBUG operands expr g H)
      as (text & g' & E & Q).
    destruct (codegen_AffineExpr_toC _ _ _ _ _ _ E) as (c & Hc & Ht).
    exists text, g', c. auto.
  - apply codegen_AffineExpr_not_renderable.
Qed.

(** ** Division and remainder *)

Lemma quot_rem_floor a b :
  0 < b ->
  (0 <= a -> Z.quot a b = a / b /\ Z.rem a b = a mod b) /\
  (a < 0 -> a mod b <> 0 -> Z.quot a b = a / b + 1 /\ Z.rem a b = a mod b - b).
Proof.
  intros Hb. split.
  - intros Ha. split; [apply Z.quot_div_nonneg|apply Z.rem_mod_nonneg]; lia.
  - intros Ha Hm.
    pose proof (Z.quot_rem a b ltac:(lia)) as Hqr.
    pose proof (Z.rem_bound_pos_neg a b Hb ltac:(lia)) as Hr.
    pose proof (Z.div_mod a b ltac:(lia)) as Hdm.
    pose proof (Z.mod_pos_bound a b Hb) as Hmb.
    assert (Z.quot a b = a / b + 1) by nia.
    split; [assumption|nia].
Qed.

Lemma quot_fits a b : fits_int a -> 0 < b -> fits_int (Z.quot a b).
Proof.
  unfold fits_int, INT_MAX. intros Ha Hb.
  destruct (Z.le_gt_cases 0 a) as [H|H].
  - rewrite Z.quot_div_nonneg by lia.
    pose proof (Z.div_pos a b H Hb). pose proof (Z.div_le_upper_bound a b a Hb).
    assert (a / b <= a) by (apply H1; nia). lia.
  - replace a with (- - a) by lia. rewrite Z.quot_opp_l by lia.
    rewrite Z.quot_div_nonneg by lia.
    pose proof (Z.div_pos (- a) b ltac:(lia) Hb).
    pose proof (Z.div_le_upper_bound (- a) b (- a) Hb).
    assert (- a / b <= - a) by (apply H1; nia). lia.
Qed.

(** X6.  [FloorDiv] and [Mod] are written as the C operators [/] and [%]. With
    a positive right operand the C value is the floor of the quotient (the
    non-negative remainder) when the left operand is not negative; for a
    negative left operand that the right one does not divide, C truncates: the
    quotient is one more than the floor and the remainder is negative. *)
Theorem FloorDiv_Mod_render_C_division NDEBUG operands lhs rhs L R g g1 g2 :
  codegen_AffineExpr NDEBUG lhs operands g = Ok (L, g1) ->
  codegen_AffineExpr NDEBUG rhs operands g1 = Ok (R, g2) ->
  codegen_AffineExpr NDEBUG (AffineBinaryOpExpr FloorDiv lhs rhs) operands g
  = Ok ("(" +:+ L +:+ " / " +:+ R +:+ ")", g2) /\
  codegen_AffineExpr NDEBUG (AffineBinaryOpExpr Mod lhs rhs) operands g
  = Ok ("(" +:+ L +:+ " % " +:+ R +:+ ")", g2) /\
  exists cl cr cq cm,
    toC (valueNameMap g) operands lhs = Some cl /\ CExpr_text cl = L /\
    toC (valueNameMap g) operands rhs = Some cr /\ CExpr_text cr = R /\
    toC (valueNameMap g) operands (AffineBinaryOpExpr FloorDiv lhs rhs) = Some cq /\
    CExpr_text cq = "(" +:+ L +:+ " / " +:+ R +:+ ")" /\
    toC (valueNameMap g) operands (AffineBinaryOpExpr Mod lhs rhs) = Some cm /\
    CExpr_text cm = "(" +:+ L +:+ " % " +:+ R +:+ ")" /\
    forall env a b,
      ceval env cl = Some a -> ceval env cr = Some b -> 0 < b ->
      exists q r,
        ceval env cq = Some q /\ ceval env cm = Some r /\
        (0 <= a -> q = a / b /\ r = a mod b) /\
        (a < 0 -> a mod b <> 0 -> q = a / b + 1 /\ r = a mod b - b).
Proof.
  intros Hl Hr. split; [|split].
  - simpl. now rewrite (bind_Ok _ _ _ _ _ Hl), (bind_Ok _ _ _ _ _ Hr).
  - simpl. now rewrite (bind_Ok _ _ _ _ _ Hl), (bind_Ok _ _ _ _ _ Hr).
  - pose proof (quiet_codegen_AffineExpr _ _ _ _ _ _ Hl) as (_ & Hn & _).
    destruct (codegen_AffineExpr_toC _ _ _ _ _ _ Hl) as (cl & Hcl & Htl).
    destruct (codegen_AffineExpr_toC _ _ _ _ _ _ Hr) as (cr & Hcr & Htr).
    rewrite Hn in Hcr.
    exists cl, cr, (CParen (CBin CDiv cl cr)), (CParen (CBin CMod cl cr)).
    repeat split; try assumption.
    + simpl. now rewrite Hcl, Hcr.
    + cbn [CExpr_text CBinOp_text]. rewrite Htl, Htr, ?append_assoc. reflexivity.
    + simpl. now rewrite Hcl, Hcr.
    + cbn [CExpr_text CBinOp_text]. rewrite Htl, Htr, ?append_assoc. reflexivity.
    + intros env a b Ha Hb Hpos. simpl. rewrite Ha, Hb.
      destruct (Z.eqb_spec b 0) as [->|_]; [lia|].
      rewrite (as_int_Some (Z.quot a b))
        by (apply quot_fits; [eapply ceval_fits, Ha|exact Hpos]).
      exists (Z.quot a b), (Z.rem a b). split; [reflexivity|]. split; [reflexivity|].
      apply (quot_rem_floor a b Hpos).
Qed.

(** ** Subscripts *)

Lemma quiet_offset_terms NDEBUG exprs operands strides : forall index,
  preserves quiet (offset_terms NDEBUG exprs operands strides index).
Proof.
  induction exprs as [|e exprs IH]; intros index; simpl; repeat quiet_step.
Qed.

Lemma quiet_bracket_terms NDEBUG exprs operands :
  preserves quiet (bracket_terms NDEBUG exprs operands).
Proof. induction exprs as [|e exprs IH]; simpl; repeat quiet_step. Qed.

Lemma quiet_subscript NDEBUG getType memref exprs operands :
  preserves quiet (subscript NDEBUG getType memref exprs operands).
Proof.
  unfold subscript.
  destruct (getType memref) as [| | | | |elementType shape memorySpace| |];
    try apply preserves_fail.
  destruct memorySpace; try apply quiet_bracket_terms.
  apply preserves_bind; [exact quiet_trans|apply quiet_offset_terms|intros terms].
  apply preserves_ret, quiet_refl.
Qed.

Lemma subscript_text_run NDEBUG getType memref exprs operands sub g :
  subscript_text NDEBUG getType (valueNameMap g) memref exprs operands = Some sub ->
  exists g', subscript NDEBUG getType memref exprs operands g = Ok (sub, g') /\
             quiet g g'.
Proof.
  unfold subscript_text. intros H.
  pose proof (sim_subscript false NDEBUG getType memref exprs operands
                (blank (valueNameMap g)) g) as S.
  specialize (S ltac:(split; [reflexivity|discriminate])).
  destruct (subscript NDEBUG getType memref exprs operands (blank (valueNameMap g)))
    as [[t gb]|]; [|discriminate].
  injection H as ->.
  destruct (subscript NDEBUG getType memref exprs operands g) as [[t' g']|] eqn:E;
    [|contradiction].
  destruct S as (-> & _). exists g'. split; [reflexivity|].
  eapply quiet_subscript, E.
Qed.

Lemma subscript_text_intro NDEBUG getType names memref exprs operands sub :
  (forall g, valueNameMap g = names ->
     exists g', subscript NDEBUG getType memref exprs operands g = Ok (sub, g')) ->
  subscript_text NDEBUG getType names memref exprs operands = Some sub.
Proof.
  intros H. unfold subscript_text.
  destruct (H (blank names) eq_refl) as (g' & ->). reflexivity.
Qed.

Lemma bracket_terms_run NDEBUG operands exprs : forall texts g,
  Forall2 (fun e text => render NDEBUG (valueNameMap g) operands e = Some text)
          exprs texts ->
  exists g', bracket_terms NDEBUG exprs operands g = Ok (brackets texts, g') /\
             quiet g g'.
Proof.
  induction exprs as [|e exprs IH]; intros texts g H.
  - inversion H; subst. exists g. split; [reflexivity|apply quiet_refl].
  - inversion H as [|? text ? texts' He Hrest]; subst.
    destruct (render_run _ _ _ _ _ He) as (g1 & E1 & Q1).
    assert (Hn : valueNameMap g1 = valueNameMap g) by apply Q1.
    rewrite <- Hn in Hrest.
    destruct (IH texts' g1 Hrest) as (g2 & E2 & Q2).
    exists g2. split; [|eapply quiet_trans; eassumption].
    simpl. rewrite (bind_Ok _ _ _ _ _ E1), (bind_Ok _ _ _ _ _ E2).
    unfold ret. rewrite ?append_assoc. reflexivity.
Qed.

(** The statements of the three scalar access emitters, given the text of
    the subscript. *)
Lemma codegen_AffineLoadOp_run NDEBUG getType ci result memref exprs operands sub g :
  subscript_text NDEBUG getType (valueNameMap g) memref exprs operands = Some sub ->
  exists g',
    codegen_AffineLoadOp NDEBUG getType ci result memref exprs operands g
    = Ok (tt, g') /\
    wrote (spaces (Z.to_nat ci) +:+ "auto " +:+ nameOf (valueNameMap g) result
           +:+ " = " +:+ nameOf (valueNameMap g) memref +:+ sub +:+ ";" +:+ nl) g g'.
Proof.
  intros H. unfold codegen_AffineLoadOp. autorewrite with run_db state_db.
  match goal with
  | |- context [bind (subscript _ _ _ _ _) _ ?s] =>
      destruct (subscript_text_run NDEBUG getType memref exprs operands sub s)
        as (g1 & E1 & (Qs & Qn & Qk & Qv))
  end.
  { now autorewrite with state_db. }
  rewrite (bind_Ok _ _ _ _ _ E1). autorewrite with run_db. rewrite emit_eq.
  eexists. split; [reflexivity|].
  revert Qs Qn Qk Qv. wrote_tac; intros; try congruence.
  rewrite Qs, ?append_assoc. reflexivity.
Qed.

Lemma codegen_AffineStoreOp_run NDEBUG getType ci value memref exprs operands sub g :
  subscript_text NDEBUG getType (valueNameMap g) memref exprs operands = Some sub ->
  exists g',
    codegen_AffineStoreOp NDEBUG getType ci value memref exprs operands g
    = Ok (tt, g') /\
    wrote (spaces (Z.to_nat ci) +:+ nameOf (valueNameMap g) memref +:+ sub
           +:+ " = " +:+ nameOf (valueNameMap g) value +:+ ";" +:+ nl) g g'.
Proof.
  intros H. unfold codegen_AffineStoreOp. autorewrite with run_db state_db.
  match goal with
  | |- context [bind (subscript _ _ _ _ _) _ ?s] =>
      destruct (subscript_text_run NDEBUG getType memref exprs operands sub s)
        as (g1 & E1 & (Qs & Qn & Qk & Qv))
  end.
  { now autorewrite with state_db. }
  rewrite (bind_Ok _ _ _ _ _ E1). autorewrite with run_db state_db. rewrite emit_eq.
  eexists. split; [reflexivity|].
  revert Qs Qn Qk Qv. wrote_tac; intros; try congruence.
  - rewrite Qs, Qn, ?append_assoc. reflexivity.
Qed.

Lemma subscript_brackets_run NDEBUG getType memref elementType shape memorySpace
    exprs operands texts g :
  getType memref = MemRefType elementType shape memorySpace ->
  memorySpace <> global ->
  Forall2 (fun e text => render NDEBUG (valueNameMap g) operands e = Some text)
          exprs texts ->
  exists g', subscript NDEBUG getType memref exprs operands g = Ok (brackets texts, g').
Proof.
  intros Hty Hsp Hr. unfold subscript. rewrite Hty.
  destruct (bracket_terms_run NDEBUG operands exprs texts g Hr) as (g' & E & _).
  exists g'. now destruct memorySpace.
Qed.

(** X7.  An access to a memref that is not in global memory is written with
    one bracket per index expression, [name[e0][e1]...], whatever the shape of
    the memref. *)
Theorem local_access_one_bracket_per_index
    NDEBUG getType ci memref elementType shape memorySpace exprs operands texts g :
  getType memref = MemRefType elementType shape memorySpace ->
  memorySpace <> global ->
  Forall2 (fun e text => render NDEBUG (valueNameMap g) operands e = Some text)
          exprs texts ->
  subscript_text NDEBUG getType (valueNameMap g) memref exprs operands
  = Some (brackets texts) /\
  (forall result, exists g',
     codegen_AffineLoadOp NDEBUG getType ci result memref exprs operands g
     = Ok (tt, g') /\
     wrote (spaces (Z.to_nat ci) +:+ "auto " +:+ nameOf (valueNameMap g) result
            +:+ " = " +:+ nameOf (valueNameMap g) memref +:+ brackets texts
            +:+ ";" +:+ nl) g g') /\
  (forall value, exists g',
     codegen_AffineStoreOp NDEBUG getType ci value memref exprs operands g
     = Ok (tt, g') /\
     wrote (spaces (Z.to_nat ci) +:+ nameOf (valueNameMap g) memref +:+ brackets texts
            +:+ " = " +:+ nameOf (valueNameMap g) value +:+ ";" +:+ nl) g g').
Proof.
  intros Hty Hsp Hr.
  assert (Hsub : subscript_text NDEBUG getType (valueNameMap g) memref exprs operands
                 = Some (brackets texts)).
  { apply subscript_text_intro. intros g0 Hn. rewrite <- Hn in Hr.
    eapply subscript_brackets_run; eassumption. }
  split; [exact Hsub|]. split.
  - intros result. now apply codegen_AffineLoadOp_run.
  - intros value. now apply codegen_AffineStoreOp_run.
Qed.

(** ** Global accesses whose index count is not the rank *)

Lemma length_strides_prefix shape k :
  length (foldl (strides_step shape) [] (seq 0 k)) = k.
Proof.
  induction k as [|k IH]; [reflexivity|].
  rewrite seq_S, foldl_app. cbn [foldl]. change (0 + k)%nat with k.
  set (strides := foldl (strides_step shape) [] (seq 0 k)) in *.
  unfold strides_step.
  destruct (decide (k = 0%nat)); rewrite length_app, IH; simpl; lia.
Qed.

Lemma length_compute_strides shape : length (compute_strides shape) = length shape.
Proof. apply length_strides_prefix. Qed.

Lemma subscript_global_inner_run NDEBUG getType memref elementType shape exprs operands
    texts g :
  getType memref = MemRefType elementType shape global ->
  (length exprs <= length shape)%nat ->
  Forall fits_int (row_major_strides shape) ->
  Forall2 (fun e text => render NDEBUG (valueNameMap g) operands e = Some text)
          exprs texts ->
  exists g',
    subscript NDEBUG getType memref exprs operands g
    = Ok ("[" +:+ flat_offset texts
                    (drop (length shape - length exprs) (row_major_strides shape))
          +:+ "]", g')
    /\ quiet g g'.
Proof.
  intros Hty Hlen Hfit Hr. unfold subscript. rewrite Hty.
  destruct (offset_terms_run NDEBUG operands (compute_strides shape) exprs texts
              (drop (length shape - length exprs) (row_major_strides shape))
              (Z.of_nat (length exprs) - 1) g Hr)
    as (g' & E & Q).
  - rewrite length_drop, length_row_major_strides. lia.
  - intros k s Hk. rewrite lookup_drop in Hk.
    destruct (compute_strides_row_major shape _ s Hfit Hk) as [H0 Hs].
    assert (Hk' : (length shape - length exprs + k < length shape)%nat).
    { apply lookup_lt_Some in Hk. now rewrite length_row_major_strides in Hk. }
    split; [lia|].
    replace (Z.to_nat (Z.of_nat (length exprs) - 1 - Z.of_nat k))
      with (Z.to_nat (Z.of_nat (length shape) - 1
                      - Z.of_nat (length shape - length exprs + k))) by lia.
    exact Hs.
  - exists g'. split; [|exact Q].
    rewrite (bind_Ok _ _ _ _ _ E). unfold ret, flat_offset.
    rewrite !append_assoc. reflexivity.
Qed.

Lemma subscript_global_outside NDEBUG getType memref elementType shape exprs operands g :
  getType memref = MemRefType elementType shape global ->
  (length shape < length exprs)%nat ->
  subscript NDEBUG getType memref exprs operands g = Fault undefined_behaviour.
Proof.
  intros Hty Hlen. unfold subscript. rewrite Hty.
  destruct exprs as [|e exprs]; [simpl in Hlen; lia|].
  apply bind_Fault. simpl offset_terms. apply bind_Fault.
  unfold vector_at.
  match goal with |- context [if ?b then _ else _] => destruct b end; [reflexivity|].
  rewrite (proj2 (lookup_ge_None _ _)); [reflexivity|].
  rewrite length_compute_strides. simpl in *. lia.
Qed.

(** X8.  A global access with fewer index expressions than the memref has
    dimensions is laid out on the innermost dimensions: its terms use the last
    strides. One with more index expressions reads the vector of strides out
    of range before anything is written for it: the behaviour is undefined in
    either build, for loads and stores alike. *)
Theorem global_access_index_count
    NDEBUG getType ci memref elementType shape exprs operands g :
  getType memref = MemRefType elementType shape global ->
  (forall texts,
     (length exprs <= length shape)%nat ->
     Forall fits_int (row_major_strides shape) ->
     Forall2 (fun e text => render NDEBUG (valueNameMap g) operands e = Some text)
             exprs texts ->
     exists g',
       subscript NDEBUG getType memref exprs operands g
       = Ok ("[" +:+ flat_offset texts
                       (drop (length shape - length exprs) (row_major_strides shape))
             +:+ "]", g') /\
       quiet g g') /\
  ((length shape < length exprs)%nat ->
   subscript NDEBUG getType memref exprs operands g = Fault undefined_behaviour /\
   (forall result,
      codegen_AffineLoadOp NDEBUG getType ci result memref exprs operands g
      = Fault undefined_behaviour) /\
   (forall value,
      codegen_AffineStoreOp NDEBUG getType ci value memref exprs operands g
      = Fault undefined_behaviour)).
Proof.
  intros Hty. split.
  - intros texts Hlen Hfit Hr. eapply subscript_global_inner_run; eassumption.
  - intros Hlen. split; [|split].
    + eapply subscript_global_outside; eassumption.
    + intros result. unfold codegen_AffineLoadOp. autorewrite with run_db.
      apply bind_Fault. eapply subscript_global_outside; eassumption.
    + intros value. unfold codegen_AffineStoreOp. autorewrite with run_db.
      apply bind_Fault. eapply subscript_global_outside; eassumption.
Qed.

(** ** [memref.load] *)

Lemma render_identity_map NDEBUG names (indices : list Value) :
  Forall2 (fun e text => render NDEBUG names indices e = Some text)
          (identity_map (length indices)) (map (nameOf names) indices).
Proof.
  unfold identity_map.
  apply Forall2_same_length_lookup_2.
  - now rewrite !length_map, length_seq.
  - intros i e text He Ht.
    rewrite list_lookup_fmap in He. rewrite list_lookup_fmap in Ht.
    destruct (indices !! i) as [v|] eqn:Hv; [|discriminate].
    injection Ht as <-.
    rewrite lookup_seq_lt in He by (eapply lookup_lt_Some, Hv).
    injection He as <-.
    unfold render. simpl.
    rewrite (bind_Ok _ _ _ _ _ (at_Some NDEBUG _ _ _ _ Hv)).
    now rewrite getValueName_eq.
Qed.

(** X9.  A [memref.load] is written like an [affine.load] whose expressions
    are the index operands themselves: by the names of the indices, as a flat
    row-major offset in global memory and with one bracket per index
    otherwise. *)
Theorem memref_load_by_index_names
    NDEBUG getType ci result memref elementType shape memorySpace indices g :
  getType memref = MemRefType elementType shape memorySpace ->
  (memorySpace = global ->
   length indices = length shape ->
   Forall fits_int (row_major_strides shape) ->
   exists g',
     codegen NDEBUG getType ci (LoadOp result memref indices) g = Ok (tt, g') /\
     wrote (spaces (Z.to_nat ci) +:+ "auto " +:+ nameOf (valueNameMap g) result
            +:+ " = " +:+ nameOf (valueNameMap g) memref
            +:+ "[" +:+ flat_offset (map (nameOf (valueNameMap g)) indices)
                                    (row_major_strides shape) +:+ "]"
            +:+ ";" +:+ nl) g g') /\
  (memorySpace <> global ->
   exists g',
     codegen NDEBUG getType ci (LoadOp result memref indices) g = Ok (tt, g') /\
     wrote (spaces (Z.to_nat ci) +:+ "auto " +:+ nameOf (valueNameMap g) result
            +:+ " = " +:+ nameOf (valueNameMap g) memref
            +:+ brackets (map (nameOf (valueNameMap g)) indices)
            +:+ ";" +:+ nl) g g').
Proof.
  intros Hty.
  change (codegen NDEBUG getType ci (LoadOp result memref indices))
    with (codegen_AffineLoadOp NDEBUG getType ci result memref
            (identity_map (length indices)) indices).
  split.
  - intros -> Hlen Hfit.
    destruct (codegen_AffineLoadOp_run NDEBUG getType ci result memref
                (identity_map (length indices)) indices
                ("[" +:+ flat_offset (map (nameOf (valueNameMap g)) indices)
                                     (row_major_strides shape) +:+ "]") g)
      as (g' & E & W).
    + apply subscript_text_intro. intros g0 Hn.
      destruct (subscript_global_run NDEBUG getType memref elementType shape
                  (identity_map (length indices)) indices
                  (map (nameOf (valueNameMap g)) indices) g0 Hty)
        as (g1 & E1 & _); [| |rewrite Hn; apply render_identity_map|eauto].
      * unfold identity_map. now rewrite length_map, length_seq.
      * exact Hfit.
    + exists g'. split; [exact E|]. rewrite !append_assoc in W. exact W.
  - intros Hsp.
    apply codegen_AffineLoadOp_run.
    apply subscript_text_intro. intros g0 Hn.
    eapply subscript_brackets_run; [exact Hty|exact Hsp|].
    rewrite Hn. apply render_identity_map.
Qed.

(** ** Vector accesses *)

Lemma bind_assoc {A B C} (c : M A) (k1 : A -> M B) (k2 : B -> M C) g :
  bind (bind c k1) k2 g = bind c (fun a => bind (k1 a) k2) g.
Proof. unfold bind. now destruct (c g) as [[a g1]|f]. Qed.

Lemma getVectorFetchType_floats NDEBUG eleT vecLen rest n g :
  floats_in eleT vecLen = Some n ->
  getVectorFetchType NDEBUG (VectorType eleT (vecLen :: rest)) g
  = Ok ("float" +:+ to_string n, g).
Proof.
  intros H. unfold getVectorFetchType.
  assert (H16 : Z.quot (vecLen * 16) 32 = Z.quot vecLen 2).
  { change 32 with (2 * 16). apply Z.quot_mul_cancel_r; lia. }
  assert (H32 : Z.quot (vecLen * 32) 32 = vecLen) by (apply Z.quot_mul; lia).
  assert (H64 : Z.quot (vecLen * 64) 32 = 2 * vecLen).
  { replace (vecLen * 64) with (2 * vecLen * 32) by lia. apply Z.quot_mul; lia. }
  destruct eleT; try discriminate; injection H as <-;
    cbn [Z.eqb]; unfold bind, at_; cbn [lookup list_lookup]; unfold ret;
    rewrite ?H16, ?H32, ?H64; reflexivity.
Qed.

(** X10.  The type a vector access is cast to is [floatN], where [N] is the
    number of 32-bit words of the vector: its length for [float] elements,
    twice its length for [double], half its length (rounded towards zero) for
    [half_t]. For any other element type a diagnostic is written and the run
    goes on with a width of [-1] bit. A vector type without a dimension has no
    fetch type. *)
Theorem getVectorFetchType_counts_words NDEBUG eleT vecLen rest g :
  (forall n, floats_in eleT vecLen = Some n ->
     getVectorFetchType NDEBUG (VectorType eleT (vecLen :: rest)) g
     = Ok ("float" +:+ to_string n, g)) /\
  (floats_in eleT vecLen = None ->
   getVectorFetchType NDEBUG (VectorType eleT (vecLen :: rest)) g
   = Ok ("float" +:+ to_string (Z.quot (- vecLen) 32),
         logged ("Vector type error" +:+ nl) g)) /\
  returned (getVectorFetchType NDEBUG (VectorType eleT []) g)
  = Fault (if NDEBUG then undefined_behaviour else assertion_failed).
Proof.
  split; [|split].
  - intros n H. now apply getVectorFetchType_floats.
  - intros H. unfold getVectorFetchType.
    destruct eleT; try discriminate; simpl; unfold bind, ret, at_, log, logged; simpl;
      replace (vecLen * -1) with (- vecLen) by lia; reflexivity.
  - unfold getVectorFetchType, returned, bind, at_, assert_, ret, fail, log.
    destruct eleT, NDEBUG; reflexivity.
Qed.

(** X11.  A vector load and a vector store are written as a cast of the
    address of the scalar element at the same subscript a scalar access would
    have: [(reinterpret_cast<floatN*>(&(name[...]))[0])]. *)
Theorem vector_access_reinterprets_scalar_element
    NDEBUG getType ci vector memref exprs operands eleT vecLen rest n sub g :
  getType vector = VectorType eleT (vecLen :: rest) ->
  floats_in eleT vecLen = Some n ->
  subscript_text NDEBUG getType (valueNameMap g) memref exprs operands = Some sub ->
  (exists g',
     codegen_AffineVectorLoadOp NDEBUG getType ci vector memref exprs operands g
     = Ok (tt, g') /\
     wrote (spaces (Z.to_nat ci) +:+ "auto " +:+ nameOf (valueNameMap g) vector
            +:+ " = (reinterpret_cast<float" +:+ to_string n +:+ "*>(&("
            +:+ nameOf (valueNameMap g) memref +:+ sub +:+ "))[0]);" +:+ nl) g g') /\
  (exists g',
     codegen_AffineVectorStoreOp NDEBUG getType ci vector memref exprs operands g
     = Ok (tt, g') /\
     wrote (spaces (Z.to_nat ci) +:+ "(reinterpret_cast<float" +:+ to_string n
            +:+ "*>(&(" +:+ nameOf (valueNameMap g) memref +:+ sub +:+ "))[0])"
            +:+ " = " +:+ nameOf (valueNameMap g) vector +:+ ";" +:+ nl) g g').
Proof.
  intros Hty Hn Hsub. split.
  - unfold codegen_AffineVectorLoadOp, codegenMemref.
    autorewrite with run_db state_db. rewrite Hty.
    rewrite (bind_Ok _ _ _ _ _ (getVectorFetchType_floats NDEBUG _ _ _ _ _ Hn)).
    rewrite bind_assoc. autorewrite with run_db state_db. rewrite bind_assoc.
    match goal with
    | |- context [bind (subscript _ _ _ _ _) _ ?s] =>
        destruct (subscript_text_run NDEBUG getType memref exprs operands sub s)
          as (g1 & E1 & (Qs & Qn & Qk & Qv))
    end.
    { now autorewrite with state_db. }
    rewrite (bind_Ok _ _ _ _ _ E1), run_ret, emit_eq.
    eexists. split; [reflexivity|].
    revert Qs Qn Qk Qv. wrote_tac; intros; try congruence.
    rewrite Qs, ?append_assoc. reflexivity.
  - unfold codegen_AffineVectorStoreOp, codegenMemref.
    autorewrite with run_db state_db. rewrite Hty.
    rewrite (bind_Ok _ _ _ _ _ (getVectorFetchType_floats NDEBUG _ _ _ _ _ Hn)).
    rewrite bind_assoc. autorewrite with run_db state_db. rewrite bind_assoc.
    match goal with
    | |- context [bind (subscript _ _ _ _ _) _ ?s] =>
        destruct (subscript_text_run NDEBUG getType memref exprs operands sub s)
          as (g1 & E1 & (Qs & Qn & Qk & Qv))
    end.
    { now autorewrite with state_db. }
    rewrite (bind_Ok _ _ _ _ _ E1), run_ret.
    autorewrite with run_db state_db. rewrite emit_eq.
    eexists. split; [reflexivity|].
    revert Qs Qn Qk Qv. wrote_tac; intros; try congruence.
    rewrite Qs, Qn, ?append_assoc. reflexivity.
Qed.

(** ** Statements with an edge *)

(** X12.  A shuffle in the mode [DOWN] or [IDX] is written as a call of
    [__shfl_down_sync] or [__shfl_sync]. In any other mode a diagnostic is
    written, the run goes on, and the statement is left without the call:
    [auto r = v, o, w);]. *)
Theorem codegen_ShuffleOp_modes ci result value offset width mode g :
  let r := nameOf (valueNameMap g) result in
  let v := nameOf (valueNameMap g) value in
  let o := nameOf (valueNameMap g) offset in
  let w := nameOf (valueNameMap g) width in
  exists g',
    codegen_ShuffleOp ci result value offset width mode g = Ok (tt, g') /\
    wrote (spaces (Z.to_nat ci) +:+ "auto " +:+ r +:+ " = "
           +:+ match mode with
               | DOWN => " __shfl_down_sync(0xffffffff, "
               | IDX => " __shfl_sync(0xffffffff, "
               | _ => ""
               end
           +:+ v +:+ ", " +:+ o +:+ ", " +:+ w +:+ ");" +:+ nl) g g' /\
    (is_Some (valueNameMap g !! result) -> is_Some (valueNameMap g !! value) ->
     is_Some (valueNameMap g !! offset) -> is_Some (valueNameMap g !! width) ->
     errs g' = errs g ++ match mode with
                         | DOWN | IDX => []
                         | _ => ["Unsupport shfl mode" +:+ nl]
                         end).
Proof.
  intros r v o w. subst r v o w. unfold codegen_ShuffleOp.
  autorewrite with run_db state_db.
  destruct mode; autorewrite with run_db state_db; rewrite emit_eq;
    (eexists; split; [reflexivity|]; split;
     [wrote_tac
     |intros Hr Hv Ho Hw;
      repeat (rewrite looked_up_named by (autorewrite with state_db; assumption));
      simpl; rewrite ?app_nil_r; reflexivity]).
Qed.

(** X13.  An [affine.apply] is written as the declaration of an [int] from the
    first result of its map. A map with another number of results fails the
    [assert] of the emitter; without assertions, a map with no result is read
    out of range and the further results of a longer map are dropped. *)
Theorem codegen_AffineApplyOp_one_result ci result exprs operands g :
  (length exprs <> 1%nat ->
   codegen_AffineApplyOp false ci result exprs operands g = Fault assertion_failed) /\
  (exprs = [] ->
   codegen_AffineApplyOp true ci result exprs operands g = Fault undefined_behaviour) /\
  (forall NDEBUG expr more text,
     exprs = expr :: more ->
     NDEBUG = true \/ more = [] ->
     render NDEBUG (valueNameMap g) operands expr = Some text ->
     exists g',
       codegen_AffineApplyOp NDEBUG ci result exprs operands g = Ok (tt, g') /\
       wrote (spaces (Z.to_nat ci) +:+ "int " +:+ nameOf (valueNameMap g) result
              +:+ " = " +:+ text +:+ ";" +:+ nl) g g').
Proof.
  split; [|split].
  - intros H. unfold codegen_AffineApplyOp, bind, assert_.
    now rewrite bool_decide_eq_false_2.
  - intros ->. unfold codegen_AffineApplyOp.
    change (assert_ true (bool_decide (length (@nil AffineExpr) = 1%nat)))
      with (@ret unit tt).
    rewrite run_ret. autorewrite with run_db.
    apply bind_Fault. now apply (at_None true).
  - intros NDEBUG expr more text -> Hmore Hr. unfold codegen_AffineApplyOp.
    assert (Ha : forall g0, assert_ NDEBUG (bool_decide (length (expr :: more) = 1%nat)) g0
                            = Ok (tt, g0)).
    { intros g0. unfold assert_. destruct Hmore as [->| ->]; [reflexivity|].
      now destruct NDEBUG. }
    rewrite (bind_Ok _ _ _ _ _ (Ha g)). autorewrite with run_db state_db.
    match goal with
    | |- context [bind (at_ _ _ _) _ ?s] =>
        rewrite (bind_Ok _ _ _ _ _ (at_Some NDEBUG (expr :: more) 0 expr s eq_refl));
        destruct (render_run NDEBUG operands expr text s) as (g1 & E1 & Q1)
    end.
    { now autorewrite with state_db. }
    rewrite (bind_Ok _ _ _ _ _ E1), emit_eq.
    eexists. split; [reflexivity|].
    destruct Q1 as (Qs & Qn & Qk & Qv). revert Qs Qn Qk Qv.
    wrote_tac; intros; try congruence.
    rewrite Qs, ?append_assoc. reflexivity.
Qed.


Lemma to_int_range z : - 2 ^ 31 <= to_int z <= INT_MAX.
Proof.
  unfold to_int, INT_MAX.
  pose proof (Z.mod_pos_bound (z + 2 ^ 31) (2 ^ 32) ltac:(lia)). lia.
Qed.

Lemma to_int_congruent z : (to_int z - z) mod 2 ^ 32 = 0.
Proof.
  unfold to_int.
  rewrite (Z.mod_eq (z + 2 ^ 31) (2 ^ 32)) by lia.
  replace (z + 2 ^ 31 - 2 ^ 32 * ((z + 2 ^ 31) / 2 ^ 32) - 2 ^ 31 - z)
    with (- ((z + 2 ^ 31) / 2 ^ 32) * 2 ^ 32) by lia.
  apply Z.mod_mul. lia.
Qed.

(** X14.  An integer constant is written after conversion to [int]: the
    literal is the value reduced modulo [2^32] into the range of [int], the
    value itself when it fits. An index constant is written in full, in a
    declaration of type [int]. *)
Theorem integer_constants_written getType ci result value g :
  (forall elementText,
     toCStr (getType result) = Some elementText ->
     exists g',
       codegen_ConstantIntOp getType ci result value g = Ok (tt, g') /\
       wrote (spaces (Z.to_nat ci) +:+ "constexpr " +:+ elementText +:+ " "
              +:+ nameOf (valueNameMap g) result +:+ " = "
              +:+ to_string (to_int value) +:+ ";" +:+ nl) g g') /\
  - 2 ^ 31 <= to_int value <= INT_MAX /\
  (to_int value - value) mod 2 ^ 32 = 0 /\
  (fits_int value -> to_int value = value) /\
  (exists g',
     codegen_ConstantIndexOp ci result value g = Ok (tt, g') /\
     wrote (spaces (Z.to_nat ci) +:+ "constexpr int "
            +:+ nameOf (valueNameMap g) result +:+ " = "
            +:+ to_string value +:+ ";" +:+ nl) g g').
Proof.
  split; [|split; [|split; [|split]]].
  - intros t Ht. unfold codegen_ConstantIntOp. rewrite Ht.
    autorewrite with run_db state_db. rewrite emit_eq.
    eexists. split; [reflexivity|]. wrote_tac.
  - apply to_int_range.
  - apply to_int_congruent.
  - apply to_int_fits.
  - unfold codegen_ConstantIndexOp. autorewrite with run_db state_db.
    rewrite emit_eq. eexists. split; [reflexivity|]. wrote_tac.
Qed.

(** ** Loops *)

Lemma sim_forBlock strict NDEBUG getType ci body :
  sim strict (forBlock NDEBUG getType ci body) (forBlock NDEBUG getType ci body).
Proof. unfold forBlock. sim_go. Qed.

(** X15.  An [affine.for] is written as [for (int iv = lb; iv < ub; iv +=
    step) {], the statements of its block and a closing brace; the line
    [#pragma unroll] comes before it exactly when the loop carries the
    attribute [affine.loop] with the value [unroll]. *)
Theorem for_header_then_block
    NDEBUG getType ci inductionVar lb ub step loopAttr body g :
  let iter := nameOf (valueNameMap g) inductionVar in
  let pragma :=
    match loopAttr with
    | Some strAttr =>
        if String.eqb strAttr "unroll"
        then spaces (Z.to_nat ci) +:+ "#pragma unroll" +:+ nl
        else ""
    | None => ""
    end in
  let header :=
    pragma +:+ spaces (Z.to_nat ci) +:+ "for (int " +:+ iter +:+ " = " +:+ to_string lb
    +:+ "; " +:+ iter +:+ " < " +:+ to_string ub +:+ "; " +:+ iter +:+ " += "
    +:+ to_string step +:+ ") {" +:+ nl in
  (exists gh,
     wrote header g gh /\
     codegen NDEBUG getType ci (AffineForOp inductionVar lb ub step loopAttr body) g
     = (forBlock NDEBUG getType ci body ;;; indent ci ;;; emit ("}" +:+ nl)) gh) /\
  (forall g',
     codegen NDEBUG getType ci (AffineForOp inductionVar lb ub step loopAttr body) g
     = Ok (tt, g') ->
     exists block,
       source g' = source g +:+ header +:+ block +:+ spaces (Z.to_nat ci) +:+ "}" +:+ nl).
Proof.
  intros iter pragma header.
  assert (Hh : exists gh,
             wrote header g gh /\
             codegen NDEBUG getType ci
               (AffineForOp inductionVar lb ub step loopAttr body) g
             = (forBlock NDEBUG getType ci body ;;; indent ci ;;; emit ("}" +:+ nl)) gh).
  { rewrite codegen_AffineForOp_eq. rewrite run_getValueName. subst header pragma iter.
    destruct loopAttr as [strAttr|]; [destruct (String.eqb strAttr "unroll")|].
    - rewrite bind_assoc. autorewrite with run_db.
      eexists. split; [|reflexivity]. wrote_tac.
    - rewrite run_ret. autorewrite with run_db.
      eexists. split; [|reflexivity]. wrote_tac.
    - rewrite run_ret. autorewrite with run_db.
      eexists. split; [|reflexivity]. wrote_tac. }
  split; [exact Hh|].
  destruct Hh as (gh & W & E). intros g' Hrun. rewrite E in Hrun.
  apply bind_inv in Hrun as ([] & g1 & Hb & Hf).
  destruct (sim_appends false _ _ _ _ (sim_forBlock _ _ _ _ _) Hb) as (block & Hblock).
  exists block.
  unfold indent, bind, emit in Hf. injection Hf as <-. simpl.
  rewrite Hblock. destruct W as (-> & _). rewrite !append_assoc. reflexivity.
Qed.

(** ** What emission leaves alone *)

Lemma appended_refl g : appended g g.
Proof.
  split; [apply same_tables_refl|]. split.
  - exists "". now rewrite append_nil_r.
  - exists []. now rewrite app_nil_r.
Qed.

Lemma appended_trans g1 g2 g3 : appended g1 g2 -> appended g2 g3 -> appended g1 g3.
Proof.
  intros (T1 & (t1 & S1) & (m1 & E1)) (T2 & (t2 & S2) & (m2 & E2)).
  split; [eapply same_tables_trans; eassumption|]. split.
  - exists (t1 +:+ t2). now rewrite S2, S1, append_assoc.
  - exists (m1 ++ m2). now rewrite E2, E1, app_assoc.
Qed.

Lemma appended_emit s : preserves appended (emit s).
Proof.
  intros g a g' [= _ <-]. split; [now repeat split|]. split.
  - now exists s.
  - exists []. simpl. now rewrite app_nil_r.
Qed.

Lemma appended_log s : preserves appended (log s).
Proof.
  intros g a g' [= _ <-]. split; [now repeat split|]. split.
  - exists "". simpl. now rewrite append_nil_r.
  - now exists [s].
Qed.

Lemma appended_getValueName v : preserves appended (getValueName v).
Proof.
  intros g a g'. unfold getValueName. destruct (valueNameMap g !! v).
  - intros [= _ <-]. apply appended_refl.
  - intros H. eapply (appended_log _ g tt). injection H as _ <-. reflexivity.
Qed.

Create HintDb appended_db.

Ltac appended_step :=
  first
    [ apply preserves_ret; exact appended_refl
    | apply preserves_fail
    | solve [eauto with appended_db]
    | apply preserves_bind; [exact appended_trans | | intros ? ]
    | apply preserves_forM; [exact appended_refl | exact appended_trans | intros ? ? ]
    | match goal with
      | |- preserves _ (match ?x with _ => _ end) => destruct x
      | |- preserves _ (if ?b then _ else _) => destruct b
      end ].

Ltac appended_go := repeat appended_step.

#[export] Hint Resolve appended_emit appended_log appended_getValueName : appended_db.

Lemma appended_assert NDEBUG c : preserves appended (assert_ NDEBUG c).
Proof. unfold assert_. appended_go. Qed.

Lemma appended_indent ci : preserves appended (indent ci).
Proof. apply appended_emit. Qed.

#[export] Hint Resolve appended_assert appended_indent : appended_db.

Lemma appended_at {A} NDEBUG (l : list A) i : preserves appended (at_ NDEBUG l i).
Proof. unfold at_. appended_go. Qed.

Lemma appended_vector_at {A} (l : list A) i : preserves appended (vector_at l i).
Proof. unfold vector_at. appended_go. Qed.

#[export] Hint Resolve appended_at appended_vector_at : appended_db.

Lemma appended_codegen_AffineExpr NDEBUG expr operands :
  preserves appended (codegen_AffineExpr NDEBUG expr operands).
Proof. induction expr as [p|p|v|kind l IHl r IHr]; simpl; appended_go. Qed.

#[export] Hint Resolve appended_codegen_AffineExpr : appended_db.

Lemma appended_varDeclear getType var : preserves appended (varDeclear getType var).
Proof. unfold varDeclear. appended_go. Qed.

Lemma appended_offset_terms NDEBUG exprs operands strides : forall index,
  preserves appended (offset_terms NDEBUG exprs operands strides index).
Proof. induction exprs as [|e exprs IH]; intros index; simpl; appended_go. Qed.

Lemma appended_bracket_terms NDEBUG exprs operands :
  preserves appended (bracket_terms NDEBUG exprs operands).
Proof. induction exprs as [|e exprs IH]; simpl; appended_go. Qed.

#[export] Hint Resolve appended_varDeclear appended_offset_terms appended_bracket_terms
  : appended_db.

Lemma appended_subscript NDEBUG getType memref exprs operands :
  preserves appended (subscript NDEBUG getType memref exprs operands).
Proof. unfold subscript. appended_go. Qed.

Lemma appended_getVectorFetchType NDEBUG vt :
  preserves appended (getVectorFetchType NDEBUG vt).
Proof. unfold getVectorFetchType. appended_go. Qed.

Lemma appended_codegen_binary ci before between after result lhs rhs :
  preserves appended (codegen_binary ci before between after result lhs rhs).
Proof. unfold codegen_binary. appended_go. Qed.

Lemma appended_codegen_unary ci callee result operand :
  preserves appended (codegen_unary ci callee result operand).
Proof. unfold codegen_unary. appended_go. Qed.

Lemma appended_elseAssertYield NDEBUG op : preserves appended (elseAssertYield NDEBUG op).
Proof. unfold elseAssertYield. appended_go. Qed.

Lemma appended_elseLogAssertYield NDEBUG op :
  preserves appended (elseLogAssertYield NDEBUG op).
Proof. unfold elseLogAssertYield. appended_go. Qed.

#[export] Hint Resolve appended_subscript appended_getVectorFetchType
  appended_codegen_binary appended_codegen_unary appended_elseAssertYield
  appended_elseLogAssertYield : appended_db.

Lemma appended_codegen NDEBUG getType op : forall ci,
  preserves appended (codegen NDEBUG getType ci op).
Proof.
  induction op as [op IH] using Op_children_ind. intros ci.
  destruct op; simpl; unfold_emitters; try solve [appended_go].
  - (* affine.if *)
    simpl in IH. apply Forall_app in IH as [IH _]. rewrite Forall_forall in IH.
    do 4 (apply preserves_bind; [exact appended_trans|appended_go|intros ?]).
    apply preserves_bind; [exact appended_trans| |intros _; appended_go].
    apply preserves_forM; [exact appended_refl|exact appended_trans|].
    intros op' Hop'. destruct (ifBodyCase op'); [now apply IH|appended_go].
  - (* affine.for *)
    simpl in IH. rewrite Forall_forall in IH.
    do 4 (apply preserves_bind; [exact appended_trans|appended_go|intros ?]).
    apply preserves_bind; [exact appended_trans| |intros _; appended_go].
    apply preserves_forM; [exact appended_refl|exact appended_trans|].
    intros op' Hop'. destruct (forBodyCase op'); [now apply IH|appended_go].
Qed.

#[export] Hint Resolve appended_codegen : appended_db.

Lemma appended_innerBlock NDEBUG getType ci innerOps :
  preserves appended (innerBlock NDEBUG getType ci innerOps).
Proof. unfold innerBlock. appended_go. Qed.

#[export] Hint Resolve appended_innerBlock : appended_db.

Lemma appended_kernelBlock NDEBUG getType ci ops :
  preserves appended (kernelBlock NDEBUG getType ci ops).
Proof. unfold kernelBlock. appended_go. Qed.

(** X16.  Writing the statements of an operation, of a kernel block or of the
    block of the thread region never touches the symbol table or the counters:
    when it returns, the text and the diagnostics have only been extended. *)
Theorem emission_only_appends NDEBUG getType ci op ops g g' :
  codegen NDEBUG getType ci op g = Ok (tt, g') \/
  kernelBlock NDEBUG getType ci ops g = Ok (tt, g') \/
  innerBlock NDEBUG getType ci ops g = Ok (tt, g') ->
  valueNameMap g' = valueNameMap g /\
  kernelCounter g' = kernelCounter g /\
  varCounter g' = varCounter g /\
  (exists text, source g' = source g +:+ text) /\
  (exists msgs, errs g' = errs g ++ msgs).
Proof.
  intros H.
  assert (Ha : appended g g').
  { destruct H as [H|[H|H]].
    - eapply appended_codegen, H.
    - eapply appended_kernelBlock, H.
    - eapply appended_innerBlock, H. }
  destruct Ha as ((Hn & Hk & Hv) & Hs & He). auto.
Qed.

(** ** The naming pass: what it leaves alone *)

Lemma preserves_foldM (R : Globals -> Globals -> Prop) {A S}
    (f : S -> A -> M S) (l : list A) :
  (forall g, R g g) -> (forall g1 g2 g3, R g1 g2 -> R g2 g3 -> R g1 g3) ->
  (forall s x, preserves R (f s x)) -> forall s, preserves R (foldM f s l).
Proof.
  intros Hrefl Htrans Hf. induction l as [|x l IH]; intros s.
  - now apply preserves_ret.
  - rewrite foldM_cons. apply preserves_bind; [exact Htrans|apply Hf|].
    intros s'. apply IH.
Qed.

Lemma named_more_refl g : named_more g g.
Proof. now repeat split. Qed.

Lemma named_more_trans g1 g2 g3 :
  named_more g1 g2 -> named_more g2 g3 -> named_more g1 g3.
Proof.
  intros (a & b & c & d) (a' & b' & c' & d').
  repeat split; try congruence. etrans; eassumption.
Qed.

Lemma named_more_setValueName missingReturn v name :
  preserves named_more (setValueName missingReturn v name).
Proof.
  intros g b g'. unfold setValueName. destruct (valueNameMap g !! v) eqn:E.
  - intros [= _ <-]. now repeat split.
  - destruct missingReturn; [|discriminate].
    intros [= _ <-]. repeat split. simpl. now apply insert_subseteq.
Qed.

Lemma named_more_vector_at {A} (l : list A) i : preserves named_more (vector_at l i).
Proof.
  intros g a g' H. apply quiet_vector_at in H as (Hs & Hn & Hk & Hv).
  repeat split; try assumption. now rewrite Hn.
Qed.

Create HintDb named_more_db.
#[export] Hint Resolve named_more_setValueName named_more_vector_at : named_more_db.

Ltac named_more_step :=
  first
    [ apply preserves_ret; exact named_more_refl
    | apply preserves_fail
    | solve [eauto with named_more_db]
    | apply preserves_bind; [exact named_more_trans | | intros ? ]
    | apply preserves_forM; [exact named_more_refl | exact named_more_trans | intros ? ? ]
    | apply preserves_foldM; [exact named_more_refl | exact named_more_trans | intros ? ? ]
    | match goal with
      | |- preserves _ (match ?x with _ => _ end) => destruct x
      | |- preserves _ (if ?b then _ else _) => destruct b
      end ].

Ltac named_more_go := repeat named_more_step.

Lemma named_more_nameResult missingReturn prefix suffix counter result :
  preserves named_more (nameResult missingReturn prefix suffix counter result).
Proof. unfold nameResult. named_more_go. Qed.

Lemma named_more_nameIVs missingReturn prefix size operands : forall i,
  preserves named_more (nameIVs missingReturn prefix size operands i).
Proof. induction operands as [|v rest IH]; intros i; simpl; named_more_go. Qed.

#[export] Hint Resolve named_more_nameResult named_more_nameIVs : named_more_db.

Lemma named_more_nameParallel missingReturn prefix op :
  preserves named_more (nameParallel missingReturn prefix op).
Proof. unfold nameParallel. named_more_go. Qed.

Lemma named_more_walkNames missingReturn select prefix suffix node counter :
  preserves named_more (walkNames missingReturn select prefix suffix node counter).
Proof. unfold walkNames. named_more_go. Qed.

#[export] Hint Resolve named_more_nameParallel named_more_walkNames : named_more_db.

Lemma naming_refl g : naming g g.
Proof. repeat split; try reflexivity. Qed.

Lemma naming_trans g1 g2 g3 : naming g1 g2 -> naming g2 g3 -> naming g1 g3.
Proof.
  intros (a & b & c & d) (a' & b' & c' & d').
  repeat split; try congruence; [etrans; eassumption|lia].
Qed.

Lemma named_more_naming {A} (c : M A) : preserves named_more c -> preserves naming c.
Proof.
  intros H g a g' E. destruct (H g a g' E) as (Hs & Hk & Hv & Hn).
  repeat split; try assumption. lia.
Qed.

Lemma naming_capture missingReturn mem c : preserves naming (capture missingReturn mem c).
Proof.
  intros g c' g'. unfold capture, bind, hasValueName.
  destruct (bool_decide _); [intros [= _ <-]; apply naming_refl|].
  destruct (outsidesVars c !! mem); [intros [= _ <-]; apply naming_refl|].
  unfold getArgName, setValueName. simpl.
  destruct (valueNameMap g !! mem) eqn:E; [|destruct missingReturn; [|discriminate]];
    intros [= _ <-]; repeat split; simpl; try lia; try reflexivity.
  now apply insert_subseteq.
Qed.

Create HintDb naming_db.
#[export] Hint Resolve naming_capture : naming_db.

Ltac naming_step :=
  first
    [ apply preserves_ret; exact naming_refl
    | apply preserves_fail
    | solve [eauto with naming_db]
    | solve [apply named_more_naming; eauto with named_more_db]
    | apply preserves_bind; [exact naming_trans | | intros ? ]
    | apply preserves_forM; [exact naming_refl | exact naming_trans | intros ? ? ]
    | apply preserves_foldM; [exact naming_refl | exact naming_trans | intros ? ? ]
    | match goal with
      | |- preserves _ (match ?x with _ => _ end) => destruct x
      | |- preserves _ (if ?b then _ else _) => destruct b
      end ].

Ltac naming_go := repeat naming_step.

Lemma naming_collectCaptures missingReturn node :
  preserves naming (collectCaptures missingReturn node).
Proof. unfold collectCaptures, walkLoads, walkStores. naming_go. Qed.

#[export] Hint Resolve naming_collectCaptures : naming_db.

Lemma naming_collectVars missingReturn iterate node :
  preserves naming (collectVars missingReturn iterate node).
Proof. unfold collectVars. naming_go. Qed.

(** ** The naming pass: the names of the captured values *)

Lemma args_named_more n0 order g g' :
  named_more g g' -> args_named n0 order g -> args_named n0 order g'.
Proof.
  intros (_ & _ & Hv & Hn) (Hc & Hl). split; [congruence|].
  intros i v Hi. eapply lookup_weaken; [apply Hl, Hi|exact Hn].
Qed.

Lemma capture_args rv mem c g order n0 c' g' :
  captured_in order c (dom (valueNameMap g)) ->
  args_named n0 order g ->
  capture (Some rv) mem c g = Ok (c', g') ->
  args_named n0 (order ++ if decide (mem ∈ dom (valueNameMap g)) then [] else [mem]) g'.
Proof.
  intros (Hout & Hid & Hnd & Hin) (Hc & Hl). unfold capture.
  rewrite (bind_Ok _ _ _ _ _ (hasValueName_run mem g)).
  destruct (decide (mem ∈ dom (valueNameMap g))) as [Hmem|Hmem].
  - rewrite bool_decide_eq_true_2 by assumption. intros [= _ <-].
    rewrite app_nil_r. now split.
  - rewrite bool_decide_eq_false_2 by assumption.
    assert (Hnot : mem ∉ order) by (intros H; apply Hmem, Hin, H).
    destruct (outsidesVars c !! mem) as [i|] eqn:Ei.
    { exfalso. apply Hnot. apply Hout in Ei as [_ Ei].
      eapply list_elem_of_lookup_2, Ei. }
    assert (Hfresh : valueNameMap g !! mem = None) by now apply not_elem_of_dom.
    unfold bind, getArgName, setValueName. simpl. rewrite Hfresh.
    intros [= _ <-]. split; simpl.
    + rewrite length_app. simpl. lia.
    + intros i v Hi. apply lookup_app_Some in Hi as [Hi|[Hlen Hi]].
      * rewrite lookup_insert_ne.
        -- now apply Hl.
        -- intros <-. apply Hnot. eapply list_elem_of_lookup_2, Hi.
      * apply list_lookup_singleton_Some in Hi as [Hi ->].
        rewrite lookup_insert_eq. do 3 f_equal. lia.
Qed.

Lemma foldM_loads_args rv (select : Op -> option (Value * Value)) prefix ops :
  forall st g order n0 st' g',
    captured_in order (fst st) (dom (valueNameMap g)) ->
    args_named n0 order g ->
    foldM (fun st op => match select op with
                        | Some (mem, result) =>
                            c <- capture (Some rv) mem (fst st) ;;
                            n <- nameResult (Some rv) prefix "" (snd st) result ;;
                            ret (c, n)
                        | None => ret st
                        end) st ops g = Ok (st', g') ->
    args_named n0 (order ++ scan (dom (valueNameMap g)) (loads_in select ops)) g'.
Proof.
  induction ops as [|op ops IH]; intros st g order n0 st' g' Hinv Hargs.
  - intros [= _ <-]. unfold loads_in. simpl. now rewrite app_nil_r.
  - rewrite foldM_cons, loads_in_cons. destruct (select op) as [[mem result]|].
    + destruct (capture_run rv mem (fst st) g order Hinv) as (c & g1 & E1 & S1 & D1 & I1).
      destruct (nameResult_run rv prefix "" (snd st) result g1) as (g2 & E2 & N2).
      assert (D2 : dom (valueNameMap g2)
                   = touched [(mem, Some result)] ∪ dom (valueNameMap g)).
      { rewrite N2, dom_define, D1, touched_load. apply set_eq. intros x.
        rewrite !elem_of_union. tauto. }
      assert (I2 : captured_in
                     (order ++ if decide (mem ∈ dom (valueNameMap g)) then [] else [mem])
                     c (dom (valueNameMap g2))).
      { eapply captured_in_mono; [|exact I1]. rewrite N2, dom_define.
        apply union_subseteq_r. }
      assert (A2 : args_named n0
                     (order ++ if decide (mem ∈ dom (valueNameMap g)) then [] else [mem])
                     g2).
      { eapply args_named_more; [eapply named_more_nameResult, E2|].
        eapply capture_args; eassumption. }
      assert (Estep : (c <- capture (Some rv) mem (fst st) ;;
                       n <- nameResult (Some rv) prefix "" (snd st) result ;;
                       ret (c, n)) g = Ok ((c, snd st + 1), g2)).
      { rewrite (bind_Ok _ _ _ _ _ E1), (bind_Ok _ _ _ _ _ E2). reflexivity. }
      rewrite (bind_Ok _ _ _ _ _ Estep). intros Hrest.
      pose proof (IH (c, snd st + 1) g2 _ n0 st' g' I2 A2 Hrest) as A3.
      rewrite D2 in A3. rewrite <- app_assoc in A3. rewrite scan_cons.
      destruct (decide (mem ∈ dom (valueNameMap g))); exact A3.
    + rewrite run_ret. now apply IH.
Qed.

Lemma foldM_stores_args rv (select : Op -> option Value) ops :
  forall c g order n0 c' g',
    captured_in order c (dom (valueNameMap g)) ->
    args_named n0 order g ->
    foldM (fun c op => match select op with
                       | Some mem => capture (Some rv) mem c
                       | None => ret c
                       end) c ops g = Ok (c', g') ->
    args_named n0 (order ++ scan (dom (valueNameMap g)) (stores_in select ops)) g'.
Proof.
  induction ops as [|op ops IH]; intros c g order n0 c' g' Hinv Hargs.
  - intros [= _ <-]. unfold stores_in. simpl. now rewrite app_nil_r.
  - rewrite foldM_cons, stores_in_cons. destruct (select op) as [mem|].
    + destruct (capture_run rv mem c g order Hinv) as (c1 & g1 & E1 & S1 & D1 & I1).
      assert (D1' : dom (valueNameMap g1)
                    = touched [(mem, None)] ∪ dom (valueNameMap g)).
      { now rewrite D1, touched_store. }
      pose proof (capture_args rv _ _ _ _ _ _ _ Hinv Hargs E1) as A1.
      rewrite (bind_Ok _ _ _ _ _ E1). intros Hrest.
      pose proof (IH c1 g1 _ n0 c' g' I1 A1 Hrest) as A2.
      rewrite D1' in A2. rewrite <- app_assoc in A2. rewrite scan_cons.
      destruct (decide (mem ∈ dom (valueNameMap g))); exact A2.
    + rewrite run_ret. now apply IH.
Qed.

(** The five walks over memory accesses, with everything they establish. *)
Lemma collectCaptures_full rv node g :
  exists c g',
    collectCaptures (Some rv) node g = Ok (c, g') /\
    captured_in (scan (dom (valueNameMap g)) (accesses node)) c
                (dom (valueNameMap g')) /\
    args_named (varCounter g) (scan (dom (valueNameMap g)) (accesses node)) g' /\
    dom (valueNameMap g') = dom (valueNameMap g) ∪ touched (accesses node) /\
    naming g g'.
Proof.
  assert (A0 : args_named (varCounter g) [] g).
  { split; [simpl; lia|]. intros i v Hi. discriminate. }
  unfold collectCaptures, walkLoads, walkStores.
  destruct (foldM_loads_run rv vectorLoadAccess "vec" (walk node) (mkCaptures 0 ∅, 0) g []
              (captured_in_empty _)) as (st1 & g1 & E1 & S1 & D1 & I1).
  pose proof (foldM_loads_args rv vectorLoadAccess "vec" (walk node) (mkCaptures 0 ∅, 0)
                g [] (varCounter g) st1 g1 (captured_in_empty _) A0 E1) as A1.
  destruct (foldM_loads_run rv affineLoadAccess "R" (walk node) (fst st1, 0) g1 _ I1)
    as (st2 & g2 & E2 & S2 & D2 & I2).
  pose proof (foldM_loads_args rv _ _ _ (fst st1, 0) _ _ _ _ _ I1 A1 E2) as A2.
  destruct (foldM_loads_run rv loadAccess "R" (walk node) st2 g2 _ I2)
    as (st3 & g3 & E3 & S3 & D3 & I3).
  pose proof (foldM_loads_args rv _ _ _ _ _ _ _ _ _ I2 A2 E3) as A3.
  destruct (foldM_stores_run rv affineStoreMemref (walk node) (fst st3) g3 _ I3)
    as (c4 & g4 & E4 & S4 & D4 & I4).
  pose proof (foldM_stores_args rv _ _ _ _ _ _ _ _ I3 A3 E4) as A4.
  destruct (foldM_stores_run rv vectorStoreMemref (walk node) c4 g4 _ I4)
    as (c5 & g5 & E5 & S5 & D5 & I5).
  pose proof (foldM_stores_args rv _ _ _ _ _ _ _ _ I4 A4 E5) as A5.
  assert (Erun : (st <- foldM (fun st op => match vectorLoadAccess op with
                        | Some (mem, result) =>
                            c <- capture (Some rv) mem (fst st) ;;
                            n <- nameResult (Some rv) "vec" "" (snd st) result ;;
                            ret (c, n)
                        | None => ret st
                        end) (mkCaptures 0 ∅, 0) (walk node) ;;
                  st <- foldM (fun st op => match affineLoadAccess op with
                        | Some (mem, result) =>
                            c <- capture (Some rv) mem (fst st) ;;
                            n <- nameResult (Some rv) "R" "" (snd st) result ;;
                            ret (c, n)
                        | None => ret st
                        end) (fst st, 0) (walk node) ;;
                  st <- foldM (fun st op => match loadAccess op with
                        | Some (mem, result) =>
                            c <- capture (Some rv) mem (fst st) ;;
                            n <- nameResult (Some rv) "R" "" (snd st) result ;;
                            ret (c, n)
                        | None => ret st
                        end) st (walk node) ;;
                  c <- foldM (fun c op => match affineStoreMemref op with
                        | Some mem => capture (Some rv) mem c
                        | None => ret c
                        end) (fst st) (walk node) ;;
                  foldM (fun c op => match vectorStoreMemref op with
                        | Some mem => capture (Some rv) mem c
                        | None => ret c
                        end) c (walk node)) g = Ok (c5, g5)).
  { rewrite (bind_Ok _ _ _ _ _ E1), (bind_Ok _ _ _ _ _ E2), (bind_Ok _ _ _ _ _ E3),
      (bind_Ok _ _ _ _ _ E4). exact E5. }
  exists c5, g5. split; [exact Erun|].
  assert (Hscan : scan (dom (valueNameMap g)) (accesses node)
                  = ((((([] ++ scan (dom (valueNameMap g))
                                   (loads_in vectorLoadAccess (walk node)))
                        ++ scan (dom (valueNameMap g1))
                                (loads_in affineLoadAccess (walk node)))
                       ++ scan (dom (valueNameMap g2)) (loads_in loadAccess (walk node)))
                      ++ scan (dom (valueNameMap g3))
                              (stores_in affineStoreMemref (walk node)))
                     ++ scan (dom (valueNameMap g4))
                             (stores_in vectorStoreMemref (walk node)))).
  { unfold accesses, loadsOf, storesOf. rewrite !scan_app.
    rewrite D4, D3, D2, D1. rewrite <- !app_assoc. simpl.
    repeat match goal with
           | |- context [scan (touched ?a ∪ ?b)] =>
               rewrite (gset_union_comm (touched a) b)
           end.
    reflexivity. }
  rewrite Hscan. split; [exact I5|]. split; [exact A5|]. split.
  - rewrite D5, D4, D3, D2, D1. unfold accesses, loadsOf, storesOf.
    rewrite !touched_app. apply set_eq. intros x. rewrite !elem_of_union. tauto.
  - eapply naming_collectCaptures. exact Erun.
Qed.

(** ** The naming pass: one counter per class *)

Lemma numbered_app prefix suffix l1 : forall counter l2,
  numbered prefix suffix counter (l1 ++ l2)
  = numbered prefix suffix counter l1
    ++ numbered prefix suffix (counter + Z.of_nat (length l1)) l2.
Proof.
  induction l1 as [|v l1 IH]; intros counter l2; simpl.
  - now rewrite Z.add_0_r.
  - rewrite IH. do 3 f_equal. lia.
Qed.

Lemma fst_numbered prefix suffix results : forall counter,
  map fst (numbered prefix suffix counter results) = results.
Proof.
  induction results as [|v rest IH]; intros counter; simpl; [reflexivity|].
  now rewrite IH.
Qed.

Lemma numbered_lookup prefix suffix results : forall counter (k : nat) v,
  results !! k = Some v ->
  (v, prefix +:+ to_string (counter + Z.of_nat k) +:+ suffix)
    ∈ numbered prefix suffix counter results.
Proof.
  induction results as [|v0 rest IH]; intros counter k v H; [discriminate|].
  destruct k as [|k]; cbn [numbered].
  - injection H as ->. rewrite Z.add_0_r. left.
  - right. rewrite Nat2Z.inj_succ.
    replace (counter + Z.succ (Z.of_nat k)) with (counter + 1 + Z.of_nat k) by lia.
    now apply IH.
Qed.

Lemma foldM_names_exact rv (select : Op -> option Value) prefix suffix ops :
  forall counter g,
  exists g',
    foldM (fun c op => match select op with
                       | Some result => nameResult (Some rv) prefix suffix c result
                       | None => ret c
                       end) counter ops g
    = Ok (counter + Z.of_nat (length (omap select ops)), g') /\
    valueNameMap g' =
      define_all (valueNameMap g) (numbered prefix suffix counter (omap select ops)).
Proof.
  induction ops as [|op ops IH]; intros counter g.
  - exists g. simpl. rewrite Z.add_0_r. now split.
  - rewrite foldM_cons. destruct (select op) as [result|] eqn:Hsel.
    + assert (Hcons : omap select (op :: ops) = result :: omap select ops).
      { simpl. now rewrite Hsel. }
      rewrite Hcons.
      destruct (nameResult_run rv prefix suffix counter result g) as (g1 & E1 & N1).
      destruct (IH (counter + 1) g1) as (g2 & E2 & N2).
      exists g2. split.
      * rewrite (bind_Ok _ _ _ _ _ E1), E2. do 2 f_equal.
        cbn [length]. rewrite Nat2Z.inj_succ. lia.
      * rewrite N2, N1. reflexivity.
    + assert (Hcons : omap select (op :: ops) = omap select ops).
      { simpl. now rewrite Hsel. }
      rewrite Hcons, run_ret. apply IH.
Qed.

Lemma walkNames_exact rv select prefix suffix node counter g :
  exists g',
    walkNames (Some rv) select prefix suffix node counter g
    = Ok (counter + Z.of_nat (length (omap select (walk node))), g') /\
    valueNameMap g' =
      define_all (valueNameMap g)
                 (numbered prefix suffix counter (omap select (walk node))) /\
    named_more g g'.
Proof.
  destruct (foldM_names_exact rv select prefix suffix (walk node) counter g)
    as (g' & E & N).
  exists g'. split; [exact E|]. split; [exact N|].
  eapply named_more_walkNames. exact E.
Qed.

(** The three stages of the naming pass: the names given before the walks
    over memory accesses, these walks, the names given after them. *)
Lemma collectVars_stages rv iterate node g :
  at_most_3d node ->
  exists gb c ga g',
    collectVars (Some rv) iterate node g
    = Ok (std_sort (cmp_outsidesVars (outsidesVars c))
                   (map fst (iterate (outsidesVars c))), g') /\
    valueNameMap gb = define_all (valueNameMap g) (names_before_accesses node) /\
    named_more g gb /\
    collectCaptures (Some rv) node gb = Ok (c, ga) /\
    valueNameMap g' = define_all (valueNameMap ga) (names_after_accesses node) /\
    named_more ga g'.
Proof.
  intros H3. unfold collectVars.
  destruct (index_names_run rv node g H3) as (g0 & g1 & E0 & E1 & N1).
  pose proof (named_more_nameParallel _ _ _ _ _ _ E0) as M0.
  assert (M1 : named_more g0 g1).
  { eapply (preserves_forM named_more named_more_refl named_more_trans); [|exact E1].
    intros op _. apply named_more_nameParallel. }
  destruct (walkNames_exact rv forInductionVar "iter" "" node 0 g1) as (g2 & E2 & N2 & M2).
  destruct (walkNames_exact rv applyResult "expr" "" node 0 g2) as (g3 & E3 & N3 & M3).
  destruct (walkNames_exact rv allocResult "array" "" node 0 g3) as (g4 & E4 & N4 & M4).
  destruct (collectCaptures_full rv node g4) as (c & g5 & E5 & _).
  destruct (walkNames_exact rv constantIndexResult "const" "th" node 0 g5)
    as (g6 & E6 & N6 & M6).
  set (k1 := 0 + Z.of_nat (length (omap constantIndexResult (walk node)))) in *.
  destruct (walkNames_exact rv constantFloatResult "const" "th" node k1 g6)
    as (g7 & E7 & N7 & M7).
  set (k2 := k1 + Z.of_nat (length (omap constantFloatResult (walk node)))) in *.
  destruct (walkNames_exact rv constantIntResult "const" "th" node k2 g7)
    as (g8 & E8 & N8 & M8).
  set (k3 := k2 + Z.of_nat (length (omap constantIntResult (walk node)))) in *.
  destruct (walkNames_exact rv mulResult "temp" "" node 0 g8)
    as (h1 & F1 & T1 & Q1).
  set (t1 := 0 + Z.of_nat (length (omap mulResult (walk node)))) in *.
  destruct (walkNames_exact rv addResult "temp" "" node t1 h1)
    as (h2 & F2 & T2 & Q2).
  set (t2 := t1 + Z.of_nat (length (omap addResult (walk node)))) in *.
  destruct (walkNames_exact rv maxResult "temp" "" node t2 h2)
    as (h3 & F3 & T3 & Q3).
  set (t3 := t2 + Z.of_nat (length (omap maxResult (walk node)))) in *.
  destruct (walkNames_exact rv subResult "temp" "" node t3 h3)
    as (h4 & F4 & T4 & Q4).
  set (t4 := t3 + Z.of_nat (length (omap subResult (walk node)))) in *.
  destruct (walkNames_exact rv divResult "temp" "" node t4 h4)
    as (h5 & F5 & T5 & Q5).
  set (t5 := t4 + Z.of_nat (length (omap divResult (walk node)))) in *.
  destruct (walkNames_exact rv expResult "temp" "" node t5 h5)
    as (h6 & F6 & T6 & Q6).
  set (t6 := t5 + Z.of_nat (length (omap expResult (walk node)))) in *.
  destruct (walkNames_exact rv powResult "temp" "" node t6 h6)
    as (h7 & F7 & T7 & Q7).
  set (t7 := t6 + Z.of_nat (length (omap powResult (walk node)))) in *.
  destruct (walkNames_exact rv cmpResult "temp" "" node t7 h7)
    as (h8 & F8 & T8 & Q8).
  set (t8 := t7 + Z.of_nat (length (omap cmpResult (walk node)))) in *.
  destruct (walkNames_exact rv tanhResult "temp" "" node t8 h8)
    as (h9 & F9 & T9 & Q9).
  set (t9 := t8 + Z.of_nat (length (omap tanhResult (walk node)))) in *.
  destruct (walkNames_exact rv sqrtResult "temp" "" node t9 h9)
    as (h10 & F10 & T10 & Q10).
  set (t10 := t9 + Z.of_nat (length (omap sqrtResult (walk node)))) in *.
  destruct (walkNames_exact rv logResult "temp" "" node t10 h10)
    as (h11 & F11 & T11 & Q11).
  set (t11 := t10 + Z.of_nat (length (omap logResult (walk node)))) in *.
  destruct (walkNames_exact rv bitcastResult "temp" "" node t11 h11)
    as (h12 & F12 & T12 & Q12).
  set (t12 := t11 + Z.of_nat (length (omap bitcastResult (walk node)))) in *.
  destruct (walkNames_exact rv shuffleResult "temp" "" node t12 h12)
    as (h13 & F13 & T13 & Q13).
  set (t13 := t12 + Z.of_nat (length (omap shuffleResult (walk node)))) in *.
  exists g4, c, g5, h13. split; [|split; [|split; [|split; [|split]]]].
  - rewrite (bind_Ok _ _ _ _ _ E0), (bind_Ok _ _ _ _ _ E1).
    rewrite (bind_Ok _ _ _ _ _ E2), (bind_Ok _ _ _ _ _ E3), (bind_Ok _ _ _ _ _ E4),
      (bind_Ok _ _ _ _ _ E5), (bind_Ok _ _ _ _ _ E6), (bind_Ok _ _ _ _ _ E7),
      (bind_Ok _ _ _ _ _ E8), (bind_Ok _ _ _ _ _ F1), (bind_Ok _ _ _ _ _ F2),
      (bind_Ok _ _ _ _ _ F3), (bind_Ok _ _ _ _ _ F4), (bind_Ok _ _ _ _ _ F5),
      (bind_Ok _ _ _ _ _ F6), (bind_Ok _ _ _ _ _ F7), (bind_Ok _ _ _ _ _ F8),
      (bind_Ok _ _ _ _ _ F9), (bind_Ok _ _ _ _ _ F10), (bind_Ok _ _ _ _ _ F11),
      (bind_Ok _ _ _ _ _ F12), (bind_Ok _ _ _ _ _ F13).
    reflexivity.
  - unfold names_before_accesses, loops, applications, allocations.
    rewrite !define_all_app, N4, N3, N2, N1. reflexivity.
  - repeat (eapply named_more_trans; [eassumption|]). apply named_more_refl.
  - exact E5.
  - unfold names_after_accesses, constants, temporaries.
    rewrite !numbered_app, !define_all_app.
    rewrite T13, T12, T11, T10, T9, T8, T7, T6, T5, T4, T3, T2, T1, N8, N7, N6.
    reflexivity.
  - repeat (eapply named_more_trans; [eassumption|]). apply named_more_refl.
Qed.

(** ** The naming pass: its result and its frame *)

Lemma fst_names_before_accesses node :
  map fst (names_before_accesses node) = named_before_accesses node.
Proof.
  unfold names_before_accesses, named_before_accesses, loops, applications, allocations.
  now rewrite !map_app, !fst_numbered.
Qed.

Lemma dom_before_accesses node g gb :
  valueNameMap gb = define_all (valueNameMap g) (names_before_accesses node) ->
  dom (valueNameMap gb)
  = dom (valueNameMap g) ∪ list_to_set (named_before_accesses node).
Proof. intros ->. now rewrite dom_define_all, fst_names_before_accesses. Qed.

(** The run of the naming pass on a kernel, with the list it returns and
    the state it leaves. *)
Lemma collectVars_full rv iterate node g :
  enumerates iterate -> at_most_3d node ->
  let captured :=
    scan (dom (valueNameMap g) ∪ list_to_set (named_before_accesses node))
         (accesses node) in
  exists g',
    collectVars (Some rv) iterate node g = Ok (captured, g') /\
    NoDup captured /\
    args_named (varCounter g) captured g' /\
    naming g g'.
Proof.
  intros Hit H3 captured.
  destruct (collectVars_stages rv iterate node g H3)
    as (gb & c & ga & g' & E & Nb & Mb & Ec & Na & Ma).
  destruct (collectCaptures_full rv node gb) as (c' & ga' & Ec' & I & A & D & Nc).
  rewrite Ec in Ec'. injection Ec' as <- <-.
  rewrite (dom_before_accesses _ _ _ Nb) in I, A.
  fold captured in I, A.
  rewrite (std_sort_captured _ _ _ _ Hit I) in E.
  exists g'. split; [exact E|]. split; [apply I|]. split.
  - eapply args_named_more; [exact Ma|].
    destruct Mb as (_ & _ & Hv & _). now rewrite Hv in A.
  - eapply naming_collectVars, E.
Qed.

(** What a returned run of the naming pass has done, in whatever build. *)
Lemma collectVars_returned_full missingReturn iterate node g captured g' :
  enumerates iterate ->
  collectVars missingReturn iterate node g = Ok (captured, g') ->
  at_most_3d node /\
  captured = scan (dom (valueNameMap g) ∪ list_to_set (named_before_accesses node))
                  (accesses node) /\
  NoDup captured /\
  args_named (varCounter g) captured g' /\
  naming g g'.
Proof.
  intros Hit H.
  pose proof (collectVars_Ok_at_most_3d _ _ _ _ _ _ H) as H3.
  apply (returns_alike_collectVars _ true) in H.
  destruct (collectVars_full true iterate node g Hit H3) as (g'' & E & Hnd & Ha & Hn).
  rewrite E in H. injection H as <- <-. auto.
Qed.

(** X17.  Whenever the naming pass returns, in whatever build, the values
    it returns are named [arg] followed by the numbers from the value of
    [varCounter] on, in the order of the list, and the counter is advanced
    by their number: the numbering goes on from one kernel of a module to
    the next. *)
Theorem captured_values_named_arg missingReturn iterate node g captured g' :
  enumerates iterate ->
  collectVars missingReturn iterate node g = Ok (captured, g') ->
  varCounter g' = varCounter g + Z.of_nat (length captured) /\
  (forall (i : nat) v,
     captured !! i = Some v ->
     valueNameMap g' !! v = Some ("arg" +:+ to_string (varCounter g + Z.of_nat i))) /\
  (forall (i j : nat) v w,
     captured !! i = Some v -> captured !! j = Some w -> i <> j ->
     v <> w /\ valueNameMap g' !! v <> valueNameMap g' !! w).
Proof.
  intros Hit Hrun.
  destruct (collectVars_returned_full _ _ _ _ _ _ Hit Hrun)
    as (_ & _ & Hnd & (Hc & Hl) & _).
  split; [exact Hc|]. split; [exact Hl|].
  intros i j v w Hi Hj Hij. split.
  - intros <-. apply Hij. eapply NoDup_lookup; eassumption.
  - rewrite (Hl _ _ Hi), (Hl _ _ Hj). intros [= H].
    apply prefixed_inj, to_string_inj in H. lia.
Qed.

(** X18.  The naming pass writes no text and takes no kernel number, and every
    value that had a name keeps it: names are only added. *)
Theorem collectVars_only_adds_names missingReturn iterate node g captured g' :
  collectVars missingReturn iterate node g = Ok (captured, g') ->
  source g' = source g /\
  kernelCounter g' = kernelCounter g /\
  varCounter g <= varCounter g' /\
  (forall v name,
     valueNameMap g !! v = Some name -> valueNameMap g' !! v = Some name).
Proof.
  intros E. destruct (naming_collectVars _ _ _ _ _ _ E) as (Hs & Hk & Hn & Hv).
  split; [exact Hs|]. split; [exact Hk|]. split; [exact Hv|].
  intros v name H. eapply lookup_weaken; eassumption.
Qed.

Lemma scan_complete accs : forall named v,
  v ∈ map fst accs -> v ∉ named -> v ∉ omap snd accs -> v ∈ scan named accs.
Proof.
  induction accs as [|[mem res] accs IH]; intros named v Hin Hnot Hres.
  - inversion Hin.
  - rewrite scan_cons. simpl in Hin.
    assert (Hres' : v ∉ omap snd accs).
    { intros H. apply Hres. destruct res as [r|]; simpl; [now right|exact H]. }
    apply elem_of_cons in Hin as [->|Hin].
    + rewrite decide_False by assumption. left.
    + destruct (decide (v = mem)) as [->|Hne].
      { rewrite decide_False by assumption. left. }
      assert (Hnamed : v ∉ touched [(mem, res)] ∪ named).
      { intros H. apply elem_of_union in H as [H|H]; [|contradiction].
        destruct res as [r|].
        - rewrite touched_load in H.
          apply elem_of_union in H as [H|H]; apply elem_of_singleton in H.
          + contradiction.
          + subst. apply Hres. simpl. left.
        - rewrite touched_store in H. apply elem_of_singleton in H. contradiction. }
      destruct (decide (mem ∈ named)); [|right]; now apply IH.
Qed.

(** X19.  Whenever the naming pass returns, in whatever build, the values
    it returns are, each once, memrefs of the loads and stores of the
    kernel (including those in the else-region of an [affine.if]) that had
    no name before the pass and are not named by it before the accesses
    are walked; and every such memref that is not itself the result of a
    load of the kernel is among them. *)
Theorem captured_iff_accessed_without_name missingReturn iterate node g captured g' :
  enumerates iterate ->
  collectVars missingReturn iterate node g = Ok (captured, g') ->
  NoDup captured /\
  (forall v, v ∈ captured ->
     v ∈ map fst (accesses node) /\ valueNameMap g !! v = None /\
     v ∉ named_before_accesses node) /\
  (forall v, v ∈ map fst (accesses node) ->
     valueNameMap g !! v = None -> v ∉ named_before_accesses node ->
     v ∉ omap snd (accesses node) ->
     v ∈ captured).
Proof.
  intros Hit Hrun.
  destruct (collectVars_returned_full _ _ _ _ _ _ Hit Hrun)
    as (_ & Hc & Hnd & _ & _).
  split; [exact Hnd|]. rewrite Hc. split.
  - intros v Hv. split; [eapply scan_accessed, Hv|].
    apply scan_fresh in Hv. split.
    + apply not_elem_of_dom. intros H. apply Hv, elem_of_union. now left.
    + intros H. apply Hv, elem_of_union. right. now apply elem_of_list_to_set.
  - intros v Hacc Hfresh Hbefore Hres. apply scan_complete; [assumption| |assumption].
    intros H. apply elem_of_union in H as [H|H].
    + apply not_elem_of_dom in Hfresh. contradiction.
    + apply elem_of_list_to_set in H. contradiction.
Qed.

(** ** The naming pass: names by class and position *)

Lemma define_other names v n w : w <> v -> define names v n !! w = names !! w.
Proof.
  intros H. unfold define. destruct (names !! v); [reflexivity|].
  now rewrite lookup_insert_ne.
Qed.

Lemma define_all_other l : forall names w,
  w ∉ map fst l -> define_all names l !! w = names !! w.
Proof.
  induction l as [|[v n] l IH]; intros names w H; [reflexivity|].
  simpl in H. apply not_elem_of_cons in H as [Hne Hnot].
  simpl. unfold define_all in IH. rewrite IH by assumption.
  now apply define_other.
Qed.

Lemma capture_other rv mem c g c' g' w :
  capture (Some rv) mem c g = Ok (c', g') -> w <> mem ->
  valueNameMap g' !! w = valueNameMap g !! w.
Proof.
  unfold capture, bind, hasValueName.
  destruct (bool_decide _); [now intros [= _ <-]|].
  destruct (outsidesVars c !! mem); [now intros [= _ <-]|].
  unfold getArgName, setValueName. simpl.
  destruct (valueNameMap g !! mem) eqn:E; intros [= _ <-] Hne; simpl;
    [reflexivity|now rewrite lookup_insert_ne].
Qed.

Lemma nameResult_other rv prefix suffix counter result g n g' w :
  nameResult (Some rv) prefix suffix counter result g = Ok (n, g') -> w <> result ->
  valueNameMap g' !! w = valueNameMap g !! w.
Proof.
  intros E Hne.
  destruct (nameResult_run rv prefix suffix counter result g) as (g1 & E1 & N1).
  rewrite E1 in E. injection E as _ <-. rewrite N1. now apply define_other.
Qed.

Lemma foldM_loads_other rv (select : Op -> option (Value * Value)) prefix ops :
  forall st g st' g' w,
    foldM (fun st op => match select op with
                        | Some (mem, result) =>
                            c <- capture (Some rv) mem (fst st) ;;
                            n <- nameResult (Some rv) prefix "" (snd st) result ;;
                            ret (c, n)
                        | None => ret st
                        end) st ops g = Ok (st', g') ->
    w ∉ touched (loads_in select ops) ->
    valueNameMap g' !! w = valueNameMap g !! w.
Proof.
  induction ops as [|op ops IH]; intros st g st' g' w.
  - now intros [= _ <-].
  - rewrite foldM_cons, loads_in_cons. destruct (select op) as [[mem result]|].
    + intros H Hw. rewrite touched_cons, touched_load in Hw.
      apply bind_inv in H as ([c n] & g2 & Hstep & Hrest).
      apply bind_inv in Hstep as (c1 & g1 & H1 & Hstep).
      apply bind_inv in Hstep as (n1 & g1' & H2 & Hstep).
      injection Hstep as <- <- <-.
      rewrite (IH _ _ _ _ _ Hrest) by set_solver.
      rewrite (nameResult_other rv _ _ _ _ _ _ _ _ H2) by set_solver.
      apply (capture_other rv _ _ _ _ _ _ H1). set_solver.
    + rewrite run_ret. apply IH.
Qed.

Lemma foldM_stores_other rv (select : Op -> option Value) ops :
  forall c g c' g' w,
    foldM (fun c op => match select op with
                       | Some mem => capture (Some rv) mem c
                       | None => ret c
                       end) c ops g = Ok (c', g') ->
    w ∉ touched (stores_in select ops) ->
    valueNameMap g' !! w = valueNameMap g !! w.
Proof.
  induction ops as [|op ops IH]; intros c g c' g' w.
  - now intros [= _ <-].
  - rewrite foldM_cons, stores_in_cons. destruct (select op) as [mem|].
    + intros H Hw. rewrite touched_cons, touched_store in Hw.
      apply bind_inv in H as (c1 & g1 & H1 & Hrest).
      rewrite (IH _ _ _ _ _ Hrest) by set_solver.
      apply (capture_other rv _ _ _ _ _ _ H1). set_solver.
    + rewrite run_ret. apply IH.
Qed.

Lemma naming_foldM_loads missingReturn (select : Op -> option (Value * Value)) prefix ops st :
  preserves naming
    (foldM (fun st op => match select op with
                         | Some (mem, result) =>
                             c <- capture missingReturn mem (fst st) ;;
                             n <- nameResult missingReturn prefix "" (snd st) result ;;
                             ret (c, n)
                         | None => ret st
                         end) st ops).
Proof. naming_go. Qed.

Lemma naming_foldM_stores missingReturn (select : Op -> option Value) ops c :
  preserves naming
    (foldM (fun c op => match select op with
                        | Some mem => capture missingReturn mem c
                        | None => ret c
                        end) c ops).
Proof. naming_go. Qed.

Lemma omap_snd_loads_in_cons select op ops mem result :
  select op = Some (mem, result) ->
  omap snd (loads_in select (op :: ops)) = result :: omap snd (loads_in select ops).
Proof. intros H. rewrite loads_in_cons, H. reflexivity. Qed.

(** The results of the loads of one walk are numbered in the order of the
    walk, from the value the counter has when the walk starts. *)
Lemma foldM_loads_results rv (select : Op -> option (Value * Value)) prefix ops :
  forall st g st' g',
    foldM (fun st op => match select op with
                        | Some (mem, result) =>
                            c <- capture (Some rv) mem (fst st) ;;
                            n <- nameResult (Some rv) prefix "" (snd st) result ;;
                            ret (c, n)
                        | None => ret st
                        end) st ops g = Ok (st', g') ->
    snd st' = snd st + Z.of_nat (length (omap snd (loads_in select ops))) /\
    (NoDup (omap snd (loads_in select ops)) ->
     forall (k : nat) res,
       omap snd (loads_in select ops) !! k = Some res ->
       valueNameMap g !! res = None ->
       res ∉ map fst (loads_in select ops) ->
       valueNameMap g' !! res = Some (prefix +:+ to_string (snd st + Z.of_nat k))).
Proof.
  induction ops as [|op ops IH]; intros st g st' g'.
  - intros [= <- <-]. simpl. split; [lia|]. intros _ k res H. discriminate.
  - rewrite foldM_cons. destruct (select op) as [[mem result]|] eqn:Hsel.
    + rewrite (omap_snd_loads_in_cons _ _ _ _ _ Hsel).
      assert (Hfst : map fst (loads_in select (op :: ops))
                     = mem :: map fst (loads_in select ops)).
      { now rewrite loads_in_cons, Hsel. }
      rewrite Hfst. intros H.
      apply bind_inv in H as ([c n] & g2 & Hstep & Hrest).
      apply bind_inv in Hstep as (c1 & g1 & H1 & Hstep).
      apply bind_inv in Hstep as (n1 & g1' & H2 & Hstep).
      injection Hstep as <- <- <-.
      destruct (nameResult_run rv prefix "" (snd st) result g1) as (g1'' & E2 & N2).
      rewrite E2 in H2. injection H2 as <- <-.
      destruct (IH _ _ _ _ Hrest) as (Hcount & Hnames). simpl in Hcount.
      split; [cbn [length]; rewrite Nat2Z.inj_succ; lia|].
      intros Hnd k res Hk Hfresh Hmem.
      apply NoDup_cons in Hnd as [Hhead Hnd].
      apply not_elem_of_cons in Hmem as [Hne Hmem].
      destruct k as [|k]; simpl in Hk.
      * injection Hk as ->. rewrite Z.add_0_r.
        eapply lookup_weaken; [|eapply (naming_foldM_loads _ select prefix), Hrest].
        rewrite N2. rewrite append_nil_r. apply define_fresh.
        now rewrite (capture_other rv _ _ _ _ _ _ H1).
      * rewrite (Hnames Hnd k res Hk); [| |assumption].
        -- simpl. do 3 f_equal. lia.
        -- rewrite N2, define_other.
           ++ now rewrite (capture_other rv _ _ _ _ _ _ H1).
           ++ intros ->. apply Hhead. eapply list_elem_of_lookup_2, Hk.
    + assert (Hl : loads_in select (op :: ops) = loads_in select ops).
      { now rewrite loads_in_cons, Hsel. }
      rewrite Hl, run_ret. apply IH.
Qed.

Lemma names_kept g g' v name :
  naming g g' -> valueNameMap g !! v = Some name -> valueNameMap g' !! v = Some name.
Proof. intros (_ & _ & Hn & _) H. eapply lookup_weaken; eassumption. Qed.

Lemma names_kept_more g g' v name :
  named_more g g' -> valueNameMap g !! v = Some name ->
  valueNameMap g' !! v = Some name.
Proof. intros (_ & _ & _ & Hn) H. eapply lookup_weaken; eassumption. Qed.

(** X20.  Whenever the naming pass returns, in whatever build, for a
    kernel whose induction variables, [affine.apply] results and
    allocations are distinct values without a name, it has named the
    induction variable of the k-th loop in pre-order [iter] followed by k,
    the result of the k-th [affine.apply] [expr] followed by k, and the
    k-th allocation [array] followed by k, each class counted from 0. *)
Theorem loops_applications_allocations_named
    missingReturn iterate node g captured g' :
  collectVars missingReturn iterate node g = Ok (captured, g') ->
  NoDup (named_before_accesses node) ->
  (forall v, v ∈ named_before_accesses node -> valueNameMap g !! v = None) ->
  (forall (k : nat) v, loops node !! k = Some v ->
     valueNameMap g' !! v = Some ("iter" +:+ to_string (Z.of_nat k))) /\
  (forall (k : nat) v, applications node !! k = Some v ->
     valueNameMap g' !! v = Some ("expr" +:+ to_string (Z.of_nat k))) /\
  (forall (k : nat) v, allocations node !! k = Some v ->
     valueNameMap g' !! v = Some ("array" +:+ to_string (Z.of_nat k))).
Proof.
  intros Hrun Hnd Hfresh.
  pose proof (collectVars_Ok_at_most_3d _ _ _ _ _ _ Hrun) as H3.
  apply (returns_alike_collectVars _ true) in Hrun.
  destruct (collectVars_stages true iterate node g H3)
    as (gb & c & ga & g'' & E & Nb & Mb & Ec & Na & Ma).
  rewrite E in Hrun. injection Hrun as _ ->.
  assert (Hname : forall v n,
            (v, n) ∈ names_before_accesses node -> valueNameMap g' !! v = Some n).
  { intros v n Hin.
    eapply names_kept_more; [exact Ma|].
    eapply names_kept; [eapply (naming_collectCaptures (Some true)), Ec|].
    rewrite Nb. apply define_all_fresh; [|assumption|].
    - now rewrite fst_names_before_accesses.
    - apply Hfresh. rewrite <- fst_names_before_accesses.
      apply list_elem_of_fmap. now exists (v, n). }
  assert (Hnum : forall prefix results (k : nat) v,
            results !! k = Some v ->
            (v, prefix +:+ to_string (Z.of_nat k)) ∈ numbered prefix "" 0 results).
  { intros prefix results k v Hk.
    pose proof (numbered_lookup prefix "" results 0 k v Hk) as H.
    now rewrite append_nil_r, Z.add_0_l in H. }
  unfold names_before_accesses in Hname. split; [|split].
  - intros k v Hk. apply Hname. rewrite !elem_of_app. right. left. now apply Hnum.
  - intros k v Hk. apply Hname. rewrite !elem_of_app. do 2 right. left.
    now apply Hnum.
  - intros k v Hk. apply Hname. rewrite !elem_of_app. do 3 right. now apply Hnum.
Qed.

(** X21.  The constants of a kernel share one counter and the arithmetic
    results another, and each counter runs class by class, not in program
    order: whenever the naming pass returns, in whatever build, the k-th
    value of [constants] (index constants, then floating-point, then
    integer constants) is named [const] k [th] and the k-th value of
    [temporaries] (all products, then all sums, and so on) is named
    [temp] k, provided these values are distinct and nothing names them
    earlier. *)
Theorem constants_and_temporaries_numbered_by_class
    missingReturn iterate node g captured g' :
  collectVars missingReturn iterate node g = Ok (captured, g') ->
  NoDup (constants node ++ temporaries node) ->
  (forall v, v ∈ (constants node ++ temporaries node) ->
     valueNameMap g !! v = None /\ (v ∉ named_before_accesses node) /\
     (v ∉ touched (accesses node))) ->
  (forall (k : nat) v, constants node !! k = Some v ->
     valueNameMap g' !! v = Some ("const" +:+ to_string (Z.of_nat k) +:+ "th")) /\
  (forall (k : nat) v, temporaries node !! k = Some v ->
     valueNameMap g' !! v = Some ("temp" +:+ to_string (Z.of_nat k))).
Proof.
  intros Hrun Hnd Hfresh.
  pose proof (collectVars_Ok_at_most_3d _ _ _ _ _ _ Hrun) as H3.
  apply (returns_alike_collectVars _ true) in Hrun.
  destruct (collectVars_stages true iterate node g H3)
    as (gb & c & ga & g'' & E & Nb & Mb & Ec & Na & Ma).
  rewrite E in Hrun. injection Hrun as _ ->.
  destruct (collectCaptures_full true node gb) as (c' & ga' & Ec' & _ & _ & D & _).
  rewrite Ec in Ec'. injection Ec' as <- <-.
  assert (Hfst : map fst (names_after_accesses node)
                 = constants node ++ temporaries node).
  { unfold names_after_accesses. now rewrite map_app, !fst_numbered. }
  assert (Hname : forall v n,
            (v, n) ∈ names_after_accesses node -> valueNameMap g' !! v = Some n).
  { intros v n Hin. rewrite Na. apply define_all_fresh; [|assumption|].
    - now rewrite Hfst.
    - assert (Hv : v ∈ (constants node ++ temporaries node)).
      { rewrite <- Hfst. apply list_elem_of_fmap. now exists (v, n). }
      destruct (Hfresh v Hv) as (Hg & Hb & Ht).
      apply not_elem_of_dom. rewrite D, (dom_before_accesses _ _ _ Nb).
      rewrite !elem_of_union, elem_of_list_to_set.
      apply not_elem_of_dom in Hg. tauto. }
  unfold names_after_accesses in Hname. split.
  - intros k v Hk. apply Hname. rewrite elem_of_app. left.
    pose proof (numbered_lookup "const" "th" (constants node) 0 k v Hk) as H.
    now rewrite Z.add_0_l in H.
  - intros k v Hk. apply Hname. rewrite elem_of_app. right.
    pose proof (numbered_lookup "temp" "" (temporaries node) 0 k v Hk) as H.
    now rewrite append_nil_r, Z.add_0_l in H.
Qed.

Lemma fst_accesses node :
  map fst (accesses node)
  = map fst (loadsOf vectorLoadAccess node) ++ map fst (loadsOf affineLoadAccess node)
    ++ map fst (loadsOf loadAccess node) ++ map fst (storesOf affineStoreMemref node)
    ++ map fst (storesOf vectorStoreMemref node).
Proof. unfold accesses. now rewrite !map_app. Qed.

Lemma touched_spec accs v :
  v ∈ touched accs <-> v ∈ map fst accs \/ v ∈ omap snd accs.
Proof. unfold touched. now rewrite elem_of_union, !elem_of_list_to_set. Qed.

Lemma omap_snd_stores_in select ops : omap snd (stores_in select ops) = [].
Proof.
  induction ops as [|op ops IH]; [reflexivity|].
  rewrite stores_in_cons. now destruct (select op).
Qed.

(** X22.  Whenever the naming pass returns, in whatever build, the
    results of the vector loads are named [vec] followed by their position
    among the vector loads; the results of the scalar loads share one
    counter that runs over the [affine.load]s first and goes on over the
    [memref.load]s: the k-th value of [registers] is named [R] k (for
    distinct results that nothing names earlier). *)
Theorem load_results_numbered_by_class missingReturn iterate node g captured g' :
  collectVars missingReturn iterate node g = Ok (captured, g') ->
  NoDup (vectors node ++ registers node) ->
  (forall v, v ∈ (vectors node ++ registers node) ->
     valueNameMap g !! v = None /\ (v ∉ named_before_accesses node) /\
     (v ∉ map fst (accesses node))) ->
  (forall (k : nat) v, vectors node !! k = Some v ->
     valueNameMap g' !! v = Some ("vec" +:+ to_string (Z.of_nat k))) /\
  (forall (k : nat) v, registers node !! k = Some v ->
     valueNameMap g' !! v = Some ("R" +:+ to_string (Z.of_nat k))).
Proof.
  intros Hrun Hnd Hfresh.
  pose proof (collectVars_Ok_at_most_3d _ _ _ _ _ _ Hrun) as H3.
  apply (returns_alike_collectVars _ true) in Hrun.
  destruct (collectVars_stages true iterate node g H3)
    as (gb & c & ga & g'' & E & Nb & Mb & Ec & Na & Ma).
  rewrite E in Hrun. injection Hrun as _ ->.
  (* the state before the accesses *)
  assert (Hgb : forall v, v ∈ (vectors node ++ registers node) ->
                          valueNameMap gb !! v = None).
  { intros v Hv. destruct (Hfresh v Hv) as (Hg & Hb & _).
    rewrite Nb, define_all_other; [exact Hg|].
    now rewrite fst_names_before_accesses. }
  assert (Hmem : forall v, v ∈ (vectors node ++ registers node) ->
                           v ∉ map fst (accesses node)).
  { intros v Hv. apply (Hfresh v Hv). }
  rewrite fst_accesses in Hmem.
  (* the five walks *)
  unfold collectCaptures, walkLoads, walkStores in Ec.
  apply bind_inv in Ec as (st1 & s1 & F1 & Ec).
  apply bind_inv in Ec as (st2 & s2 & F2 & Ec).
  apply bind_inv in Ec as (st3 & s3 & F3 & Ec).
  apply bind_inv in Ec as (c4 & s4 & F4 & F5).
  pose proof (naming_foldM_loads _ _ _ _ _ _ _ _ F2) as K2.
  pose proof (naming_foldM_loads _ _ _ _ _ _ _ _ F3) as K3.
  pose proof (naming_foldM_stores _ _ _ _ _ _ _ F4) as K4.
  pose proof (naming_foldM_stores _ _ _ _ _ _ _ F5) as K5.
  assert (Hend : forall v name, valueNameMap s3 !! v = Some name ->
                                valueNameMap g' !! v = Some name).
  { intros v name H. eapply names_kept_more; [exact Ma|].
    eapply names_kept; [exact K5|]. eapply names_kept; [exact K4|]. exact H. }
  apply NoDup_app in Hnd as (Hndv & Hdisj & Hndr).
  unfold registers in Hndr. apply NoDup_app in Hndr as (Hnda & Hdisj' & Hndl).
  destruct (foldM_loads_results _ _ _ _ _ _ _ _ F1) as (C1 & R1).
  destruct (foldM_loads_results _ _ _ _ _ _ _ _ F2) as (C2 & R2).
  destruct (foldM_loads_results _ _ _ _ _ _ _ _ F3) as (C3 & R3).
  simpl in C2, R1, R2. split.
  - intros k v Hk.
    assert (Hv : v ∈ (vectors node ++ registers node)).
    { apply elem_of_app. left. eapply list_elem_of_lookup_2, Hk. }
    apply Hend. eapply names_kept; [exact K3|]. eapply names_kept; [exact K2|].
    rewrite (R1 Hndv k v Hk); [now rewrite Z.add_0_l|now apply Hgb|].
    intros H. apply (Hmem v Hv). rewrite !elem_of_app. now left.
  - intros k v Hk.
    assert (Hv : v ∈ (vectors node ++ registers node)).
    { apply elem_of_app. right. eapply list_elem_of_lookup_2, Hk. }
    assert (Hs1 : valueNameMap s1 !! v = None).
    { rewrite (foldM_loads_other _ _ _ _ _ _ _ _ v F1); [now apply Hgb|].
      rewrite touched_spec. intros [H|H].
      - apply (Hmem v Hv). rewrite !elem_of_app. now left.
      - apply (Hdisj v H). eapply list_elem_of_lookup_2, Hk. }
    unfold registers in Hk. apply lookup_app_Some in Hk as [Hk|[Hlen Hk]].
    + apply Hend. eapply names_kept; [exact K3|].
      rewrite (R2 Hnda k v Hk); [now rewrite Z.add_0_l|exact Hs1|].
      intros H. apply (Hmem v Hv). rewrite !elem_of_app. right. now left.
    + apply Hend.
      rewrite (R3 Hndl _ v Hk).
      * rewrite C2. do 3 f_equal. unfold loadsOf in *. lia.
      * rewrite (foldM_loads_other _ _ _ _ _ _ _ _ v F2); [exact Hs1|].
        rewrite touched_spec. intros [H|H].
        -- apply (Hmem v Hv). rewrite !elem_of_app. right. now left.
        -- apply (Hdisj' v H). eapply list_elem_of_lookup_2, Hk.
      * intros H. apply (Hmem v Hv). rewrite !elem_of_app. do 2 right. now left.
Qed.

(** ** Kernels *)

Lemma scan_all_named accs : forall named,
  (forall v, v ∈ map fst accs -> v ∈ named) -> scan named accs = [].
Proof.
  induction accs as [|[mem res] accs IH]; intros named H; [reflexivity|].
  rewrite scan_cons. rewrite decide_True by (apply H; left).
  apply IH. intros v Hv. apply elem_of_union. right. apply H. now right.
Qed.

Lemma forM_dims_run (dims : list Z) : forall g,
  exists g',
    forM_ dims (fun dim => emit (to_string dim +:+ ", ")) g = Ok (tt, g') /\
    wrote (dims_text dims) g g'.
Proof.
  induction dims as [|d dims IH]; intros g.
  - exists g. split; [reflexivity|]. apply wrote_quiet, quiet_refl.
  - destruct (IH (emitted (to_string d +:+ ", ") g)) as (g' & E & W).
    exists g'. split; [rewrite forM_cons, run_emit; exact E|].
    destruct W as (Hs & Hn & Hk & Hv). revert Hs Hn Hk Hv.
    wrote_tac; intros; try congruence.
    rewrite Hs, !append_assoc. reflexivity.
Qed.



Lemma prototype_frame getType ci vars g g' :
  prototype getType ci vars g = Ok (tt, g') ->
  valueNameMap g' = valueNameMap g /\ varCounter g' = varCounter g /\
  kernelCounter g' = kernelCounter g + 1.
Proof.
  unfold prototype. rewrite run_indent. intros H.
  apply bind_inv in H as (name & g1 & H1 & H).
  injection H1 as <- <-.
  rewrite run_emit in H.
  apply bind_inv in H as (first & g2 & H2 & H).
  apply quiet_vector_at in H2 as (S2 & N2 & K2 & V2).
  apply bind_inv in H as ([] & g3 & H3 & H).
  apply same_tables_varDeclear in H3 as (N3 & K3 & V3).
  apply bind_inv in H as ([] & g4 & H4 & H).
  assert (T4 : same_tables g3 g4).
  { eapply (preserves_forM same_tables same_tables_refl same_tables_trans); [|exact H4].
    intros v _. apply preserves_bind; [exact same_tables_trans| |intros _].
    - intros ? ? ? [= _ <-]. now repeat split.
    - apply same_tables_varDeclear. }
  destruct T4 as (N4 & K4 & V4). injection H as <-. simpl in *.
  repeat split; congruence.
Qed.

Lemma assert_true NDEBUG (c : bool) g : c = true -> assert_ NDEBUG c g = Ok (tt, g).
Proof. intros ->. unfold assert_. now destruct NDEBUG. Qed.


(** A kernel for which nothing is captured has no parameter. *)
Lemma nothing_captured_no_kernel
    missingReturn NDEBUG getType getParallelNumber iterate ci node g gn :
  collectVars missingReturn iterate node g = Ok ([], gn) ->
  codegen_AffineParallelOp missingReturn NDEBUG getType getParallelNumber iterate ci
    node g
  = Fault (if NDEBUG then undefined_behaviour else assertion_failed).
Proof.
  intros E. unfold codegen_AffineParallelOp. rewrite (bind_Ok _ _ _ _ _ E).
  destruct NDEBUG; [|reflexivity].
  change (assert_ true (bool_decide (length (@nil Value) ≠ 0%nat)))
    with (@ret unit tt).
  rewrite run_ret. autorewrite with run_db.
  match goal with
  | |- context [bind (forM_ ?l _) _ ?s] =>
      destruct (forM_dims_run l s) as (g1 & E1 & _)
  end.
  rewrite (bind_Ok _ _ _ _ _ E1). autorewrite with run_db.
  match goal with
  | |- context [bind (forM_ ?l _) _ ?s] =>
      destruct (forM_dims_run l s) as (g2 & E2 & _)
  end.
  rewrite (bind_Ok _ _ _ _ _ E2). autorewrite with run_db.
  reflexivity.
Qed.


(** X24.  A kernel every memref of which has a name before the accesses
    are walked (a kernel without loads and stores, or one that only touches
    its own allocations) is not generated in any build: whenever the naming
    pass returns for it, it returns no value, the [assert] on the list of
    captured values fails, and without assertions the first element of the
    empty list is read. *)
Theorem kernel_without_parameter_is_not_generated
    missingReturn NDEBUG getType getParallelNumber iterate ci node g :
  enumerates iterate ->
  (forall v, v ∈ map fst (accesses node) ->
     is_Some (valueNameMap g !! v) \/ v ∈ named_before_accesses node) ->
  (forall captured gn,
     collectVars missingReturn iterate node g = Ok (captured, gn) ->
     captured = [] /\
     codegen_AffineParallelOp missingReturn NDEBUG getType getParallelNumber iterate
       ci node g
     = Fault (if NDEBUG then undefined_behaviour else assertion_failed)) /\
  (forall g',
     codegen_AffineParallelOp missingReturn NDEBUG getType getParallelNumber iterate
       ci node g <> Ok (tt, g')).
Proof.
  intros Hit Hnamed.
  assert (Hfault : forall captured gn,
            collectVars missingReturn iterate node g = Ok (captured, gn) ->
            captured = [] /\
            codegen_AffineParallelOp missingReturn NDEBUG getType getParallelNumber
              iterate ci node g
            = Fault (if NDEBUG then undefined_behaviour else assertion_failed)).
  { intros captured gn E.
    destruct (collectVars_returned_full _ _ _ _ _ _ Hit E) as (_ & Hc & _).
    rewrite scan_all_named in Hc.
    2:{ intros v Hv. apply elem_of_union.
        destruct (Hnamed v Hv) as [H|H]; [left; now apply elem_of_dom|right].
        now apply elem_of_list_to_set. }
    subst captured. split; [reflexivity|].
    now apply nothing_captured_no_kernel with (gn := gn). }
  split; [exact Hfault|].
  intros g' Hrun. pose proof Hrun as Hrun'.
  unfold codegen_AffineParallelOp in Hrun'.
  apply bind_inv in Hrun' as (captured & gn & E & _).
  destruct (Hfault captured gn E) as [_ F]. rewrite F in Hrun. discriminate.
Qed.

(** ** Functions and modules *)

Lemma generated_refl g : generated g g.
Proof.
  split; [exists ""; now rewrite append_nil_r|]. repeat split; (reflexivity || lia).
Qed.

Lemma generated_trans g1 g2 g3 : generated g1 g2 -> generated g2 g3 -> generated g1 g3.
Proof.
  intros ((t1 & S1) & N1 & K1 & V1) ((t2 & S2) & N2 & K2 & V2).
  split; [exists (t1 +:+ t2); now rewrite S2, S1, append_assoc|].
  split; [etrans; eassumption|]. lia.
Qed.

Lemma appended_generated {A} (c : M A) : preserves appended c -> preserves generated c.
Proof.
  intros H g a g' E. destruct (H g a g' E) as ((Hn & Hk & Hv) & Hs & _).
  split; [exact Hs|]. rewrite Hn, Hk, Hv. repeat split; (reflexivity || lia).
Qed.

Lemma naming_generated {A} (c : M A) : preserves naming c -> preserves generated c.
Proof.
  intros H g a g' E. destruct (H g a g' E) as (Hs & Hk & Hn & Hv).
  split; [exists ""; now rewrite append_nil_r|].
  split; [exact Hn|]. lia.
Qed.

Lemma generated_prototype getType ci vars : preserves generated (prototype getType ci vars).
Proof.
  intros g [] g' E. destruct (prototype_frame _ _ _ _ _ E) as (Hn & Hv & Hk).
  split.
  - eapply (sim_appends true), E. apply sim_prototype.
  - rewrite Hn, Hv, Hk. repeat split; (reflexivity || lia).
Qed.

Lemma generated_codegen_AffineParallelOp
    missingReturn NDEBUG getType getParallelNumber iterate ci node :
  preserves generated
    (codegen_AffineParallelOp missingReturn NDEBUG getType getParallelNumber iterate ci node).
Proof.
  unfold codegen_AffineParallelOp.
  apply preserves_bind; [exact generated_trans| |intros outsideVars].
  { apply naming_generated, naming_collectVars. }
  repeat first
    [ apply generated_prototype
    | apply appended_generated; solve [appended_go]
    | apply appended_generated; destruct node;
      solve [apply preserves_ret; exact appended_refl | apply appended_kernelBlock]
    | apply preserves_bind; [exact generated_trans| |intros ?] ].
Qed.

Lemma kernelCounter_codegen_AffineParallelOp missingReturn
    NDEBUG getType getParallelNumber iterate ci node g g' :
  codegen_AffineParallelOp missingReturn NDEBUG getType getParallelNumber iterate ci node g
  = Ok (tt, g') ->
  kernelCounter g' = kernelCounter g + 1.
Proof.
  unfold codegen_AffineParallelOp. intros H.
  apply bind_inv in H as (vars & g1 & H1 & H).
  apply naming_collectVars in H1 as (_ & K1 & _ & _).
  apply bind_inv in H as ([] & g2 & H2 & H).
  apply appended_assert in H2 as ((_ & K2 & _) & _).
  rewrite run_indent, run_emit in H.
  apply bind_inv in H as ([] & g3 & H3 & H).
  assert (A3 : appended (emitted "// grid dims:(" (emitted (spaces (Z.to_nat ci)) g2)) g3).
  { eapply (preserves_forM appended appended_refl appended_trans); [|exact H3].
    intros d _. apply appended_emit. }
  destruct A3 as ((_ & K3 & _) & _).
  rewrite run_emit in H.
  apply bind_inv in H as ([] & g4 & H4 & H).
  assert (A4 : appended (emitted (")" +:+ ", block dims:(") g3) g4).
  { eapply (preserves_forM appended appended_refl appended_trans); [|exact H4].
    intros d _. apply appended_emit. }
  destruct A4 as ((_ & K4 & _) & _).
  rewrite run_emit in H.
  apply bind_inv in H as ([] & g5 & H5 & H).
  apply prototype_frame in H5 as (_ & _ & K5).
  apply bind_inv in H as ([] & g6 & H6 & H).
  assert (A6 : appended g5 g6).
  { destruct node; try (injection H6 as <-; apply appended_refl).
    eapply appended_kernelBlock, H6. }
  destruct A6 as ((_ & K6 & _) & _).
  unfold indent, bind, emit in H. injection H as <-. simpl in *. lia.
Qed.

Lemma kernelCounter_codegen_FuncOp
    missingReturn NDEBUG getType getParallelNumber iterate ci funcOp :
  forall g g',
    codegen_FuncOp missingReturn NDEBUG getType getParallelNumber iterate ci funcOp g
      = Ok (tt, g') ->
    kernelCounter g' = kernelCounter g + Z.of_nat (length (kernels_of funcOp)).
Proof.
  unfold codegen_FuncOp, kernels_of.
  induction (funcBody funcOp) as [|op ops IH]; intros g g' H.
  - injection H as <-. simpl. lia.
  - rewrite forM_cons in H. apply bind_inv in H as ([] & g1 & H1 & H).
    apply IH in H. destruct (isParallel op) eqn:E.
    + apply kernelCounter_codegen_AffineParallelOp in H1.
      rewrite filter_cons_True by assumption. cbn [length].
      rewrite Nat2Z.inj_succ. lia.
    + injection H1 as <-. now rewrite filter_cons_False by congruence.
Qed.

Lemma kernelCounter_codegen_ModuleOp
    missingReturn NDEBUG getType getParallelNumber iterate module :
  forall g g',
    codegen_ModuleOp missingReturn NDEBUG getType getParallelNumber iterate module g
      = Ok (tt, g') ->
    kernelCounter g' = kernelCounter g + Z.of_nat (length (kernels module)).
Proof.
  unfold codegen_ModuleOp, kernels.
  induction (functions module) as [|f fs IH]; intros g g' H.
  - injection H as <-. simpl. lia.
  - rewrite forM_cons in H. apply bind_inv in H as ([] & g1 & H1 & H).
    apply IH in H. apply kernelCounter_codegen_FuncOp in H1.
    simpl. rewrite length_app, Nat2Z.inj_add. lia.
Qed.

Lemma generated_codegen_ModuleOp missingReturn NDEBUG getType getParallelNumber iterate module :
  preserves generated
    (codegen_ModuleOp missingReturn NDEBUG getType getParallelNumber iterate module).
Proof.
  unfold codegen_ModuleOp, codegen_FuncOp.
  apply preserves_forM; [exact generated_refl|exact generated_trans|intros f _].
  apply preserves_forM; [exact generated_refl|exact generated_trans|intros op _].
  destruct (isParallel op).
  - apply generated_codegen_AffineParallelOp.
  - apply preserves_ret, generated_refl.
Qed.

(** X25.  The text [CUDAGen] returns begins with the include line and is the
    whole content of the text buffer; the kernels of the module have taken the
    kernel numbers from 0 on, one each; in a debug run the text is also the
    last thing written to the diagnostic stream. *)
Theorem CUDAGen_returns_include_then_kernels missingReturn
    NDEBUG getType getParallelNumber debugLog iterate module g text g' :
  CUDAGen missingReturn NDEBUG getType getParallelNumber debugLog iterate module g
    = Ok (text, g') ->
  (exists rest, text = include_line +:+ rest) /\
  source g' = text /\
  kernelCounter g' = Z.of_nat (length (kernels module)) /\
  (debugLog = true -> exists msgs, errs g' = msgs ++ [text]).
Proof.
  unfold CUDAGen. fold include_line.
  set (s := mkGlobals include_line (errs g) ∅ 0 0).
  assert (E : forall k : M string,
            (clearSource ;;; emit include_line ;;; CUDAGenerator ;;; k) g = k s)
    by reflexivity.
  rewrite E. clear E. intros H.
  apply bind_inv in H as ([] & g1 & H1 & H).
  pose proof (kernelCounter_codegen_ModuleOp _ _ _ _ _ _ _ _ H1) as K1.
  destruct (generated_codegen_ModuleOp _ _ _ _ _ _ _ _ _ H1) as ((rest & S1) & _).
  unfold bind, sourceStr in H. simpl in K1, S1.
  destruct debugLog; injection H as <- <-; simpl.
  - split; [now exists rest|]. split; [reflexivity|]. split; [lia|].
    intros _. now exists (errs g1).
  - split; [now exists rest|]. split; [reflexivity|]. split; [lia|].
    discriminate.
Qed.

(** X26.  For a module without a kernel (no function, or functions whose
    bodies hold no [affine.parallel]: every other operation of a function body
    is passed over) [CUDAGen] returns the include line alone, in either build
    and from any state. *)
Theorem CUDAGen_without_kernel_returns_include_line missingReturn
    NDEBUG getType getParallelNumber debugLog iterate module g :
  kernels module = [] ->
  returned (CUDAGen missingReturn NDEBUG getType getParallelNumber debugLog iterate module g)
  = Ok include_line.
Proof.
  intros Hk. unfold CUDAGen. fold include_line.
  set (s := mkGlobals include_line (errs g) ∅ 0 0).
  assert (E : forall k : M string,
            (clearSource ;;; emit include_line ;;; CUDAGenerator ;;; k) g = k s)
    by reflexivity.
  rewrite E. clear E.
  assert
    (Hrun : codegen_ModuleOp missingReturn NDEBUG getType getParallelNumber iterate module s
                 = Ok (tt, s)).
  { unfold codegen_ModuleOp, kernels in *. generalize dependent s. intros s.
    induction (functions module) as [|f fs IH]; [reflexivity|].
    simpl in Hk. apply app_eq_nil in Hk as [Hf Hfs].
    rewrite forM_cons.
    assert (Ef : codegen_FuncOp missingReturn NDEBUG getType getParallelNumber iterate
      (-1 + 1) f s
                 = Ok (tt, s)).
    { unfold codegen_FuncOp, kernels_of in *.
      induction (funcBody f) as [|op ops IHo]; [reflexivity|].
      rewrite forM_cons. destruct (isParallel op) eqn:Eop.
      - rewrite filter_cons_True in Hf by assumption. discriminate.
      - rewrite filter_cons_False in Hf by congruence.
        rewrite run_ret. now apply IHo. }
    rewrite (bind_Ok _ _ _ _ _ Ef). now apply IH. }
  rewrite (bind_Ok _ _ _ _ _ Hrun). unfold bind, sourceStr. simpl.
  now destruct debugLog.
Qed.

(** ** The chains of [affine.if] and [affine.for] *)

(** X27.  Every class the chain of [affine.if] tests for is also tested for by
    the chain of [affine.for]: a block of such operations (and the terminator)
    is written alike in either container. *)
Theorem if_block_is_a_for_block NDEBUG getType ci ops :
  (forall op, ifBodyCase op = true -> forBodyCase op = true) /\
  (Forall (fun op => ifBodyCase op = true \/ isYield op = true) ops ->
   forall g, forBlock NDEBUG getType ci ops g = ifBlock NDEBUG getType ci ops g).
Proof.
  assert (H : forall op, ifBodyCase op = true -> forBodyCase op = true).
  { intros op. now destruct op. }
  split; [exact H|].
  unfold forBlock, ifBlock. induction 1 as [|op ops Hop _ IH]; intros g.
  - reflexivity.
  - rewrite !forM_cons. unfold bind.
    assert (Estep : (if forBodyCase op then codegen NDEBUG getType (ci + 1) op
                     else elseLogAssertYield NDEBUG op) g
                    = (if ifBodyCase op then codegen NDEBUG getType (ci + 1) op
                       else elseAssertYield NDEBUG op) g).
    { destruct Hop as [Hop|Hop].
      - now rewrite Hop, (H op Hop).
      - destruct op; try discriminate. unfold elseAssertYield, assert_. simpl.
        now destruct NDEBUG. }
    rewrite Estep.
    match goal with
    | |- match ?c with _ => _ end = _ => destruct c as [[[] g1]|]
    end; [apply IH|reflexivity].
Qed.

(** ** The input the generator returns for *)

Lemma returns_ret {A} (a : A) : returns (ret a).
Proof. intros g. now exists a, g. Qed.

Lemma returns_bind {A B} (c : M A) (k : A -> M B) :
  returns c -> (forall a, returns (k a)) -> returns (bind c k).
Proof.
  intros Hc Hk g. destruct (Hc g) as (a & g1 & E1).
  destruct (Hk a g1) as (b & g2 & E2). exists b, g2.
  now rewrite (bind_Ok _ _ _ _ _ E1).
Qed.

Lemma returns_forM {A} (l : list A) (f : A -> M unit) :
  (forall x, x ∈ l -> returns (f x)) -> returns (forM_ l f).
Proof.
  induction l as [|x l IH]; intros Hf.
  - apply returns_ret.
  - rewrite forM_cons. apply returns_bind.
    + apply Hf. left.
    + intros _. apply IH. intros y Hy. apply Hf. now right.
Qed.

Lemma returns_emit s : returns (emit s).
Proof. intros g. now do 2 eexists. Qed.

Lemma returns_log s : returns (log s).
Proof. intros g. now do 2 eexists. Qed.

Lemma returns_indent ci : returns (indent ci).
Proof. apply returns_emit. Qed.

Lemma returns_getValueName v : returns (getValueName v).
Proof. intros g. rewrite getValueName_eq. now do 2 eexists. Qed.

Lemma returns_assert_true NDEBUG : returns (assert_ NDEBUG true).
Proof. intros g. exists tt, g. now apply assert_true. Qed.

Create HintDb returns_db.
#[export] Hint Resolve returns_emit returns_log returns_indent returns_getValueName
  returns_assert_true : returns_db.

Ltac returns_step :=
  first
    [ apply returns_ret
    | solve [eauto with returns_db]
    | apply returns_bind; [|intros ?]
    | apply returns_forM; intros ? ?
    | match goal with
      | |- returns (match ?x with _ => _ end) => destruct x
      | |- returns (if ?b then _ else _) => destruct b
      end ].

Ltac returns_go := repeat returns_step.







Lemma returns_codegen_binary ci before between after result lhs rhs :
  returns (codegen_binary ci before between after result lhs rhs).
Proof. unfold codegen_binary. returns_go. Qed.

Lemma returns_codegen_unary ci callee result operand :
  returns (codegen_unary ci callee result operand).
Proof. unfold codegen_unary. returns_go. Qed.

#[export] Hint Resolve returns_codegen_binary returns_codegen_unary : returns_db.

Lemma returns_yield NDEBUG op :
  isYield op = true ->
  returns (elseAssertYield NDEBUG op) /\ returns (elseLogAssertYield NDEBUG op).
Proof.
  intros H. unfold elseAssertYield, elseLogAssertYield. rewrite H.
  split; [apply returns_assert_true|apply returns_ret].
Qed.












(** *** The reading of the standard

    When the end of [setValueName] is taken as undefined, a run of the
    naming pass that returns has stored no name: it has changed nothing
    but the diagnostic stream. *)

Lemma quiet_setValueName_undefined v name : preserves quiet (setValueName None v name).
Proof.
  intros g b g'. unfold setValueName.
  destruct (valueNameMap g !! v); [|discriminate]. intros [= _ <-]. now repeat split.
Qed.

Lemma quiet_capture_undefined mem c : preserves quiet (capture None mem c).
Proof.
  intros g c' g'. unfold capture, bind, hasValueName.
  destruct (bool_decide _) eqn:Hn; [intros [= _ <-]; apply quiet_refl|].
  destruct (outsidesVars c !! mem); [intros [= _ <-]; apply quiet_refl|].
  unfold getArgName, setValueName. simpl.
  destruct (valueNameMap g !! mem) eqn:E; [|discriminate].
  apply bool_decide_eq_false in Hn. exfalso. apply Hn. eauto.
Qed.

#[export] Hint Resolve quiet_setValueName_undefined quiet_capture_undefined : quiet_db.

Ltac quiet_go :=
  repeat first
    [ solve [eauto with quiet_db]
    | quiet_step
    | apply preserves_forM; [exact quiet_refl | exact quiet_trans | intros ? ? ]
    | apply preserves_foldM; [exact quiet_refl | exact quiet_trans | intros ? ? ]
    | match goal with
      | |- preserves _ (match ?x with _ => _ end) => destruct x
      end ].

Lemma quiet_nameIVs_undefined prefix size operands : forall i,
  preserves quiet (nameIVs None prefix size operands i).
Proof. induction operands as [|v rest IH]; intros i; simpl; quiet_go. Qed.

#[export] Hint Resolve quiet_nameIVs_undefined : quiet_db.




(** ** The else-region of an [affine.if] *)

Lemma walk_children op child :
  child ∈ children op -> forall op', op' ∈ walk child -> op' ∈ walk op.
Proof.
  intros Hc op' Hop'. rewrite (walk_head op). right.
  assert (H : forall body, child ∈ body -> op' ∈ concat (map walk body)).
  { intros body Hin. apply list_elem_of_In, in_concat. exists (walk child).
    split; [apply in_map|]; now apply list_elem_of_In. }
  destruct op; simpl in *; try (now inversion Hc); try (now apply H).
  apply elem_of_app in Hc as [Hc|Hc]; apply elem_of_app; [left|right]; now apply H.
Qed.

Lemma walk_trans op : forall op' op'',
  op' ∈ walk op -> op'' ∈ walk op' -> op'' ∈ walk op.
Proof.
  induction op as [op IH] using Op_children_ind. intros op' op'' H1 H2.
  rewrite (walk_head op) in H1. apply elem_of_cons in H1 as [->|H1]; [exact H2|].
  rewrite Forall_forall in IH.
  assert (Hex : exists child, child ∈ children op /\ op' ∈ walk child).
  { assert (H : forall body, op' ∈ concat (map walk body) ->
                             exists child, child ∈ body /\ op' ∈ walk child).
    { intros body Hin. apply list_elem_of_In, in_concat in Hin as (l & Hl & Hin).
      apply in_map_iff in Hl as (child & <- & Hchild).
      exists child. split; now apply list_elem_of_In. }
    destruct op; simpl in *; try (now inversion H1); try (now apply H).
    apply elem_of_app in H1 as [H1|H1]; apply H in H1 as (child & Hc & Hw);
      exists child; (split; [|exact Hw]); apply elem_of_app; [now left|now right]. }
  destruct Hex as (child & Hc & Hw).
  eapply walk_children; [exact Hc|]. eapply IH; eassumption.
Qed.

(** X29.  Nothing is written for the else-region of an [affine.if], but
    the naming pass walks it: whenever the pass returns, in whatever
    build, a memref without a name that is stored to in the else-region of
    an [affine.if] of the kernel is among the values it returns, and so
    among the parameters of the kernel. *)
Theorem else_region_is_walked_but_not_written
    missingReturn NDEBUG getType iterate node constraints operands thenBody elseBody
    value memref exprs storeOperands g captured g' :
  enumerates iterate ->
  collectVars missingReturn iterate node g = Ok (captured, g') ->
  AffineIfOp constraints operands thenBody elseBody ∈ walk node ->
  AffineStoreOp value memref exprs storeOperands ∈ elseBody ->
  valueNameMap g !! memref = None ->
  memref ∉ named_before_accesses node ->
  memref ∉ omap snd (accesses node) ->
  memref ∈ captured /\
  (forall ci g0,
     codegen NDEBUG getType ci (AffineIfOp constraints operands thenBody elseBody) g0
     = codegen NDEBUG getType ci (AffineIfOp constraints operands thenBody []) g0).
Proof.
  intros Hit Hrun Hif Hstore Hfresh Hbefore Hres. split; [|reflexivity].
  destruct (collectVars_returned_full _ _ _ _ _ _ Hit Hrun) as (_ & -> & _).
  apply scan_complete; [| |assumption].
  - rewrite fst_accesses, !elem_of_app. do 3 right. left.
    apply list_elem_of_fmap. exists (memref, None). split; [reflexivity|].
    unfold storesOf, stores_in. apply list_elem_of_omap.
    exists (AffineStoreOp value memref exprs storeOperands). split; [|reflexivity].
    eapply walk_trans; [exact Hif|].
    eapply walk_children; [|rewrite walk_head; left].
    simpl. apply elem_of_app. now right.
  - intros H. apply elem_of_union in H as [H|H].
    + apply not_elem_of_dom in Hfresh. contradiction.
    + apply elem_of_list_to_set in H. contradiction.
Qed.

(** * Instances of the further properties *)

Ltac decide_by_computation :=
  match goal with
  | |- ?P => apply (bool_decide_unpack P); vm_compute; exact I
  end.

(** X2: a value without a name in [ex_state], in a build in which
    [setValueName] comes back to its caller. *)
Lemma setValueName_getValueName_round_trip_witness :
  let g1 := final (setValueName (Some true) vT "temp0" ex_state) ex_state in
  getValueName vT ex_state = Ok ("false", logged ("value not exists" +:+ nl) ex_state) /\
  getValueName vT g1 = Ok ("temp0", g1) /\
  valueNameMap g1 = <[vT := "temp0"]> (valueNameMap ex_state).
Proof.
  intros g1.
  destruct (setValueName_getValueName_round_trip (Some true) vT "temp0" ex_state
              eq_refl) as (Hset & _ & Hmiss & _).
  destruct (Hset true g1 eq_refl) as (E & N & _).
  split; [exact Hmiss|]. now split.
Defined.

(** X4: the declarations of a global and of a shared memref. *)
Lemma varDeclear_declares_witness :
  (exists g', varDeclear ex_getType vA ex_state_more = Ok (tt, g') /\
              wrote "float* arg0" ex_state_more g') /\
  (exists g', varDeclear ex_getType vShared ex_state_more = Ok (tt, g') /\
              wrote "__shared__ float array0[8]" ex_state_more g') /\
  varDeclear ex_getType vE ex_state_more = Fault undefined_behaviour.
Proof.
  split; [|split].
  - exact (proj1 (varDeclear_declares ex_getType vA ex_state_more)
             Float32Type [4; 3; 2] global "float" eq_refl eq_refl).
  - exact (proj1 (varDeclear_declares ex_getType vShared ex_state_more)
             Float32Type [8] shared "float" eq_refl eq_refl).
  - apply (proj2 (proj2 (varDeclear_declares ex_getType vE ex_state_more))).
    intros elementType dims memorySpace. discriminate.
Defined.

(** X5: a dimension among the operands, and one beyond them. *)
Lemma codegen_AffineExpr_returns_iff_renderable_witness :
  (exists text g' c,
     codegen_AffineExpr false (AffineDimExpr 1) [vI; vJ] ex_state = Ok (text, g') /\
     quiet ex_state g' /\
     toC (valueNameMap ex_state) [vI; vJ] (AffineDimExpr 1) = Some c /\
     CExpr_text c = text) /\
  codegen_AffineExpr false (AffineDimExpr 2) [vI; vJ] ex_state = Fault assertion_failed /\
  codegen_AffineExpr true (AffineSymbolExpr 0) [vI; vJ] ex_state
  = Fault undefined_behaviour.
Proof.
  split; [|split].
  - exact (proj1 (codegen_AffineExpr_returns_iff_renderable false [vI; vJ]
                    (AffineDimExpr 1) ex_state) eq_refl).
  - exact (proj2 (codegen_AffineExpr_returns_iff_renderable false [vI; vJ]
                    (AffineDimExpr 2) ex_state) eq_refl).
  - exact (proj2 (codegen_AffineExpr_returns_iff_renderable true [vI; vJ]
                    (AffineSymbolExpr 0) ex_state) eq_refl).
Defined.

(** X6: [i floordiv j] and [i mod j]. *)
Lemma FloorDiv_Mod_render_C_division_witness :
  codegen_AffineExpr false
    (AffineBinaryOpExpr FloorDiv (AffineDimExpr 0) (AffineDimExpr 1)) [vI; vJ] ex_state
  = Ok ("(" +:+ "i" +:+ " / " +:+ "j" +:+ ")", ex_state) /\
  codegen_AffineExpr false
    (AffineBinaryOpExpr Mod (AffineDimExpr 0) (AffineDimExpr 1)) [vI; vJ] ex_state
  = Ok ("(" +:+ "i" +:+ " % " +:+ "j" +:+ ")", ex_state).
Proof.
  destruct (FloorDiv_Mod_render_C_division false [vI; vJ] (AffineDimExpr 0)
              (AffineDimExpr 1) "i" "j" ex_state ex_state ex_state eq_refl eq_refl)
    as (Hq & Hm & _).
  now split.
Defined.

(** X7: a load from the shared array [array0]. *)
Lemma local_access_one_bracket_per_index_witness :
  exists g',
    codegen_AffineLoadOp false ex_getType 0 vR vShared [AffineDimExpr 0] [vI]
      ex_state_more = Ok (tt, g') /\
    wrote ("auto R0 = array0[i];" +:+ nl) ex_state_more g'.
Proof.
  refine (proj1 (proj2 (local_access_one_bracket_per_index false ex_getType 0 vShared
                          Float32Type [8] shared [AffineDimExpr 0] [vI] ["i"]
                          ex_state_more _ _ _)) vR).
  - reflexivity.
  - discriminate.
  - repeat constructor.
Defined.

(** X8: two and four indices on a memref of shape [4,3,2]. *)
Lemma global_access_index_count_witness :
  (exists g',
     subscript false ex_getType vA [AffineDimExpr 0; AffineDimExpr 1] [vI; vJ] ex_state
     = Ok ("[i * 2 + j * 1 + 0]", g') /\
     quiet ex_state g') /\
  subscript false ex_getType vA
    [AffineDimExpr 0; AffineDimExpr 1; AffineDimExpr 2; AffineDimExpr 0] [vI; vJ; vK]
    ex_state
  = Fault undefined_behaviour.
Proof.
  split.
  - refine (proj1 (global_access_index_count false ex_getType 0 vA Float32Type [4; 3; 2]
                     [AffineDimExpr 0; AffineDimExpr 1] [vI; vJ] ex_state eq_refl)
              ["i"; "j"] _ _ _).
    + simpl. lia.
    + repeat constructor; unfold INT_MAX; simpl; lia.
    + repeat constructor.
  - refine (proj1 (proj2 (global_access_index_count false ex_getType 0 vA Float32Type
                            [4; 3; 2] _ [vI; vJ; vK] ex_state eq_refl) _)).
    simpl. lia.
Defined.

(** X9: a [memref.load] from [arg0] at [i], [j], [k]. *)
Lemma memref_load_by_index_names_witness :
  exists g',
    codegen false ex_getType 0 (LoadOp vR vA [vI; vJ; vK]) ex_state = Ok (tt, g') /\
    wrote ("auto R0 = arg0[i * 6 + j * 2 + k * 1 + 0];" +:+ nl) ex_state g'.
Proof.
  refine (proj1 (memref_load_by_index_names false ex_getType 0 vR vA Float32Type
                   [4; 3; 2] global [vI; vJ; vK] ex_state eq_refl) eq_refl eq_refl _).
  repeat constructor; unfold INT_MAX; simpl; lia.
Defined.

(** X10: vectors of four [float]s, of one [half_t] and of indices. *)
Lemma getVectorFetchType_counts_words_witness :
  getVectorFetchType false (VectorType Float32Type [4]) ex_state = Ok ("float4", ex_state) /\
  getVectorFetchType false (VectorType Float16Type [1]) ex_state = Ok ("float0", ex_state) /\
  getVectorFetchType false (VectorType IndexType [64]) ex_state
  = Ok ("float-2", logged ("Vector type error" +:+ nl) ex_state).
Proof.
  split; [|split].
  - exact (proj1 (getVectorFetchType_counts_words false Float32Type 4 [] ex_state)
             4 eq_refl).
  - exact (proj1 (getVectorFetchType_counts_words false Float16Type 1 [] ex_state)
             0 eq_refl).
  - exact (proj1 (proj2 (getVectorFetchType_counts_words false IndexType 64 []
                           ex_state)) eq_refl).
Defined.

(** X11: a vector load of four [float]s from [arg0]. *)
Lemma vector_access_reinterprets_scalar_element_witness :
  exists g',
    codegen_AffineVectorLoadOp false ex_getType 0 vVec vA ex_ijk [vI; vJ; vK]
      ex_state_more = Ok (tt, g') /\
    wrote ("auto vec0 = (reinterpret_cast<float4*>(&(arg0[i * 6 + j * 2 + k * 1 + 0]))[0]);"
           +:+ nl) ex_state_more g'.
Proof.
  refine (proj1 (vector_access_reinterprets_scalar_element false ex_getType 0 vVec vA
                   ex_ijk [vI; vJ; vK] Float32Type 4 [] 4
                   "[i * 6 + j * 2 + k * 1 + 0]" ex_state_more _ _ _)).
  - reflexivity.
  - reflexivity.
  - vm_compute. reflexivity.
Defined.

(** X13: an [affine.apply] with two results. *)
Lemma codegen_AffineApplyOp_one_result_witness :
  codegen_AffineApplyOp false 0 vE [AffineDimExpr 0; AffineDimExpr 1] [vI; vJ] ex_state
  = Fault assertion_failed /\
  exists g',
    codegen_AffineApplyOp true 0 vE [AffineDimExpr 0; AffineDimExpr 1] [vI; vJ] ex_state
    = Ok (tt, g') /\
    wrote ("int expr0 = i;" +:+ nl) ex_state g'.
Proof.
  split.
  - apply (proj1 (codegen_AffineApplyOp_one_result 0 vE _ [vI; vJ] ex_state)).
    discriminate.
  - refine (proj2 (proj2 (codegen_AffineApplyOp_one_result 0 vE _ [vI; vJ] ex_state))
              true (AffineDimExpr 0) [AffineDimExpr 1] "i" eq_refl _ _).
    + now left.
    + reflexivity.
Defined.

(** X14: the integer constant [2^32 + 5]. *)
Lemma integer_constants_written_witness :
  exists g',
    codegen_ConstantIntOp ex_getType 0 vE 4294967301 ex_state = Ok (tt, g') /\
    wrote ("constexpr int expr0 = 5;" +:+ nl) ex_state g'.
Proof.
  exact (proj1 (integer_constants_written ex_getType 0 vE 4294967301 ex_state)
           "int" eq_refl).
Defined.

(** X16: a loop with an [affine.apply] in [ex_state]. *)
Lemma emission_only_appends_witness :
  let g' := final (codegen false ex_getType 0 (ex_for [ex_apply; AffineYieldOp]) ex_state)
                  ex_state in
  valueNameMap g' = valueNameMap ex_state /\
  kernelCounter g' = kernelCounter ex_state /\
  varCounter g' = varCounter ex_state /\
  (exists text, source g' = source ex_state +:+ text) /\
  (exists msgs, errs g' = errs ex_state ++ msgs).
Proof.
  refine (emission_only_appends false ex_getType 0 (ex_for [ex_apply; AffineYieldOp]) []
            ex_state _ _).
  left. vm_compute. reflexivity.
Defined.

(** X17: the kernel of the end-to-end scenario, generated when two
    arguments have been named before: its parameters are [arg2] and
    [arg3]. *)
Lemma captured_values_named_arg_witness :
  let g' := final (collectVars (Some true) map_to_list ex_kernel ex_state) ex_state in
  varCounter g' = varCounter ex_state + Z.of_nat (length [vB; vC]) /\
  (forall (i : nat) v,
     [vB; vC] !! i = Some v ->
     valueNameMap g' !! v
     = Some ("arg" +:+ to_string (varCounter ex_state + Z.of_nat i))) /\
  (forall (i j : nat) v w,
     [vB; vC] !! i = Some v -> [vB; vC] !! j = Some w -> i <> j ->
     v <> w /\ valueNameMap g' !! v <> valueNameMap g' !! w).
Proof.
  refine (captured_values_named_arg (Some true) map_to_list ex_kernel ex_state
            [vB; vC] _ enumerates_map_to_list _).
  apply returned_final. vm_compute. reflexivity.
Defined.

(** X18: the naming pass on the kernel of the end-to-end scenario, from a
    state that holds names. *)
Lemma collectVars_only_adds_names_witness :
  let g' := final (collectVars (Some true) map_to_list ex_kernel ex_state) ex_state in
  source g' = source ex_state /\
  kernelCounter g' = kernelCounter ex_state /\
  varCounter ex_state <= varCounter g' /\
  (forall v name,
     valueNameMap ex_state !! v = Some name -> valueNameMap g' !! v = Some name).
Proof.
  refine (collectVars_only_adds_names (Some true) map_to_list ex_kernel ex_state
            [vB; vC] _ _).
  apply returned_final. vm_compute. reflexivity.
Defined.

(** X19: a kernel whose only store is in an else-region. *)
Lemma captured_iff_accessed_without_name_witness :
  NoDup [vC] /\
  (forall v, v ∈ [vC] ->
     v ∈ map fst (accesses ex_kernel_else) /\ valueNameMap (blank ∅) !! v = None /\
     v ∉ named_before_accesses ex_kernel_else) /\
  (forall v, v ∈ map fst (accesses ex_kernel_else) ->
     valueNameMap (blank ∅) !! v = None -> v ∉ named_before_accesses ex_kernel_else ->
     v ∉ omap snd (accesses ex_kernel_else) ->
     v ∈ [vC]).
Proof.
  refine (captured_iff_accessed_without_name (Some true) map_to_list ex_kernel_else
            (blank ∅) [vC] _ enumerates_map_to_list (returned_final _ _ _ _)).
  vm_compute. reflexivity.
Defined.

(** X29: the store to [vC] in the else-region of [ex_if_else]. *)
Lemma else_region_is_walked_but_not_written_witness : vC ∈ [vC].
Proof.
  refine (proj1 (else_region_is_walked_but_not_written (Some true) false ex_getType
                   map_to_list ex_kernel_else [(AffineDimExpr 0, false)] [vTx]
                   [AffineYieldOp] [ex_else_store; AffineYieldOp] vT vC
                   [AffineDimExpr 0] [vTx] (blank ∅) [vC] _
                   enumerates_map_to_list (returned_final _ _ _ _) _ _ _ _ _)).
  - vm_compute. reflexivity.
  - cbv. repeat first [apply list_elem_of_here | apply list_elem_of_further].
  - left.
  - apply lookup_empty.
  - decide_by_computation.
  - decide_by_computation.
Defined.

(** X20: the kernel with a loop: [iter0], [expr0], [array0]. *)
Lemma loops_applications_allocations_named_witness :
  let g' := final (collectVars (Some true) map_to_list ex_kernel_loop (blank ∅))
                  (blank ∅) in
  (forall (k : nat) v, loops ex_kernel_loop !! k = Some v ->
     valueNameMap g' !! v = Some ("iter" +:+ to_string (Z.of_nat k))) /\
  (forall (k : nat) v, applications ex_kernel_loop !! k = Some v ->
     valueNameMap g' !! v = Some ("expr" +:+ to_string (Z.of_nat k))) /\
  (forall (k : nat) v, allocations ex_kernel_loop !! k = Some v ->
     valueNameMap g' !! v = Some ("array" +:+ to_string (Z.of_nat k))).
Proof.
  refine (loops_applications_allocations_named (Some true) map_to_list ex_kernel_loop
            (blank ∅) [vB; vC] _ _ _ _).
  - apply returned_final. vm_compute. reflexivity.
  - decide_by_computation.
  - intros v _. apply lookup_empty.
Defined.

(** X21: the kernel with a loop: the sum comes before the product in the
    block and is numbered after it. *)
Lemma constants_and_temporaries_numbered_by_class_witness :
  let g' := final (collectVars (Some true) map_to_list ex_kernel_loop (blank ∅))
                  (blank ∅) in
  (forall (k : nat) v, constants ex_kernel_loop !! k = Some v ->
     valueNameMap g' !! v = Some ("const" +:+ to_string (Z.of_nat k) +:+ "th")) /\
  (forall (k : nat) v, temporaries ex_kernel_loop !! k = Some v ->
     valueNameMap g' !! v = Some ("temp" +:+ to_string (Z.of_nat k))).
Proof.
  refine (constants_and_temporaries_numbered_by_class (Some true) map_to_list
            ex_kernel_loop (blank ∅) [vB; vC] _ _ _ _).
  - apply returned_final. vm_compute. reflexivity.
  - decide_by_computation.
  - apply Forall_forall. repeat constructor; try apply lookup_empty;
      decide_by_computation.
Defined.

(** X22: the kernel with a loop: the [memref.load] comes before the
    [affine.load] in the block and is numbered after it. *)
Lemma load_results_numbered_by_class_witness :
  let g' := final (collectVars (Some true) map_to_list ex_kernel_loop (blank ∅))
                  (blank ∅) in
  (forall (k : nat) v, vectors ex_kernel_loop !! k = Some v ->
     valueNameMap g' !! v = Some ("vec" +:+ to_string (Z.of_nat k))) /\
  (forall (k : nat) v, registers ex_kernel_loop !! k = Some v ->
     valueNameMap g' !! v = Some ("R" +:+ to_string (Z.of_nat k))).
Proof.
  refine (load_results_numbered_by_class (Some true) map_to_list ex_kernel_loop
            (blank ∅) [vB; vC] _ _ _ _).
  - apply returned_final. vm_compute. reflexivity.
  - decide_by_computation.
  - apply Forall_forall. repeat constructor; try apply lookup_empty;
      decide_by_computation.
Defined.


(** X24: a kernel that only stores to its own allocation, in a build in
    which [setValueName] comes back to its caller. *)
Lemma kernel_without_parameter_is_not_generated_witness :
  codegen_AffineParallelOp (Some true) false ex_getType ex_getParallelNumber
    map_to_list 0 ex_kernel_own (blank ∅) = Fault assertion_failed /\
  codegen_AffineParallelOp (Some true) true ex_getType ex_getParallelNumber
    map_to_list 0 ex_kernel_own (blank ∅) = Fault undefined_behaviour.
Proof.
  split;
    (refine (proj2 (proj1 (kernel_without_parameter_is_not_generated (Some true) _
                             ex_getType ex_getParallelNumber map_to_list 0
                             ex_kernel_own (blank ∅) enumerates_map_to_list _)
                      [] _ (returned_final _ _ _ _)));
     [apply Forall_forall; repeat constructor; right; decide_by_computation
     |vm_compute; reflexivity]).
Defined.

(** X25: the module of the end-to-end scenario. *)
Lemma CUDAGen_returns_include_then_kernels_witness :
  let g' := final (CUDAGen (Some true) false ex_getType ex_getParallelNumber true
                     map_to_list ex_module ex_state) ex_state in
  (exists rest, ex_module_text = include_line +:+ rest) /\
  source g' = ex_module_text /\
  kernelCounter g' = Z.of_nat (length (kernels ex_module)) /\
  (true = true -> exists msgs, errs g' = msgs ++ [ex_module_text]).
Proof.
  refine (CUDAGen_returns_include_then_kernels (Some true) false ex_getType
            ex_getParallelNumber true map_to_list ex_module ex_state ex_module_text
            _ _).
  apply returned_final. vm_compute. reflexivity.
Defined.

(** X26: a function that holds an [arith.addi] and nothing else. *)
Lemma CUDAGen_without_kernel_returns_include_line_witness :
  returned (CUDAGen None false ex_getType ex_getParallelNumber false map_to_list
              ex_module_without_kernel ex_state)
  = Ok include_line.
Proof.
  exact (CUDAGen_without_kernel_returns_include_line None false ex_getType
           ex_getParallelNumber false map_to_list ex_module_without_kernel ex_state
           eq_refl).
Defined.

(** X27: a block with a load, a sum and a store. *)
Lemma if_block_is_a_for_block_witness :
  forBlock false ex_getType 0
    [AffineLoadOp vR vB [AffineDimExpr 0] [vI]; AddFOp vT vR vR; AffineYieldOp] ex_state
  = ifBlock false ex_getType 0
      [AffineLoadOp vR vB [AffineDimExpr 0] [vI]; AddFOp vT vR vR; AffineYieldOp] ex_state.
Proof.
  refine (proj2 (if_block_is_a_for_block false ex_getType 0 _) _ ex_state).
  repeat (constructor; [first [left; reflexivity | right; reflexivity]|]).
  constructor.
Defined.

